(** * nxapi: Nintendo Account authorisation and the Coral client's token renewal

    A shallow embedding of [src/api/na.ts] (the session-token-code flow:
    [generateAuthData], [NintendoAccountSessionAuthorisation.getSessionToken])
    and of the Coral client [CoralApi] ([fetch], [getWebServiceToken] and the
    shared [_renewToken] promise), with the functions around them: the
    friend code lookup, the login with a session token and the renewal
    ([getNintendoAccountToken], [getNintendoAccountUser],
    [loginWithSessionToken], [getToken], [renewToken]) and the two
    constructors of the client.

    Part I holds the definitions, Part II the theorems. *)

From Stdlib Require Import ZArith NArith List Lia Bool.
From Stdlib.Strings Require Import Ascii String Byte.
From stdpp Require Import base list.
Import ListNotations.

(* ===================================================================== *)
(** * Part I: definitions *)
(* ===================================================================== *)

(** ** SHA-256, as [crypto.createHash('sha256')] computes it (FIPS 180-4)

    32-bit words are [Z] in [0, 2^32) with the wrap-around written out. *)
Module Sha256.
Local Open Scope Z_scope.

Definition wrap32 (x : Z) : Z := x mod 2 ^ 32.
Definition add32 (x y : Z) : Z := wrap32 (x + y).
Definition rotr (n x : Z) : Z :=
  Z.lor (Z.shiftr x n) (wrap32 (Z.shiftl x (32 - n))).

Definition Ch (x y z : Z) : Z := Z.lxor (Z.land x y) (Z.land (Z.lnot x) z).
Definition Maj (x y z : Z) : Z :=
  Z.lxor (Z.lxor (Z.land x y) (Z.land x z)) (Z.land y z).
Definition Sigma0 (x : Z) : Z := Z.lxor (Z.lxor (rotr 2 x) (rotr 13 x)) (rotr 22 x).
Definition Sigma1 (x : Z) : Z := Z.lxor (Z.lxor (rotr 6 x) (rotr 11 x)) (rotr 25 x).
Definition sigma0 (x : Z) : Z := Z.lxor (Z.lxor (rotr 7 x) (rotr 18 x)) (Z.shiftr x 3).
Definition sigma1 (x : Z) : Z := Z.lxor (Z.lxor (rotr 17 x) (rotr 19 x)) (Z.shiftr x 10).

(** The round constants are the first 32 bits of the fractional parts of the
    cube roots of the first 64 primes, the initial hash value those of the
    square roots of the first 8. *)
Definition primes64 : list Z :=
  [2; 3; 5; 7; 11; 13; 17; 19; 23; 29; 31; 37; 41; 43; 47; 53;
   59; 61; 67; 71; 73; 79; 83; 89; 97; 101; 103; 107; 109; 113; 127; 131;
   137; 139; 149; 151; 157; 163; 167; 173; 179; 181; 191; 193; 197; 199; 211; 223;
   227; 229; 233; 239; 241; 251; 257; 263; 269; 271; 277; 281; 283; 293; 307; 311].

Fixpoint cbrt_bits (k : nat) (n r : Z) : Z :=
  match k with
  | O => r
  | S k' =>
      let r' := r + 2 ^ Z.of_nat k' in
      if r' * r' * r' <=? n then cbrt_bits k' n r' else cbrt_bits k' n r
  end.
Definition icbrt (n : Z) : Z := cbrt_bits 40 n 0.

Definition K : list Z :=
  Eval vm_compute in map (fun p => wrap32 (icbrt (p * 2 ^ 96))) primes64.
Definition H0 : list Z :=
  Eval vm_compute in map (fun p => wrap32 (Z.sqrt (p * 2 ^ 64))) (firstn 8 primes64).

(** Padding: a 1 bit, zeros up to 56 mod 64 bytes, the bit length on 8 bytes. *)
Fixpoint be_bytes (n : nat) (x : Z) : list Z :=
  match n with
  | O => []
  | S n' => (x / 256 ^ Z.of_nat n') mod 256 :: be_bytes n' x
  end.

Definition pad (msg : list Z) : list Z :=
  let len := Z.of_nat (length msg) in
  let zeros := Z.to_nat ((55 - len) mod 64) in
  msg ++ 128 :: repeat 0 zeros ++ be_bytes 8 (8 * len).

Fixpoint be_words (fuel : nat) (bs : list Z) : list Z :=
  match fuel, bs with
  | S fuel', a :: b :: c :: d :: rest =>
      (((a * 256 + b) * 256 + c) * 256 + d) :: be_words fuel' rest
  | _, _ => []
  end.

(** The message schedule, most recent word first. *)
Fixpoint schedule (n : nat) (rev_w : list Z) : list Z :=
  match n with
  | O => rev_w
  | S n' =>
      let w := add32 (add32 (sigma1 (nth 1 rev_w 0)) (nth 6 rev_w 0))
                     (add32 (sigma0 (nth 14 rev_w 0)) (nth 15 rev_w 0)) in
      schedule n' (w :: rev_w)
  end.

Record regs := Regs { ra : Z; rb : Z; rc : Z; rd : Z; re : Z; rf : Z; rg : Z; rh : Z }.

Definition round (s : regs) (kw : Z * Z) : regs :=
  let t1 := add32 (add32 (add32 (rh s) (Sigma1 (re s))) (Ch (re s) (rf s) (rg s)))
                  (add32 (fst kw) (snd kw)) in
  let t2 := add32 (Sigma0 (ra s)) (Maj (ra s) (rb s) (rc s)) in
  Regs (add32 t1 t2) (ra s) (rb s) (rc s) (add32 (rd s) t1) (re s) (rf s) (rg s).

Definition regs_of (h : list Z) : regs :=
  Regs (nth 0 h 0) (nth 1 h 0) (nth 2 h 0) (nth 3 h 0)
       (nth 4 h 0) (nth 5 h 0) (nth 6 h 0) (nth 7 h 0).
Definition list_of (s : regs) : list Z :=
  [ra s; rb s; rc s; rd s; re s; rf s; rg s; rh s].

Definition compress (h : list Z) (block : list Z) : list Z :=
  let w := rev (schedule 48 (rev (be_words 16 block))) in
  let s := fold_left round (combine K w) (regs_of h) in
  map (fun p => add32 (fst p) (snd p)) (combine h (list_of s)).

Fixpoint blocks (fuel : nat) (h : list Z) (bs : list Z) : list Z :=
  match fuel with
  | O => h
  | S fuel' =>
      match bs with
      | [] => h
      | _ => blocks fuel' (compress h (firstn 64 bs)) (skipn 64 bs)
      end
  end.

Definition byte_of_Z (z : Z) : byte :=
  match Byte.of_N (Z.to_N (z mod 256)) with Some b => b | None => x00 end.
Definition Z_of_byte (b : byte) : Z := Z.of_N (Byte.to_N b).

Definition digest (msg : list byte) : list byte :=
  let padded := pad (map Z_of_byte msg) in
  let h := blocks (length padded) H0 padded in
  map byte_of_Z (flat_map (be_bytes 4) h).

End Sha256.

(** ** [Buffer.toString('base64url')]: RFC 4648 section 5, without padding *)
Module Base64Url.

Definition alphabet : list ascii :=
  list_ascii_of_string
    "ABCDEFGHIJKLMNOPQRSTUVWXYZabcdefghijklmnopqrstuvwxyz0123456789-_".

Definition sextet (n : N) : ascii := nth (N.to_nat n) alphabet "A"%char.

Fixpoint encode (bs : list byte) : string :=
  match bs with
  | [] => EmptyString
  | [a] =>
      let a := Byte.to_N a in
      String (sextet (a / 4)) (String (sextet (a mod 4 * 16)) EmptyString)
  | [a; b] =>
      let a := Byte.to_N a in
      let b := Byte.to_N b in
      String (sextet (a / 4))
        (String (sextet (a mod 4 * 16 + b / 16))
           (String (sextet (b mod 16 * 4)) EmptyString))
  | a :: b :: c :: rest =>
      let a := Byte.to_N a in
      let b := Byte.to_N b in
      let c := Byte.to_N c in
      String (sextet (a / 4))
        (String (sextet (a mod 4 * 16 + b / 16))
           (String (sextet (b mod 16 * 4 + c / 64))
              (String (sextet (c mod 64)) (encode rest))))
  end%N.

(** The inverse table, and the decoder used to state that nothing of the
    encoded bytes is lost. *)
Fixpoint index_of (c : ascii) (l : list ascii) (i : N) : option N :=
  match l with
  | [] => None
  | x :: l' => if Ascii.eqb c x then Some i else index_of c l' (i + 1)
  end.
Definition unsextet (c : ascii) : option N := index_of c alphabet 0.

Definition byte_of_N (n : N) : byte :=
  match Byte.of_N (n mod 256) with Some b => b | None => x00 end.

Fixpoint decode (s : string) : option (list byte) :=
  match s with
  | EmptyString => Some []
  | String c0 (String c1 EmptyString) =>
      match unsextet c0, unsextet c1 with
      | Some s0, Some s1 => Some [byte_of_N (s0 * 4 + s1 / 16)]
      | _, _ => None
      end
  | String c0 (String c1 (String c2 EmptyString)) =>
      match unsextet c0, unsextet c1, unsextet c2 with
      | Some s0, Some s1, Some s2 =>
          Some [byte_of_N (s0 * 4 + s1 / 16); byte_of_N (s1 mod 16 * 16 + s2 / 4)]
      | _, _, _ => None
      end
  | String c0 (String c1 (String c2 (String c3 rest))) =>
      match unsextet c0, unsextet c1, unsextet c2, unsextet c3, decode rest with
      | Some s0, Some s1, Some s2, Some s3, Some bs =>
          Some (byte_of_N (s0 * 4 + s1 / 16)
                :: byte_of_N (s1 mod 16 * 16 + s2 / 4)
                :: byte_of_N (s2 mod 4 * 64 + s3) :: bs)
      | _, _, _, _, _ => None
      end
  | _ => None
  end%N.

Definition url_safe_char (c : ascii) : bool :=
  let n := N_of_ascii c in
  ((65 <=? n) && (n <=? 90) || (97 <=? n) && (n <=? 122)
   || (48 <=? n) && (n <=? 57) || (n =? 45) || (n =? 95))%N.

Definition url_safe (s : string) : bool :=
  forallb url_safe_char (list_ascii_of_string s).

End Base64Url.

(** ** [src/api/na.ts]: the authorisation URL and the redirect callback *)
Module Na.
Local Open Scope string_scope.

(** [crypto.randomBytes]: the system's secure random source, as a tape of
    bytes of which [used] have been drawn.  Drawing bytes is the only effect
    [generateAuthData] has. *)
Record Rng := { tape : nat -> byte; used : nat }.

Definition randomBytes (n : nat) (g : Rng) : list byte * Rng :=
  (map (tape g) (seq (used g) n), {| tape := tape g; used := used g + n |}).

(** [URLSearchParams]: name and value pairs in insertion order. *)
Definition URLSearchParams := list (string * string).

(** [qs.get(name)]: the first value of that name, [null] ([None]) without one. *)
Fixpoint get (name : string) (qs : URLSearchParams) : option string :=
  match qs with
  | [] => None
  | (k, v) :: rest => if String.eqb k name then Some v else get name rest
  end.

Definition has (name : string) (qs : URLSearchParams) : bool :=
  match get name qs with Some _ => true | None => false end.

(** [qs.toString()]: the application/x-www-form-urlencoded serialiser. *)
Definition hex_upper (n : N) : ascii :=
  nth (N.to_nat n) (list_ascii_of_string "0123456789ABCDEF") "0"%char.

Definition form_unreserved (c : ascii) : bool :=
  let n := N_of_ascii c in
  ((65 <=? n) && (n <=? 90) || (97 <=? n) && (n <=? 122)
   || (48 <=? n) && (n <=? 57)
   || (n =? 42) || (n =? 45) || (n =? 46) || (n =? 95))%N.

Fixpoint form_encode (s : string) : string :=
  match s with
  | EmptyString => EmptyString
  | String c rest =>
      if form_unreserved c then String c (form_encode rest)
      else if Ascii.eqb c " "%char then String "+"%char (form_encode rest)
      else
        let n := N_of_ascii c in
        String "%"%char
          (String (hex_upper (n / 16)) (String (hex_upper (n mod 16)) (form_encode rest)))
  end.

Fixpoint toString (qs : URLSearchParams) : string :=
  match qs with
  | [] => ""
  | [(k, v)] => form_encode k ++ "=" ++ form_encode v
  | (k, v) :: rest => form_encode k ++ "=" ++ form_encode v ++ "&" ++ toString rest
  end.

(** [scope: string | string[]] and [scope.join(' ')]. *)
Inductive Scope :=
| ScopeString (s : string)
| ScopeArray (l : list string).

Fixpoint join (sep : string) (l : list string) : string :=
  match l with
  | [] => ""
  | [x] => x
  | x :: rest => x ++ sep ++ join sep rest
  end.

Definition scope_string (scope : Scope) : string :=
  match scope with
  | ScopeString s => s
  | ScopeArray l => join " " l
  end.

Definition default_redirect_uri (client_id : string) : string :=
  "npf" ++ client_id ++ "://auth".

Record AuthData := {
  url : string;
  state : string;
  verifier : string;
  challenge : string;
}.

(** The object literal [params] of [generateAuthData]. *)
Definition authorize_params (state redirect_uri client_id : string) (scope : Scope)
    (challenge : string) : URLSearchParams :=
  [ ("state", state);
    ("redirect_uri", redirect_uri);
    ("client_id", client_id);
    ("scope", scope_string scope);
    ("response_type", "session_token_code");
    ("session_token_code_challenge", challenge);
    ("session_token_code_challenge_method", "S256");
    ("theme", "login_form") ].

Definition authorize_endpoint : string :=
  "https://accounts.nintendo.com/connect/1.0.0/authorize?".

(** [generateAuthData(client_id, scope, redirect_uri)]; [redirect_uri] is
    [None] when the argument is left out. *)
Definition generateAuthData (g : Rng) (client_id : string) (scope : Scope)
    (redirect_uri : option string) : AuthData * Rng :=
  let redirect_uri :=
    match redirect_uri with Some r => r | None => default_redirect_uri client_id end in
  let '(state_bytes, g) := randomBytes 36 g in
  let state := Base64Url.encode state_bytes in
  let '(verifier_bytes, g) := randomBytes 32 g in
  let verifier := Base64Url.encode verifier_bytes in
  let challenge := Base64Url.encode (Sha256.digest (list_byte_of_string verifier)) in
  let params := authorize_params state redirect_uri client_id scope challenge in
  ({| url := authorize_endpoint ++ toString params;
      state := state;
      verifier := verifier;
      challenge := challenge |}, g).

(** *** The session token request *)

Record Request := {
  req_url : string;
  req_method : string;
  req_headers : list (string * string);
  req_body : string;
}.

(** The decoded body of a response of the session token endpoint. *)
Inductive TokenJson :=
| SessionTokenJson (session_token code : string)
| AuthErrorJson (error : string) (error_description : option string)
| ErrorJson (errorCode detail : string).

Record Response := {
  resp_status : Z;
  resp_json : TokenJson;
}.

Inductive JsError :=
| Error (message : string)
| TypeError (message : string)
| NintendoAccountSessionAuthorisationError (code message : string)
| NintendoAccountAuthErrorResponse (message : string) (response : Response)
| NintendoAccountErrorResponse (message : string) (response : Response).

Record NintendoAccountSessionToken := {
  session_token : string;
  session_token_code : string;
  session_token_response : Response;
}.

Definition session_token_request (code verifier client_id : string) : Request :=
  {| req_url := "https://accounts.nintendo.com/connect/1.0.0/api/session_token";
     req_method := "POST";
     req_headers :=
       [ ("Content-Type", "application/x-www-form-urlencoded");
         ("Accept", "application/json");
         ("User-Agent", "NASDKAPI; Android") ];
     req_body :=
       toString [ ("client_id", client_id);
                  ("session_token_code", code);
                  ("session_token_code_verifier", verifier) ] |}.

(** The network: what the endpoint answers, and the requests made so far
    (most recent first). *)
Definition Network := Request -> Response.
Definition Sent := list Request.

Definition getNintendoAccountSessionToken (net : Network) (code verifier client_id : string)
    (sent : Sent) : (JsError + NintendoAccountSessionToken) * Sent :=
  let request := session_token_request code verifier client_id in
  let response := net request in
  let sent := request :: sent in
  if negb (resp_status response =? 200)%Z then
    (inl (NintendoAccountAuthErrorResponse "[na] Non-200 status code" response), sent)
  else
    match resp_json response with
    | AuthErrorJson error error_description =>
        let description :=
          match error_description with Some d => d | None => error end in
        (inl (NintendoAccountAuthErrorResponse ("[na] " ++ description) response), sent)
    | ErrorJson _ detail =>
        (inl (NintendoAccountErrorResponse ("[na] " ++ detail) response), sent)
    | SessionTokenJson token code' =>
        (inr {| session_token := token;
                session_token_code := code';
                session_token_response := response |}, sent)
    end.

(** *** [NintendoAccountSessionAuthorisation] *)

(** The first argument of [getSessionToken]: [string | URLSearchParams | null]. *)
Inductive CodeArg :=
| CodeString (code : string)
| CodeParams (qs : URLSearchParams)
| CodeNull.

(** The second: [string | null | undefined]. *)
Inductive StateArg :=
| StateUndefined
| StateNull
| StateString (s : string).

Record AuthorisationResult := {
  result_state : StateArg;
  result_code : string;
}.

Record NintendoAccountSessionAuthorisation := {
  client_id : string;
  scope : string;
  authorise_url : string;
  auth_state : string;
  auth_verifier : string;
  redirect_uri : string;
  result : option AuthorisationResult;
}.

Definition set_result (this : NintendoAccountSessionAuthorisation)
    (r : AuthorisationResult) : NintendoAccountSessionAuthorisation :=
  {| client_id := client_id this;
     scope := scope this;
     authorise_url := authorise_url this;
     auth_state := auth_state this;
     auth_verifier := auth_verifier this;
     redirect_uri := redirect_uri this;
     result := Some r |}.

(** [NintendoAccountSessionAuthorisation.create]. *)
Definition create (g : Rng) (client_id : string) (scope : Scope)
    (redirect_uri : option string) : NintendoAccountSessionAuthorisation * Rng :=
  let redirect_uri :=
    match redirect_uri with Some r => r | None => default_redirect_uri client_id end in
  let scope := ScopeString (scope_string scope) in
  let '(auth_data, g) := generateAuthData g client_id scope (Some redirect_uri) in
  ({| client_id := client_id;
      scope := scope_string scope;
      authorise_url := url auth_data;
      auth_state := state auth_data;
      auth_verifier := verifier auth_data;
      redirect_uri := redirect_uri;
      result := None |}, g).

(** [NintendoAccountSessionAuthorisationError.fromSearchParams]. *)
Definition fromSearchParams (qs : URLSearchParams) : JsError :=
  let code := match get "error" qs with Some c => c | None => "unknown_error" end in
  let message := match get "error_description" qs with Some m => m | None => code end in
  NintendoAccountSessionAuthorisationError code message.

(** [x !== this.state] for [x : string | null] and for [x : string | null | undefined]. *)
Definition differs_from (x : option string) (stored : string) : bool :=
  match x with
  | Some s => negb (String.eqb s stored)
  | None => true
  end.

Definition state_differs (x : StateArg) (stored : string) : bool :=
  match x with
  | StateString s => negb (String.eqb s stored)
  | StateNull | StateUndefined => true
  end.

Definition is_undefined (x : StateArg) : bool :=
  match x with StateUndefined => true | _ => false end.

(** The outcome of one call: the object afterwards, what the returned promise
    settles to, and the requests made. *)
Record Outcome := {
  this_after : NintendoAccountSessionAuthorisation;
  settled : JsError + NintendoAccountSessionToken;
  sent_after : Sent;
}.

Definition throw (this : NintendoAccountSessionAuthorisation) (e : JsError) (sent : Sent)
    : Outcome :=
  {| this_after := this; settled := inl e; sent_after := sent |}.

(** Lines 53 to 63, where [code : string | null] and [state] are the two
    variables as the [instanceof] block leaves them. *)
Definition getSessionToken_tail (net : Network) (this : NintendoAccountSessionAuthorisation)
    (outer_state : StateArg) (code : option string) (state : StateArg) (sent : Sent)
    : Outcome :=
  if negb (is_undefined state) && state_differs state (auth_state this) then
    throw this (TypeError "Invalid state") sent
  else
    match code with
    | None | Some "" => throw this (TypeError "Invalid code") sent
    | Some code =>
        let this := set_result this {| result_state := outer_state; result_code := code |} in
        let '(r, sent) :=
          getNintendoAccountSessionToken net code (auth_verifier this) (client_id this) sent in
        {| this_after := this; settled := r; sent_after := sent |}
    end.

Definition getSessionToken (net : Network) (this : NintendoAccountSessionAuthorisation)
    (code : CodeArg) (state : StateArg) (sent : Sent) : Outcome :=
  match result this with
  | Some _ =>
      throw this (Error "NintendoAccountSessionAuthorisation already completed") sent
  | None =>
      let outer_state := state in
      match code with
      | CodeParams qs =>
          let inner_state := get "state" qs in
          if differs_from inner_state (auth_state this) then
            throw this (TypeError "Invalid state") sent
          else if has "error" qs then
            throw this (fromSearchParams qs) sent
          else
            getSessionToken_tail net this outer_state (get "session_token_code" qs)
              StateUndefined sent
      | CodeString c => getSessionToken_tail net this outer_state (Some c) state sent
      | CodeNull => getSessionToken_tail net this outer_state None state sent
      end
  end.

(** The state a callback input carries: the [state] parameter of a query
    string ([null] without one), the second argument of a raw pair. *)
Definition callback_state (code : CodeArg) (state : StateArg) : StateArg :=
  match code with
  | CodeParams qs =>
      match get "state" qs with Some s => StateString s | None => StateNull end
  | _ => state
  end.

(** *** Two flows and an endpoint, for the examples

    A pending flow whose stored state is ["stored"], and an endpoint that
    answers every request with a session token. *)
Definition pending_flow : NintendoAccountSessionAuthorisation :=
  {| client_id := "71b963c1b7b6d119";
     scope := "openid user";
     authorise_url := "https://accounts.nintendo.com/connect/1.0.0/authorize?state=stored";
     auth_state := "stored";
     auth_verifier := "verifier";
     redirect_uri := "npf71b963c1b7b6d119://auth";
     result := None |}.

Definition completed_flow : NintendoAccountSessionAuthorisation :=
  set_result pending_flow {| result_state := StateString "stored"; result_code := "code" |}.

Definition granting : Network :=
  fun _ => {| resp_status := 200; resp_json := SessionTokenJson "session" "code" |}.

End Na.

(** ** The Coral client: [CoralApi.fetch], [getWebServiceToken] and the
    shared renewal promise

    The client runs on the JavaScript event loop: between two [await]s a
    call runs without interruption, and at an [await] any other call may run.
    A call is therefore a task that stands at one of its [await]s, each
    segment between two [await]s is a function on the state of the client,
    and an execution is a list of events of the environment (calls being
    made, responses arriving, promises settling), taken in any order.

    The injected callback [onTokenExpired] belongs to the environment: it
    acts on the client through what its promise settles to, and through
    nothing else.  The attempt counters are integers. *)
Module Coral.
Local Open Scope string_scope.

(** Modelled from the spec: the status values of coral-types.js, which is
    not among the sources.  The client compares a status with [OK] and with
    [TOKEN_EXPIRED] only, "a dedicated status value" that is "distinct from
    generic errors". *)
Inductive CoralStatus :=
| OK
| TOKEN_EXPIRED
| OtherStatus (code : Z).

(** [CoralResponse<T>]: [errorMessage] is [Some] when the property is in
    the object. *)
Record CoralResponse := {
  status : CoralStatus;
  errorMessage : option string;
  result : string;
  correlationId : string;
}.

(** A response: its status, [response.text()], and [response.json()] ([None]
    when the body is not JSON and the promise rejects). *)
Record Response := {
  resp_status : Z;
  resp_text : string;
  resp_json : option CoralResponse;
}.

(** Modelled from the spec: [ErrorResponse] of util.js, which is not among
    the sources: an error that "always wraps the original transport
    response" and keeps the body it was built from as [data].  Every other
    thrown value is an [OtherError]. *)
Inductive JsError :=
| ErrorResponse (message : string) (response : Response) (data : string + CoralResponse)
| OtherError (name : string).

(** [err instanceof ErrorResponse && err.data.status]. *)
Definition error_status (err : JsError) : option CoralStatus :=
  match err with
  | ErrorResponse _ _ (inr data) => Some (status data)
  | _ => None
  end.

Definition is_TOKEN_EXPIRED (s : option CoralStatus) : bool :=
  match s with Some TOKEN_EXPIRED => true | _ => false end.

Definition is_OK (s : CoralStatus) : bool :=
  match s with OK => true | _ => false end.

(** [Result<T>]: the result with the response, the envelope and the
    correlation id defined on it. *)
Record Result := {
  value : string;
  ResponseSymbol : Response;
  ResponseDataSymbol : CoralResponse;
  CorrelationIdSymbol : string;
}.

Inductive Outcome :=
| Returned (r : Result)
| Thrown (e : JsError).

(** [CoralAuthData]: the client reads [data.credential.accessToken] only. *)
Record Credential := { accessToken : string; expiresIn : Z }.
Record CoralAuthData := { credential : Credential }.

(** What the promise of [onTokenExpired] settles to: [CoralAuthData | void],
    or a rejection. *)
Inductive Settlement :=
| Fulfilled (data : option CoralAuthData)
| Rejected (e : JsError).

(** The promise stored in [_renewToken] is
    [onTokenExpired(...).then(setToken).finally(clear)]: the callback is
    pending, then the [then] handler has run (or was skipped, on a
    rejection), then the [finally] handler has run and the promise is settled
    for those that await it. *)
Inductive PromiseState :=
| CallbackPending
| ThenRan (s : Settlement)
| FinallyRan (s : Settlement).

(** The injected callback is a value of the environment; its behaviour is
    the settlement the environment gives each of its promises. *)
Inductive Callback := Injected.

(** The fields of [CoralApi] that the renewal reads and writes;
    [_renewToken] holds the identity of a promise, its index in [promises]. *)
Record CoralApi := {
  token : string;
  onTokenExpired : option Callback;
  _renewToken : option nat;
}.

Definition setTokenWithSavedToken (this : CoralApi) (data : CoralAuthData) : CoralApi :=
  {| token := accessToken (credential data);
     onTokenExpired := onTokenExpired this;
     _renewToken := _renewToken this |}.

Definition has_onTokenExpired (this : CoralApi) : bool :=
  match onTokenExpired this with Some _ => true | None => false end.

Definition set_renewToken (this : CoralApi) (p : option nat) : CoralApi :=
  {| token := token this;
     onTokenExpired := onTokenExpired this;
     _renewToken := p |}.

(** The arguments of [fetch]. *)
Inductive JsonValue :=
| JNumber (n : Z)
| JString (s : string).

Inductive Body :=
| RawBody (s : string)
| CallBody (parameter : list (string * JsonValue)) (requestId : string).

Record FetchCall := {
  url : string;
  method : string;
  body : option Body;
  headers : list (string * string);
  autoRenewToken : bool;
  attempt : Z;
}.

Definition next_attempt (c : FetchCall) : FetchCall :=
  {| url := url c;
     method := method c;
     body := body c;
     headers := headers c;
     autoRenewToken := autoRenewToken c;
     attempt := attempt c + 1 |}.

(** [call(url, parameter, _autoRenewToken)], with the uuid it draws. *)
Definition call (url : string) (parameter : list (string * JsonValue)) (uuid : string)
    (autoRenewToken : bool) : FetchCall :=
  {| url := url;
     method := "POST";
     body := Some (CallBody parameter uuid);
     headers := [];
     autoRenewToken := autoRenewToken;
     attempt := 0 |}.

(** [f(token, hash_method, ...)] settles to an [FResult]. *)
Record FResult := { f : string; request_id : string; timestamp : Z }.

Definition WebServiceTokenParameter (id : Z) (data : FResult) : list (string * JsonValue) :=
  [ ("id", JNumber id);
    ("registrationToken", JString "");
    ("f", JString (f data));
    ("requestId", JString (request_id data));
    ("timestamp", JNumber (timestamp data)) ].

(** Where a call of [fetch] stands: at [await this._renewToken] (line 61)
    or at the [await]s of the request and of its body (lines 65 to 84, which
    read no field of the client in between). *)
Inductive FetchPoint :=
| AwaitRenewToken (p : nat)
| AwaitResponse.

(** A task: a call of [fetch], or a call of [getWebServiceToken] at
    [await this._renewToken] (line 211), at [await f(...)] (line 213) or at
    [await this.call(...)] (line 228), or a call that has settled. *)
Inductive Task :=
| Fetch (c : FetchCall) (point : FetchPoint)
| WebServiceTokenRenew (id attempt : Z) (awaited : option nat)
| WebServiceTokenF (id attempt : Z)
| WebServiceTokenCall (id attempt : Z) (c : FetchCall) (point : FetchPoint)
| Done (o : Outcome).

(** The history of an execution, most recent event first. *)
Inductive Event :=
| Request (caller : nat) (c : FetchCall) (bearer : string)
| DeviceProof (caller : nat) (attempt : Z) (tok : string)
| Expired (caller : nat) (pending : option nat)
| Invoked (p : nat) (tok : string)
| Awaits (caller : nat) (p : nat)
| Cleared (p : nat) (tok : string).

Record World := {
  api : CoralApi;
  promises : list PromiseState;
  tasks : list Task;
  log : list Event;
}.

Definition init (tok : string) (callback : option Callback) : World :=
  {| api := {| token := tok; onTokenExpired := callback; _renewToken := None |};
     promises := [];
     tasks := [];
     log := [] |}.

Definition emit (e : Event) (w : World) : World :=
  {| api := api w; promises := promises w; tasks := tasks w; log := e :: log w |}.

Definition set_task (i : nat) (t : Task) (w : World) : World :=
  {| api := api w; promises := promises w; tasks := <[i := t]> (tasks w); log := log w |}.

Definition spawn (t : Task) (w : World) : World :=
  {| api := api w; promises := promises w; tasks := tasks w ++ [t]; log := log w |}.

(** [this._renewToken = this._renewToken ?? this.onTokenExpired.call(null,
    data, response).then(...).finally(...)] (lines 88 to 92, 233 to 237). *)
Definition renew (w : World) : World :=
  match _renewToken (api w) with
  | Some _ => w
  | None =>
      let p := length (promises w) in
      {| api := set_renewToken (api w) (Some p);
         promises := promises w ++ [CallbackPending];
         tasks := tasks w;
         log := Invoked p (token (api w)) :: log w |}
  end.

(** *** The segments of [fetch] *)

(** What a segment leaves its call at. *)
Inductive Next :=
| Suspend (c : FetchCall) (point : FetchPoint)
| Finish (o : Outcome).

(** Lines 64 to 76: the request is sent with [this.token] as it is now. *)
Definition fetch_send (me : nat) (c : FetchCall) (w : World) : World * Next :=
  (emit (Request me c (token (api w))) w, Suspend c AwaitResponse).

(** Lines 60 to 62, from the entry of [fetch] to its first [await]. *)
Definition fetch_enter (me : nat) (c : FetchCall) (w : World) : World * Next :=
  match _renewToken (api w) with
  | Some p =>
      if autoRenewToken c then (emit (Awaits me p) w, Suspend c (AwaitRenewToken p))
      else fetch_send me c w
  | None => fetch_send me c w
  end.

(** Line 61 resumes: a rejection of the awaited promise is thrown. *)
Definition fetch_renewed (me : nat) (c : FetchCall) (s : Settlement) (w : World)
    : World * Next :=
  match s with
  | Rejected e => (w, Finish (Thrown e))
  | Fulfilled _ => fetch_send me c w
  end.

(** Lines 78 to 113, once the request has settled and its body is read. *)
Definition fetch_response (me : nat) (c : FetchCall) (r : JsError + Response) (w : World)
    : World * Next :=
  match r with
  | inl e => (w, Finish (Thrown e))
  | inr response =>
      if negb (resp_status response =? 200)%Z then
        (w, Finish (Thrown (ErrorResponse "[znc] Non-200 status code" response
                              (inl (resp_text response)))))
      else
        match resp_json response with
        | None => (w, Finish (Thrown (OtherError "SyntaxError")))
        | Some data =>
            if is_TOKEN_EXPIRED (Some (status data)) && autoRenewToken c
               && (attempt c =? 0)%Z && has_onTokenExpired (api w)
            then
              let w := emit (Expired me (_renewToken (api w))) w in
              let w := renew w in
              fetch_enter me (next_attempt c) w
            else
              match errorMessage data with
              | Some message =>
                  (w, Finish (Thrown (ErrorResponse ("[znc] " ++ message) response (inr data))))
              | None =>
                  if negb (is_OK (status data)) then
                    (w, Finish (Thrown (ErrorResponse "[znc] Unknown error" response
                                          (inr data))))
                  else
                    (w, Finish (Returned {| value := result data;
                                            ResponseSymbol := response;
                                            ResponseDataSymbol := data;
                                            CorrelationIdSymbol := correlationId data |}))
              end
        end
  end.

(** *** The segments of [getWebServiceToken] *)

(** Line 211: [await this._renewToken], whatever it holds. *)
Definition getWebServiceToken_enter (me : nat) (id attempt : Z) (w : World) : World * Task :=
  match _renewToken (api w) with
  | Some p => (emit (Awaits me p) w, WebServiceTokenRenew id attempt (Some p))
  | None => (w, WebServiceTokenRenew id attempt None)
  end.

(** Lines 213 to 217: [f] is called with [this.token] as it is now. *)
Definition getWebServiceToken_renewed (me : nat) (id attempt : Z) (s : Settlement)
    (w : World) : World * Task :=
  match s with
  | Rejected e => (w, Done (Thrown e))
  | Fulfilled _ => (emit (DeviceProof me attempt (token (api w))) w, WebServiceTokenF id attempt)
  end.

(** Lines 229 to 242: what [await this.call(...)] gives, and the [catch]. *)
Definition getWebServiceToken_called (me : nat) (id attempt : Z) (r : World * Next)
    : World * Task :=
  let '(w, n) := r in
  match n with
  | Suspend c point => (w, WebServiceTokenCall id attempt c point)
  | Finish (Returned res) => (w, Done (Returned res))
  | Finish (Thrown err) =>
      if is_TOKEN_EXPIRED (error_status err) && (attempt =? 0)%Z
         && has_onTokenExpired (api w)
      then
        let w := emit (Expired me (_renewToken (api w))) w in
        let w := renew w in
        getWebServiceToken_enter me id (attempt + 1) w
      else (w, Done (Thrown err))
  end.

(** Lines 219 to 228, once [f] has settled. *)
Definition getWebServiceToken_f (me : nat) (id attempt : Z) (r : JsError + FResult)
    (uuid : string) (w : World) : World * Task :=
  match r with
  | inl e => (w, Done (Thrown e))
  | inr data =>
      let c := call "/v2/Game/GetWebServiceToken" (WebServiceTokenParameter id data) uuid false in
      getWebServiceToken_called me id attempt (fetch_enter me c w)
  end.

Definition fetch_task (r : World * Next) : World * Task :=
  let '(w, n) := r in
  match n with
  | Suspend c point => (w, Fetch c point)
  | Finish o => (w, Done o)
  end.

(** *** The event loop *)

(** What the environment does: it calls [fetch] or [getWebServiceToken],
    which run up to their first [await]; it lets a caller that awaits a
    settled [_renewToken] go on; it answers a request (with a response, or
    with the error of a failed or timed out request); it settles [f] (and
    gives the uuid that [call] draws next); it settles the promise of
    [onTokenExpired], upon which the [then] handler of line 88 runs; and it
    runs the [finally] handler of line 90, after which the promise stored in
    [_renewToken] is settled for those that await it. *)
Inductive Action :=
| CallFetch (c : FetchCall)
| CallGetWebServiceToken (id attempt : Z)
| RenewTokenSettles (caller : nat)
| ResponseArrives (caller : nat) (r : JsError + Response)
| FSettles (caller : nat) (r : JsError + FResult) (uuid : string)
| CallbackSettles (p : nat) (s : Settlement)
| FinallyRuns (p : nat).

Definition settled (w : World) (p : nat) : option Settlement :=
  match promises w !! p with
  | Some (FinallyRan s) => Some s
  | _ => None
  end.

Definition resume (me : nat) (r : World * Task) : option World :=
  let '(w, t) := r in Some (set_task me t w).

(** One step: [None] when the event cannot happen in this state. *)
Definition step (w : World) (a : Action) : option World :=
  match a with
  | CallFetch c =>
      let '(w, t) := fetch_task (fetch_enter (length (tasks w)) c w) in
      Some (spawn t w)
  | CallGetWebServiceToken id attempt =>
      let '(w, t) := getWebServiceToken_enter (length (tasks w)) id attempt w in
      Some (spawn t w)
  | RenewTokenSettles me =>
      match tasks w !! me with
      | Some (Fetch c (AwaitRenewToken p)) =>
          s ← settled w p; resume me (fetch_task (fetch_renewed me c s w))
      | Some (WebServiceTokenCall id attempt c (AwaitRenewToken p)) =>
          s ← settled w p;
          resume me (getWebServiceToken_called me id attempt (fetch_renewed me c s w))
      | Some (WebServiceTokenRenew id attempt (Some p)) =>
          s ← settled w p; resume me (getWebServiceToken_renewed me id attempt s w)
      | Some (WebServiceTokenRenew id attempt None) =>
          resume me (getWebServiceToken_renewed me id attempt (Fulfilled None) w)
      | _ => None
      end
  | ResponseArrives me r =>
      match tasks w !! me with
      | Some (Fetch c AwaitResponse) => resume me (fetch_task (fetch_response me c r w))
      | Some (WebServiceTokenCall id attempt c AwaitResponse) =>
          resume me (getWebServiceToken_called me id attempt (fetch_response me c r w))
      | _ => None
      end
  | FSettles me r uuid =>
      match tasks w !! me with
      | Some (WebServiceTokenF id attempt) =>
          resume me (getWebServiceToken_f me id attempt r uuid w)
      | _ => None
      end
  | CallbackSettles p s =>
      match promises w !! p with
      | Some CallbackPending =>
          let this :=
            match s with
            | Fulfilled (Some data) => setTokenWithSavedToken (api w) data
            | _ => api w
            end in
          Some {| api := this;
                  promises := <[p := ThenRan s]> (promises w);
                  tasks := tasks w;
                  log := log w |}
      | _ => None
      end
  | FinallyRuns p =>
      match promises w !! p with
      | Some (ThenRan s) =>
          Some {| api := set_renewToken (api w) None;
                  promises := <[p := FinallyRan s]> (promises w);
                  tasks := tasks w;
                  log := Cleared p (token (api w)) :: log w |}
      | _ => None
      end
  end.

Fixpoint run (schedule : list Action) (w : World) : option World :=
  match schedule with
  | [] => Some w
  | a :: rest => w' ← step w a; run rest w'
  end.

(** *** The transitions of a step

    Every step is one of a few moves of one task, or one of the two
    handlers of a renewal promise.  The relation lists them with what each
    requires and emits ([step_trans] below shows that [step] makes no other
    transition). *)

Definition emits (evs : list Event) (w : World) : World :=
  {| api := api w; promises := promises w; tasks := tasks w; log := evs ++ log w |}.

(** The renewal branch: the promise the caller goes on to await, and the
    client once the branch has installed it. *)
Definition target (w : World) : nat :=
  match _renewToken (api w) with
  | Some p => p
  | None => length (promises w)
  end.

Definition renewal_branch (me : nat) (w : World) : World :=
  renew (emit (Expired me (_renewToken (api w))) w).

(** [move w i old new evs]: in [w], caller [i] standing at [old] ([None]
    when the call is being made) goes to [new] and emits [evs]; the client
    and its promises are as they were. *)
Inductive move (w : World) (i : nat) : option Task -> Task -> list Event -> Prop :=
| fetch_awaits c p :
    _renewToken (api w) = Some p -> autoRenewToken c = true ->
    move w i None (Fetch c (AwaitRenewToken p)) [Awaits i p]
| fetch_sends c :
    _renewToken (api w) = None \/ autoRenewToken c = false ->
    move w i None (Fetch c AwaitResponse) [Request i c (token (api w))]
| wst_awaits id a p :
    _renewToken (api w) = Some p ->
    move w i None (WebServiceTokenRenew id a (Some p)) [Awaits i p]
| wst_awaits_null id a :
    _renewToken (api w) = None ->
    move w i None (WebServiceTokenRenew id a None) []
| fetch_rejected c p e :
    settled w p = Some (Rejected e) ->
    move w i (Some (Fetch c (AwaitRenewToken p))) (Done (Thrown e)) []
| fetch_resumes c p d :
    settled w p = Some (Fulfilled d) ->
    move w i (Some (Fetch c (AwaitRenewToken p))) (Fetch c AwaitResponse)
      [Request i c (token (api w))]
| fetch_finishes c o :
    move w i (Some (Fetch c AwaitResponse)) (Done o) []
| wst_rejected id a p e :
    settled w p = Some (Rejected e) ->
    move w i (Some (WebServiceTokenRenew id a (Some p))) (Done (Thrown e)) []
| wst_resumes id a p d :
    settled w p = Some (Fulfilled d) ->
    move w i (Some (WebServiceTokenRenew id a (Some p))) (WebServiceTokenF id a)
      [DeviceProof i a (token (api w))]
| wst_resumes_null id a :
    move w i (Some (WebServiceTokenRenew id a None)) (WebServiceTokenF id a)
      [DeviceProof i a (token (api w))]
| wst_f_fails id a e :
    move w i (Some (WebServiceTokenF id a)) (Done (Thrown e)) []
| wst_sends id a c :
    autoRenewToken c = false -> attempt c = 0%Z ->
    move w i (Some (WebServiceTokenF id a)) (WebServiceTokenCall id a c AwaitResponse)
      [Request i c (token (api w))]
| wst_finishes id a c o :
    move w i (Some (WebServiceTokenCall id a c AwaitResponse)) (Done o) [].

(** [expiry old new p]: [old] takes the renewal branch and goes on to await
    promise [p] at [new], its attempt counter going from 0 to 1. *)
Inductive expiry : Task -> Task -> nat -> Prop :=
| fetch_expired c p :
    autoRenewToken c = true -> attempt c = 0%Z ->
    expiry (Fetch c AwaitResponse) (Fetch (next_attempt c) (AwaitRenewToken p)) p
| wst_expired id c p :
    expiry (WebServiceTokenCall id 0 c AwaitResponse) (WebServiceTokenRenew id 1 (Some p)) p.

Inductive trans (w : World) : World -> Prop :=
| trans_call t evs :
    move w (length (tasks w)) None t evs ->
    trans w (spawn t (emits evs w))
| trans_move i old t evs :
    tasks w !! i = Some old ->
    move w i (Some old) t evs ->
    trans w (set_task i t (emits evs w))
| trans_expired i old t :
    tasks w !! i = Some old ->
    has_onTokenExpired (api w) = true ->
    expiry old t (target w) ->
    trans w (set_task i t (emit (Awaits i (target w)) (renewal_branch i w)))
| trans_then p s :
    promises w !! p = Some CallbackPending ->
    trans w {| api := match s with
                      | Fulfilled (Some data) => setTokenWithSavedToken (api w) data
                      | _ => api w
                      end;
               promises := <[p := ThenRan s]> (promises w);
               tasks := tasks w;
               log := log w |}
| trans_finally p s :
    promises w !! p = Some (ThenRan s) ->
    trans w {| api := set_renewToken (api w) None;
               promises := <[p := FinallyRan s]> (promises w);
               tasks := tasks w;
               log := Cleared p (token (api w)) :: log w |}.

(** The call that [getWebServiceToken] awaits at line 228 is made with
    [_autoRenewToken = false] and the default [_attempt], and has no
    [await] but that of its response. *)
Definition inner_calls (w : World) : Prop :=
  forall i id a c point,
    tasks w !! i = Some (WebServiceTokenCall id a c point) ->
    autoRenewToken c = false /\ attempt c = 0%Z /\ point = AwaitResponse.

(** *** What a history tells *)

(** The number of times [onTokenExpired] was called. *)
Fixpoint invocations (l : list Event) : nat :=
  match l with
  | [] => 0
  | Invoked _ _ :: older => S (invocations older)
  | _ :: older => invocations older
  end.

(** The attempt counters of the requests a caller sent, the last one first. *)
Fixpoint attempts_of (i : nat) (l : list Event) : list Z :=
  match l with
  | [] => []
  | Request j c _ :: older =>
      if (j =? i)%nat then attempt c :: attempts_of i older else attempts_of i older
  | _ :: older => attempts_of i older
  end.

(** The attempt counters with which a caller computed a device proof. *)
Fixpoint proofs_of (i : nat) (l : list Event) : list Z :=
  match l with
  | [] => []
  | DeviceProof j a _ :: older =>
      if (j =? i)%nat then a :: proofs_of i older else proofs_of i older
  | _ :: older => proofs_of i older
  end.

(** The caller has seen its token expire and taken the renewal branch. *)
Fixpoint has_expired (i : nat) (l : list Event) : bool :=
  match l with
  | [] => false
  | Expired j _ :: older => (j =? i)%nat || has_expired i older
  | _ :: older => has_expired i older
  end.

(** The tokens of the retried requests: those a caller sent after it had
    taken the renewal branch. *)
Fixpoint retry_bearers (l : list Event) : list string :=
  match l with
  | [] => []
  | Request i _ t :: older =>
      if has_expired i older then t :: retry_bearers older else retry_bearers older
  | _ :: older => retry_bearers older
  end.

(** The callers that took the renewal branch, each with the [_renewToken]
    it found, the last one first. *)
Fixpoint expirations (l : list Event) : list (nat * option nat) :=
  match l with
  | [] => []
  | Expired i pending :: older => (i, pending) :: expirations older
  | _ :: older => expirations older
  end.



(** The promise a task awaits. *)
Definition awaits (t : Task) : option nat :=
  match t with
  | Fetch _ (AwaitRenewToken p)
  | WebServiceTokenCall _ _ _ (AwaitRenewToken p)
  | WebServiceTokenRenew _ _ (Some p) => Some p
  | _ => None
  end.

(** The callback of promise [p] has failed with [e]. *)
Definition renewal_failed (w : World) (p : nat) (e : JsError) : Prop :=
  promises w !! p = Some (ThenRan (Rejected e))
  \/ promises w !! p = Some (FinallyRan (Rejected e)).

(** *** Invariants of an execution *)

(** A renewal whose [finally] handler has not run yet. *)
Definition unsettled (w : World) (p : nat) : Prop :=
  promises w !! p = Some CallbackPending \/ exists s, promises w !! p = Some (ThenRan s).

Definition awaiting (w : World) (i p : nat) : Prop :=
  exists t, tasks w !! i = Some t /\ awaits t = Some p.

(** [_renewToken] holds a promise exactly while that promise is unsettled:
    at most one renewal is in flight. *)
Definition marker_ok (w : World) : Prop :=
  forall p, _renewToken (api w) = Some p <-> unsettled w p.

(** The history of the renewals: each promise was made by one call of the
    callback; while the callback is pending, and after it has failed, the
    token is the one the callback was called with; a promise is cleared
    exactly when its [finally] handler has run. *)
Record renewals_ok (w : World) : Prop := {
  invoked_bound : forall p t, Invoked p t ∈ log w -> p < length (promises w);
  invoked_all : forall p, p < length (promises w) -> exists t, Invoked p t ∈ log w;
  invoked_count : invocations (log w) = length (promises w);
  token_kept : forall p t, Invoked p t ∈ log w ->
    (promises w !! p = Some CallbackPending
     \/ exists e, promises w !! p = Some (ThenRan (Rejected e))) ->
    token (api w) = t;
  cleared_kept : forall p t e, Invoked p t ∈ log w ->
    promises w !! p = Some (FinallyRan (Rejected e)) -> Cleared p t ∈ log w;
  cleared_ran : forall p t, Cleared p t ∈ log w ->
    exists s, promises w !! p = Some (FinallyRan s);
  ran_cleared : forall p s, promises w !! p = Some (FinallyRan s) ->
    exists t, Cleared p t ∈ log w;
}.

(** What has become of a caller that awaited a promise in state [st]. *)
Definition await_outcome (st : option PromiseState) (waiting : Prop)
    (failed : JsError -> Prop) : Prop :=
  match st with
  | Some (FinallyRan (Fulfilled _)) => True
  | Some (FinallyRan (Rejected e)) => waiting \/ failed e
  | Some _ => waiting
  | None => False
  end.

(** The callers that await a promise: a caller stays at its [await] until
    the promise is settled, and a caller that awaited a promise that was
    rejected has failed with the reason of the rejection. *)
Record awaits_ok (w : World) : Prop := {
  awaiting_logged : forall i t p,
    tasks w !! i = Some t -> awaits t = Some p -> Awaits i p ∈ log w;
  awaits_settled : forall i p, Awaits i p ∈ log w ->
    await_outcome (promises w !! p) (awaiting w i p)
      (fun e => tasks w !! i = Some (Done (Thrown e)));
  expired_awaits : forall i, has_expired i (log w) = true -> exists p, Awaits i p ∈ log w;
}.

(** The requests and device proofs of one caller, by where it stands. *)
Definition history_ok (t : option Task) (i : nat) (l : list Event) : Prop :=
  let reqs := attempts_of i l in
  let proofs := proofs_of i l in
  match t with
  | None =>
      reqs = [] /\ proofs = [] /\ has_expired i l = false /\ forall p, Awaits i p ∉ l
  | Some (Fetch c (AwaitRenewToken _)) =>
      proofs = []
      /\ ((reqs = [] /\ has_expired i l = false)
          \/ (reqs = [0%Z] /\ attempt c = 1%Z /\ has_expired i l = true))
  | Some (Fetch c AwaitResponse) =>
      proofs = []
      /\ ((reqs = [attempt c] /\ has_expired i l = false)
          \/ (reqs = [1%Z; 0%Z] /\ attempt c = 1%Z /\ has_expired i l = true))
  | Some (WebServiceTokenRenew _ a _) =>
      (reqs = [] /\ proofs = [] /\ has_expired i l = false)
      \/ (reqs = [0%Z] /\ proofs = [0%Z] /\ a = 1%Z /\ has_expired i l = true)
  | Some (WebServiceTokenF _ a) =>
      (reqs = [] /\ proofs = [a] /\ has_expired i l = false)
      \/ (reqs = [0%Z] /\ proofs = [1%Z; 0%Z] /\ a = 1%Z /\ has_expired i l = true)
  | Some (WebServiceTokenCall _ a _ _) =>
      (reqs = [0%Z] /\ proofs = [a] /\ has_expired i l = false)
      \/ (reqs = [0%Z; 0%Z] /\ proofs = [1%Z; 0%Z] /\ a = 1%Z /\ has_expired i l = true)
  | Some (Done _) =>
      (proofs = [] /\ (length reqs <= 1 \/ reqs = [1%Z; 0%Z]))
      \/ (reqs = [] /\ length proofs <= 1)
      \/ (reqs = [0%Z] /\ (length proofs = 1 \/ proofs = [1%Z; 0%Z]))
      \/ (reqs = [0%Z; 0%Z] /\ proofs = [1%Z; 0%Z])
  end.

Definition histories_ok (w : World) : Prop :=
  forall i, history_ok (tasks w !! i) i (log w).

(** The events of other callers leave the history of a caller as it is. *)
Definition foreign (j : nat) (e : Event) : Prop :=
  match e with
  | Request i _ _ | DeviceProof i _ _ | Expired i _ | Awaits i _ => i <> j
  | _ => True
  end.

Record consistent (w : World) : Prop := {
  inner_ok : inner_calls w;
  the_marker : marker_ok w;
  the_renewals : renewals_ok w;
  the_awaits : awaits_ok w;
  the_histories : histories_ok w;
}.


(** *** Responses and calls, for the examples *)

Definition envelope (s : CoralStatus) : Response :=
  {| resp_status := 200;
     resp_text := "";
     resp_json := Some {| status := s; errorMessage := None;
                          result := "result"; correlationId := "correlation" |} |}.

Definition get_friends : FetchCall := call "/v3/Friend/List" [] "uuid" true.

Definition renewed (tok : string) : Settlement :=
  Fulfilled (Some {| credential := {| accessToken := tok; expiresIn := 7200 |} |}).

(** The error [fetch] throws for an envelope that is not a success
    (lines 96 to 101). *)
Definition envelope_error (response : Response) (data : CoralResponse) : JsError :=
  match errorMessage data with
  | Some message => ErrorResponse ("[znc] " ++ message) response (inr data)
  | None => ErrorResponse "[znc] Unknown error" response (inr data)
  end.

(** A response whose envelope signals that the token has expired. *)
Definition token_expired (response : Response) (data : CoralResponse) : Prop :=
  resp_status response = 200%Z /\ resp_json response = Some data
  /\ status data = TOKEN_EXPIRED.

(** Two callers whose tokens expire together, and a renewal that succeeds. *)
Definition together : list Action :=
  [ CallFetch get_friends; CallFetch get_friends;
    ResponseArrives 0 (inr (envelope TOKEN_EXPIRED));
    ResponseArrives 1 (inr (envelope TOKEN_EXPIRED));
    CallbackSettles 0 (renewed "T1"); FinallyRuns 0;
    RenewTokenSettles 0; RenewTokenSettles 1 ].

(** Two concurrent callers, the second of which sees its token expire once
    the renewal begun by the first is over. *)
Definition late : list Action :=
  [ CallFetch get_friends; CallFetch get_friends;
    ResponseArrives 0 (inr (envelope TOKEN_EXPIRED));
    CallbackSettles 0 (renewed "T1"); FinallyRuns 0; RenewTokenSettles 0;
    ResponseArrives 1 (inr (envelope TOKEN_EXPIRED));
    CallbackSettles 1 (renewed "T2"); FinallyRuns 1; RenewTokenSettles 1 ].

(** Two callers whose tokens expire together, and a renewal that fails. *)
Definition failing : list Action :=
  [ CallFetch get_friends; CallFetch get_friends;
    ResponseArrives 0 (inr (envelope TOKEN_EXPIRED));
    ResponseArrives 1 (inr (envelope TOKEN_EXPIRED));
    CallbackSettles 0 (Rejected (OtherError "invalid_grant")) ].

(** One caller that has retried after a renewal. *)
Definition retried : list Action :=
  [ CallFetch get_friends;
    ResponseArrives 0 (inr (envelope TOKEN_EXPIRED));
    CallbackSettles 0 (renewed "T1"); FinallyRuns 0; RenewTokenSettles 0 ].

(** [getWebServiceToken] whose first call and whose retry both meet a
    token-expired envelope. *)
Definition device_proof : FResult := {| f := "f"; request_id := "request"; timestamp := 1 |}.

Definition web_service_token_twice : list Action :=
  [ CallGetWebServiceToken 5 0; RenewTokenSettles 0;
    FSettles 0 (inr device_proof) "uuid";
    ResponseArrives 0 (inr (envelope TOKEN_EXPIRED));
    CallbackSettles 0 (renewed "T1"); FinallyRuns 0; RenewTokenSettles 0;
    FSettles 0 (inr device_proof) "uuid";
    ResponseArrives 0 (inr (envelope TOKEN_EXPIRED)) ].

Definition start : World := init "T0" (Some Injected).

Definition after (schedule : list Action) : World :=
  match run schedule start with
  | Some w => w
  | None => start
  end.

End Coral.

(** ** Hexadecimal display of a digest, for the published test vectors *)
Module Hex.

Definition hex_digit (n : N) : ascii :=
  nth (N.to_nat n) (list_ascii_of_string "0123456789abcdef") "0"%char.

Definition hex (bs : list byte) : string :=
  string_of_list_ascii
    (flat_map (fun b => [hex_digit (Byte.to_N b / 16); hex_digit (Byte.to_N b mod 16)]) bs).

End Hex.

(** ** More of what a history of the Coral client tells *)
Module CoralHistory.
Import Coral.

(** The callers that took the renewal branch and found [_renewToken] null:
    those that called [onTokenExpired]. *)
Fixpoint leaders (l : list Event) : nat :=
  match l with
  | [] => 0
  | Expired _ None :: older => S (leaders older)
  | _ :: older => leaders older
  end.

(** The calls of [fetch] behind the requests of a caller, the last first. *)
Fixpoint calls_of (i : nat) (l : list Event) : list FetchCall :=
  match l with
  | [] => []
  | Request j c _ :: older =>
      if (j =? i)%nat then c :: calls_of i older else calls_of i older
  | _ :: older => calls_of i older
  end.



(** A result as [fetch] builds it from a response of status 200 whose
    envelope has the status [OK] and no [errorMessage]. *)
Definition genuine (r : Result) : Prop :=
  resp_status (ResponseSymbol r) = 200%Z
  /\ resp_json (ResponseSymbol r) = Some (ResponseDataSymbol r)
  /\ status (ResponseDataSymbol r) = OK
  /\ errorMessage (ResponseDataSymbol r) = None
  /\ value r = result (ResponseDataSymbol r)
  /\ CorrelationIdSymbol r = correlationId (ResponseDataSymbol r).

(** What the environment has left to do before a caller that awaits promise
    [p] goes on: settle the callback with [s] when it is pending, run the
    [finally] handler, resume the caller. *)
Definition settling (w : World) (i p : nat) (s : Settlement) : list Action :=
  match promises w !! p with
  | Some CallbackPending => [CallbackSettles p s; FinallyRuns p; RenewTokenSettles i]
  | Some (ThenRan _) => [FinallyRuns p; RenewTokenSettles i]
  | _ => [RenewTokenSettles i]
  end.

(** A client without a callback, and callers whose tokens expire. *)
Definition unattended : list Action :=
  [ CallFetch get_friends; CallGetWebServiceToken 5 0; RenewTokenSettles 1;
    FSettles 1 (inr device_proof) "uuid";
    ResponseArrives 0 (inr (envelope TOKEN_EXPIRED));
    ResponseArrives 1 (inr (envelope TOKEN_EXPIRED)) ].

(** The world a schedule leads to from [w0] ([w0] itself when the schedule
    cannot run). *)
Definition after_from (w0 : World) (schedule : list Action) : World :=
  match run schedule w0 with
  | Some w => w
  | None => w0
  end.

(** A call as [getToken] makes it (line 263), through [call] and without
    renewal, while a renewal is pending. *)
Definition get_token_call : FetchCall := call "/v3/Account/GetToken" [] "uuid" false.

Definition renewing : list Action :=
  [ CallFetch get_friends;
    ResponseArrives 0 (inr (envelope TOKEN_EXPIRED));
    CallFetch get_token_call ].

(** A first call and its retry: the call again, its attempt counter one
    more. *)
Definition retry_of (c0 c : FetchCall) : Prop :=
  c = next_attempt c0 /\ attempt c0 = 0%Z /\ autoRenewToken c0 = true.

(** The calls behind the requests of a caller of [fetch], by where it
    stands. *)
Definition requests_ok (t : option Task) (l : list FetchCall) : Prop :=
  match t with
  | None => l = []
  | Some (Fetch c (AwaitRenewToken _)) =>
      l = [] \/ exists c0, retry_of c0 c /\ l = [c0]
  | Some (Fetch c AwaitResponse) =>
      l = [c] \/ exists c0, retry_of c0 c /\ l = [c; c0]
  | Some (Done _) =>
      l = [] \/ exists c0, l = [c0] \/ (exists c, retry_of c0 c /\ l = [c; c0])
  | Some (WebServiceTokenRenew _ _ _) => l = []
  | Some (WebServiceTokenF _ _) | Some (WebServiceTokenCall _ _ _ _) => False
  end.

(** One caller whose retry after a renewal is answered. *)
Definition answered : list Action :=
  (retried ++ [ResponseArrives 0 (inr (envelope OK))])%list.

End CoralHistory.

(** ** [getUserByFriendCode]: the friend code and its hash

    The two patterns of coral.ts (lines 22 and 23) are sequences of
    character classes between [^] and [$].  Neither has a flag: [$] matches
    at the end of the input only, and [test] keeps no state.  A string is
    read as its bytes: a code unit beyond ASCII is in none of the classes,
    nor is any byte of its encoding. *)
Module FriendCode.
Import Coral.
Local Open Scope string_scope.

(** [\d], [-] and [[A-Za-z0-9]]. *)
Inductive Atom := Digit | Hyphen | Alnum.

Definition between (lo hi : nat) (c : ascii) : bool :=
  (lo <=? nat_of_ascii c)%nat && (nat_of_ascii c <=? hi)%nat.

Definition digit (c : ascii) : bool := between 48 57 c.

Definition alnum (c : ascii) : bool := between 65 90 c || between 97 122 c || digit c.

Definition accepts (a : Atom) (c : ascii) : bool :=
  match a with
  | Digit => digit c
  | Hyphen => Ascii.eqb c "-"
  | Alnum => alnum c
  end.

(** [/^a1 ... an$/.test(s)]. *)
Fixpoint test (pattern : list Atom) (s : string) : bool :=
  match pattern, s with
  | [], EmptyString => true
  | a :: pattern, String c s => accepts a c && test pattern s
  | _, _ => false
  end.

(** [/^\d{4}-\d{4}-\d{4}$/] and [/^[A-Za-z0-9]{10}$/]. *)
Definition FRIEND_CODE : list Atom :=
  (repeat Digit 4 ++ [Hyphen] ++ repeat Digit 4 ++ [Hyphen] ++ repeat Digit 4)%list.

Definition FRIEND_CODE_HASH : list Atom := repeat Alnum 10.

(** What the call settles to before any request: an [Error], or the call
    of [fetch] that [this.call] makes. *)
Inductive JsError := Error (message : string).

(** A string in a condition: the empty string is false. *)
Definition truthy (s : string) : bool :=
  match s with EmptyString => false | _ => true end.

(** [getUserByFriendCode(friend_code, hash?)] (lines 168 to 178), with the
    uuid that [call] draws; [hash] is [None] when it is left out. *)
Definition getUserByFriendCode (friend_code : string) (hash : option string) (uuid : string)
    : JsError + FetchCall :=
  if negb (test FRIEND_CODE friend_code) then inl (Error "Invalid friend code")
  else
    match hash with
    | Some h =>
        if truthy h && negb (test FRIEND_CODE_HASH h) then
          inl (Error "Invalid friend code hash")
        else if truthy h then
          inr (call "/v3/Friend/GetUserByFriendCodeHash"
                 [("friendCode", JString friend_code); ("friendCodeHash", JString h)]
                 uuid true)
        else
          inr (call "/v3/Friend/GetUserByFriendCode"
                 [("friendCode", JString friend_code)] uuid true)
    | None =>
        inr (call "/v3/Friend/GetUserByFriendCode"
               [("friendCode", JString friend_code)] uuid true)
    end.

(** The parameter of a call made through [this.call]. *)
Definition parameter_of (c : FetchCall) : list (string * JsonValue) :=
  match body c with
  | Some (CallBody parameter _) => parameter
  | _ => []
  end.

(** A hash that is given: neither left out nor empty. *)
Definition given (hash : option string) : option string :=
  match hash with
  | Some h => if truthy h then Some h else None
  | None => None
  end.

(** A friend code and a hash, for the examples. *)
Definition sample_code : string := "1234-5678-9012".
Definition sample_hash : string := "AbCdE12345".
Definition sample_uuid : string := "6f1c2b1e-0c7a-4f0e-9a55-2d1b0c6e8a11".

End FriendCode.

(** ** Logging in and renewing: [getNintendoAccountToken],
    [getNintendoAccountUser], [loginWithSessionToken], [getToken],
    [renewToken] and the two constructors

    Each of these functions is a sequence of [await]s on the environment:
    requests, the device proof [f], the remote configuration.  A call is
    followed on its own, from its first line to the value its promise
    settles to, with the effects it has on the environment in the order it
    has them.  The environment answers each effect; the functions that are
    not among the sources ([f], the remote configuration, [uuidgen],
    [getAdditionalUserAgents]) belong to it. *)
Module Login.
Local Open Scope string_scope.

(** Lines 14 to 20 of coral.ts. *)
Definition ZNCA_PLATFORM : string := "Android".
Definition ZNCA_PLATFORM_VERSION : string := "8.0.0".
Definition ZNCA_VERSION : string := "2.2.0".
Definition ZNCA_USER_AGENT : string :=
  "com.nintendo.znca/" ++ ZNCA_VERSION ++ "(" ++ ZNCA_PLATFORM ++ "/"
    ++ ZNCA_PLATFORM_VERSION ++ ")".
Definition ZNC_URL : string := "https://api-lp1.znc.srv.nintendo.net".
Definition ZNCA_CLIENT_ID : string := "71b963c1b7b6d119".

(** *** Requests and responses *)

(** The object given to [JSON.stringify]: its fields, or the one field
    [parameter] that holds them. *)
Inductive Body :=
| FieldsBody (fields : list (string * Coral.JsonValue))
| ParameterBody (parameter : list (string * Coral.JsonValue)).

Record Request := {
  req_url : string;
  req_method : string;
  req_headers : list (string * string);
  req_body : option Body;
}.

(** The fields of [NintendoAccountToken] and of [NintendoAccountUser] that
    are read; [access_token] is optional. *)
Record NintendoAccountToken := {
  id_token : string;
  access_token : option string;
}.

Record NintendoAccountUser := {
  birthday : string;
  country : string;
  language : string;
}.

(** The decoded body of a response of the token endpoint,
    [NintendoAccountToken | NintendoAccountAuthError | NintendoAccountError],
    and of the user endpoint, [NintendoAccountUser | NintendoAccountError]. *)
Inductive TokenJson :=
| TokenOk (t : NintendoAccountToken)
| TokenAuthError (error : string) (error_description : option string)
| TokenError (errorCode detail : string).

Inductive UserJson :=
| UserOk (u : NintendoAccountUser)
| UserError (errorCode detail : string).

(** A response: its status and [response.json()], [None] when the body is
    not JSON and the promise rejects. *)
Record Response (J : Type) := {
  resp_status : Z;
  resp_json : option J;
}.
Arguments resp_status {J} _.
Arguments resp_json {J} _.

Inductive NaResponse :=
| OfToken (response : Response TokenJson)
| OfUser (response : Response UserJson).

(** What a promise rejects with.  Modelled from the spec: [fromResponse] of
    util.js, which is not among the sources, makes the error of a response
    that is not a success, "carrying the original response".  [Failure] is
    any other rejection: of a request that failed or timed out, of a body
    that is not JSON, of [f]. *)
Inductive JsError :=
| Error (message : string)
| NintendoAccountAuthErrorResponse (message : string) (response : Response TokenJson)
| NintendoAccountErrorResponse (message : string) (response : NaResponse)
| CoralError (e : Coral.JsError)
| Failure (reason : string).

(** [HashMethod] of f.js, by the two members that are used. *)
Inductive HashMethod := CORAL | WEB_SERVICE.

Record FOptions := {
  platform : string;
  version : string;
  useragent_option : option string;
}.

(** [default.coral] of the remote configuration. *)
Record Config := { config_znca_version : string }.

(** The effects of a call, and the environment that answers them. *)
Inductive Effect :=
| Fetched (request : Request)
| Proved (token : string) (hash_method : HashMethod) (options : FOptions)
| Called (c : Coral.FetchCall) (bearer : string) (product_version user_agent : string).

Record Env := {
  remote_config : option Config;
  token_endpoint : Request -> JsError + Response TokenJson;
  user_endpoint : Request -> JsError + Response UserJson;
  login_endpoint : Request -> JsError + Coral.Response;
  coral_endpoint : Coral.FetchCall -> string -> JsError + Coral.Response;
  f : string -> HashMethod -> FOptions -> JsError + Coral.FResult;
  uuidgen : string;
  getAdditionalUserAgents : option string;
}.

(** *** A call: the effects so far (the last one first) and what it settles
    to *)
Definition M (A : Type) : Type := list Effect -> (JsError + A) * list Effect.

Definition ret {A} (a : A) : M A := fun trace => (inr a, trace).

Definition throw {A} (e : JsError) : M A := fun trace => (inl e, trace).

Definition bind {A B} (m : M A) (k : A -> M B) : M B :=
  fun trace =>
    match m trace with
    | (inr a, trace) => k a trace
    | (inl e, trace) => (inl e, trace)
    end.

(** [await] of an effect that the environment answers with [r]. *)
Definition await {A} (e : Effect) (r : JsError + A) : M A :=
  fun trace => (r, e :: trace).

Notation "'let*' x := m 'in' k" := (bind m (fun x => k))
  (at level 10, x name, m at level 100, k at level 200).

(** [await response.json()]. *)
Definition json {J} (response : Response J) : M J :=
  match resp_json response with
  | Some data => ret data
  | None => throw (Failure "SyntaxError")
  end.

(** *** na.ts *)

Definition token_request (token client_id : string) : Request :=
  {| req_url := "https://accounts.nintendo.com/connect/1.0.0/api/token";
     req_method := "POST";
     req_headers :=
       [ ("Content-Type", "application/json");
         ("Accept", "application/json");
         ("User-Agent", "Dalvik/2.1.0 (Linux; U; Android 8.0.0)") ];
     req_body :=
       Some (FieldsBody
               [ ("client_id", Coral.JString client_id);
                 ("session_token", Coral.JString token);
                 ("grant_type",
                  Coral.JString "urn:ietf:params:oauth:grant-type:jwt-bearer-session-token") ])
  |}.

(** [getNintendoAccountToken(token, client_id)] (lines 166 to 202). *)
Definition getNintendoAccountToken (env : Env) (token client_id : string)
    : M NintendoAccountToken :=
  let request := token_request token client_id in
  let* response := await (Fetched request) (token_endpoint env request) in
  if negb (resp_status response =? 200)%Z then
    throw (NintendoAccountAuthErrorResponse "[na] Non-200 status code" response)
  else
    let* nintendoAccountToken := json response in
    match nintendoAccountToken with
    | TokenAuthError error error_description =>
        throw (NintendoAccountAuthErrorResponse
                 ("[na] " ++ match error_description with Some d => d | None => error end)
                 response)
    | TokenError _ detail =>
        throw (NintendoAccountErrorResponse ("[na] " ++ detail) (OfToken response))
    | TokenOk t => ret t
    end.

(** ['Bearer ' + token.access_token!]: the assertion has no effect when the
    program runs, and a token without the field gives the string
    [undefined]. *)
Definition bearer (token : NintendoAccountToken) : string :=
  "Bearer " ++ match access_token token with Some a => a | None => "undefined" end.

Definition user_request (token : NintendoAccountToken) : Request :=
  {| req_url := "https://api.accounts.nintendo.com/2.0.0/users/me";
     req_method := "GET";
     req_headers :=
       [ ("Accept-Language", "en-GB");
         ("User-Agent", "NASDKAPI; Android");
         ("Content-Type", "application/json");
         ("Accept", "application/json");
         ("Authorization", bearer token) ];
     req_body := None |}.

(** [getNintendoAccountUser(token)] (lines 204 to 232). *)
Definition getNintendoAccountUser (env : Env) (token : NintendoAccountToken)
    : M NintendoAccountUser :=
  let request := user_request token in
  let* response := await (Fetched request) (user_endpoint env request) in
  if negb (resp_status response =? 200)%Z then
    throw (NintendoAccountErrorResponse "[na] Non-200 status code" (OfUser response))
  else
    let* user := json response in
    match user with
    | UserError _ detail =>
        throw (NintendoAccountErrorResponse ("[na] " ++ detail) (OfUser response))
    | UserOk u => ret u
    end.

(** *** coral.ts *)

(** The fields of the client that these functions read and write. *)
Record CoralApi := {
  token : string;
  useragent : option string;
  znca_version : string;
  znca_useragent : string;
}.

Section Result.
(** [webApiServerCredential] of a result of the login or the token
    endpoint, which the Coral client holds undecoded. *)
Variable webApiServerCredential : string -> Coral.Credential.

Record CoralAuthData := {
  nintendoAccountToken : NintendoAccountToken;
  user : NintendoAccountUser;
  fdata : Coral.FResult;
  nsoAccount : string;
  credential : Coral.Credential;
  data_znca_version : string;
  data_znca_useragent : string;
}.

(** [PartialCoralAuthData]. *)
Record PartialCoralAuthData := {
  partial_nintendoAccountToken : NintendoAccountToken;
  partial_f : Coral.FResult;
  partial_nsoAccount : string;
  partial_credential : Coral.Credential;
}.

(** [fetch] with [_autoRenewToken = false], from the response on (lines 78
    to 113): the renewal branch of line 86 is not taken. *)
Definition fetch_unrenewed (response : Coral.Response) : Coral.Outcome :=
  if negb (Coral.resp_status response =? 200)%Z then
    Coral.Thrown (Coral.ErrorResponse "[znc] Non-200 status code" response
                    (inl (Coral.resp_text response)))
  else
    match Coral.resp_json response with
    | None => Coral.Thrown (Coral.OtherError "SyntaxError")
    | Some data =>
        match Coral.errorMessage data with
        | Some message =>
            Coral.Thrown (Coral.ErrorResponse ("[znc] " ++ message) response (inr data))
        | None =>
            if negb (Coral.is_OK (Coral.status data)) then
              Coral.Thrown (Coral.ErrorResponse "[znc] Unknown error" response (inr data))
            else
              Coral.Returned {| Coral.value := Coral.result data;
                                Coral.ResponseSymbol := response;
                                Coral.ResponseDataSymbol := data;
                                Coral.CorrelationIdSymbol := Coral.correlationId data |}
        end
    end.

(** [this.call(url, parameter, false)] (lines 116 to 126), the request
    being sent with [this.token] and the versions of the client. *)
Definition call_unrenewed (env : Env) (this : CoralApi) (url : string)
    (parameter : list (string * Coral.JsonValue)) : M Coral.Result :=
  let c := Coral.call url parameter (uuidgen env) false in
  let* response := await (Called c (token this) (znca_version this) (znca_useragent this))
                (coral_endpoint env c (token this)) in
  match fetch_unrenewed response with
  | Coral.Returned result => ret result
  | Coral.Thrown e => throw (CoralError e)
  end.

Definition AccountTokenParameter (user : NintendoAccountUser) (fdata : Coral.FResult)
    (nintendoAccountToken : NintendoAccountToken) : list (string * Coral.JsonValue) :=
  [ ("naBirthday", Coral.JString (birthday user));
    ("timestamp", Coral.JNumber (Coral.timestamp fdata));
    ("f", Coral.JString (Coral.f fdata));
    ("requestId", Coral.JString (Coral.request_id fdata));
    ("naIdToken", Coral.JString (id_token nintendoAccountToken)) ].

Definition this_useragent (env : Env) (this : CoralApi) : option string :=
  match useragent this with
  | Some u => Some u
  | None => getAdditionalUserAgents env
  end.

(** [getToken(token, user)] (lines 245 to 272). *)
Definition getToken (env : Env) (this : CoralApi) (session_token : string)
    (user : NintendoAccountUser) : M PartialCoralAuthData :=
  let* nintendoAccountToken := getNintendoAccountToken env session_token ZNCA_CLIENT_ID in
  let options := {| platform := ZNCA_PLATFORM;
                    version := znca_version this;
                    useragent_option := this_useragent env this |} in
  let* fdata := await (Proved (id_token nintendoAccountToken) CORAL options)
             (f env (id_token nintendoAccountToken) CORAL options) in
  let req := AccountTokenParameter user fdata nintendoAccountToken in
  let* data := call_unrenewed env this "/v3/Account/GetToken" req in
  ret {| partial_nintendoAccountToken := nintendoAccountToken;
         partial_f := fdata;
         partial_nsoAccount := Coral.value data;
         partial_credential := webApiServerCredential (Coral.value data) |}.

(** [setTokenWithSavedToken(data)] (lines 280 to 283). *)
Definition setTokenWithSavedToken (this : CoralApi) (credential : Coral.Credential)
    : CoralApi :=
  {| token := Coral.accessToken credential;
     useragent := useragent this;
     znca_version := znca_version this;
     znca_useragent := znca_useragent this |}.

(** [renewToken(token, user)] (lines 274 to 278): the client afterwards,
    and what the call settles to. *)
Definition renewToken (env : Env) (this : CoralApi) (session_token : string)
    (user : NintendoAccountUser) (trace : list Effect)
    : CoralApi * ((JsError + PartialCoralAuthData) * list Effect) :=
  match getToken env this session_token user trace with
  | (inr data, trace) =>
      (setTokenWithSavedToken this (partial_credential data), (inr data, trace))
  | (inl e, trace) => (this, (inl e, trace))
  end.

Definition AccountLoginParameter (nintendoAccountToken : NintendoAccountToken)
    (user : NintendoAccountUser) (fdata : Coral.FResult) : list (string * Coral.JsonValue) :=
  [ ("naIdToken", Coral.JString (id_token nintendoAccountToken));
    ("naBirthday", Coral.JString (birthday user));
    ("naCountry", Coral.JString (country user));
    ("language", Coral.JString (language user));
    ("timestamp", Coral.JNumber (Coral.timestamp fdata));
    ("requestId", Coral.JString (Coral.request_id fdata));
    ("f", Coral.JString (Coral.f fdata)) ].

Definition login_useragent (config : Config) : string :=
  "com.nintendo.znca/" ++ config_znca_version config ++ "(" ++ ZNCA_PLATFORM ++ "/"
    ++ ZNCA_PLATFORM_VERSION ++ ")".

Definition login_request (config : Config) (parameter : list (string * Coral.JsonValue))
    : Request :=
  {| req_url := ZNC_URL ++ "/v3/Account/Login";
     req_method := "POST";
     req_headers :=
       [ ("X-Platform", ZNCA_PLATFORM);
         ("X-ProductVersion", config_znca_version config);
         ("Content-Type", "application/json; charset=utf-8");
         ("User-Agent", login_useragent config) ];
     req_body := Some (ParameterBody parameter) |}.

(** [loginWithSessionToken(token, useragent)] (lines 299 to 370);
    [useragent] is the argument, or what [getAdditionalUserAgents] gives
    when it is left out. *)
Definition loginWithSessionToken (env : Env) (session_token : string)
    (useragent : option string) : M CoralAuthData :=
  match remote_config env with
  | None => throw (Error "Remote configuration prevents Coral authentication")
  | Some config =>
      let znca_useragent := login_useragent config in
      let* nintendoAccountToken := getNintendoAccountToken env session_token ZNCA_CLIENT_ID in
      let* user := getNintendoAccountUser env nintendoAccountToken in
      let options := {| platform := ZNCA_PLATFORM;
                        version := config_znca_version config;
                        useragent_option := useragent |} in
      let* fdata := await (Proved (id_token nintendoAccountToken) CORAL options)
                 (f env (id_token nintendoAccountToken) CORAL options) in
      let parameter := AccountLoginParameter nintendoAccountToken user fdata in
      let request := login_request config parameter in
      let* response := await (Fetched request) (login_endpoint env request) in
      if negb (Coral.resp_status response =? 200)%Z then
        throw (CoralError (Coral.ErrorResponse "[znc] Non-200 status code" response
                             (inl (Coral.resp_text response))))
      else
        match Coral.resp_json response with
        | None => throw (Failure "SyntaxError")
        | Some data =>
            match Coral.errorMessage data with
            | Some message =>
                throw (CoralError (Coral.ErrorResponse ("[znc] " ++ message) response
                                     (inr data)))
            | None =>
                if negb (Coral.is_OK (Coral.status data)) then
                  throw (CoralError (Coral.ErrorResponse "[znc] Unknown error" response
                                       (inr data)))
                else
                  ret {| nintendoAccountToken := nintendoAccountToken;
                         user := user;
                         fdata := fdata;
                         nsoAccount := Coral.result data;
                         credential := webApiServerCredential (Coral.result data);
                         data_znca_version := config_znca_version config;
                         data_znca_useragent := znca_useragent |}
            end
        end
  end.

(** [createWithSavedToken(data, useragent)] (lines 290 to 297). *)
Definition createWithSavedToken (data : CoralAuthData) (useragent : option string)
    : CoralApi :=
  {| token := Coral.accessToken (credential data);
     useragent := useragent;
     znca_version := data_znca_version data;
     znca_useragent := data_znca_useragent data |}.

(** [createWithSessionToken(token, useragent)] (lines 285 to 288). *)
Definition createWithSessionToken (env : Env) (session_token : string)
    (useragent : option string) : M (CoralApi * CoralAuthData) :=
  let* data := loginWithSessionToken env session_token useragent in
  ret (createWithSavedToken data useragent, data).

(** What [getToken] may do: the token request, the device proof for Coral
    with the version of the client, and the call of the token endpoint of
    Coral, made with the token of the client and without renewal. *)
Definition renewal_effect (this : CoralApi) (session_token : string) (e : Effect) : Prop :=
  match e with
  | Fetched request => request = token_request session_token ZNCA_CLIENT_ID
  | Proved _ hash_method options =>
      hash_method = CORAL /\ version options = znca_version this
  | Called c b v _ =>
      Coral.url c = "/v3/Account/GetToken" /\ Coral.autoRenewToken c = false
      /\ Coral.attempt c = 0%Z /\ b = token this /\ v = znca_version this
  end.

(** What a login may do: the three requests, and the device proof for
    Coral with the version of the remote configuration.  It makes no call
    through a client. *)
Definition login_effect (env : Env) (session_token : string) (e : Effect) : Prop :=
  match e with
  | Fetched request =>
      request = token_request session_token ZNCA_CLIENT_ID
      \/ (exists t, request = user_request t)
      \/ (exists config parameter,
            remote_config env = Some config /\ request = login_request config parameter)
  | Proved _ hash_method options =>
      hash_method = CORAL
      /\ exists config, remote_config env = Some config
                        /\ version options = config_znca_version config
  | Called _ _ _ _ => False
  end.

End Result.

(** *** An environment in which every step succeeds, for the examples *)

Definition credential_of (result : string) : Coral.Credential :=
  {| Coral.accessToken := result; Coral.expiresIn := 7200 |}.

Definition granted_token : NintendoAccountToken :=
  {| id_token := "id-token"; access_token := Some "access-token" |}.

Definition profile : NintendoAccountUser :=
  {| birthday := "2000-01-01"; country := "GB"; language := "en-GB" |}.

Definition proof : Coral.FResult :=
  {| Coral.f := "f"; Coral.request_id := "request"; Coral.timestamp := 1 |}.

(** The same environment, its remote configuration without [coral]. *)
Definition gated : Env -> Env := fun env =>
  {| remote_config := None;
     token_endpoint := token_endpoint env;
     user_endpoint := user_endpoint env;
     login_endpoint := login_endpoint env;
     coral_endpoint := coral_endpoint env;
     f := f env;
     uuidgen := uuidgen env;
     getAdditionalUserAgents := getAdditionalUserAgents env |}.

Definition welcoming : Env :=
  {| remote_config := Some {| config_znca_version := "2.4.0" |};
     token_endpoint :=
       fun _ => inr {| resp_status := 200; resp_json := Some (TokenOk granted_token) |};
     user_endpoint :=
       fun _ => inr {| resp_status := 200; resp_json := Some (UserOk profile) |};
     login_endpoint := fun _ => inr (Coral.envelope Coral.OK);
     coral_endpoint := fun _ _ => inr (Coral.envelope Coral.OK);
     f := fun _ _ _ => inr proof;
     uuidgen := "uuid";
     getAdditionalUserAgents := None |}.

End Login.

(** ** A flow and the callbacks it is given *)
Module NaFlows.
Import Na.
Local Open Scope string_scope.

(** One call of [getSessionToken]: its two arguments, and the endpoint as
    it answers at that time. *)
Record Callback := {
  answers : Network;
  code_arg : CodeArg;
  state_arg : StateArg;
}.

(** Calls made one after the other on the same flow. *)
Fixpoint callbacks (l : list Callback) (this : NintendoAccountSessionAuthorisation)
    (sent : Sent) : NintendoAccountSessionAuthorisation * Sent :=
  match l with
  | [] => (this, sent)
  | c :: rest =>
      let o := getSessionToken (answers c) this (code_arg c) (state_arg c) sent in
      callbacks rest (this_after o) (sent_after o)
  end.

(** The code that a callback input carries. *)
Definition callback_code (code : CodeArg) : option string :=
  match code with
  | CodeString c => Some c
  | CodeParams qs => get "session_token_code" qs
  | CodeNull => None
  end.

(** [s.split(sep)] for a separator of one character: the reading of a
    serialised query string back into its fields. *)
Fixpoint split_on (sep : ascii) (s : string) : list string :=
  match s with
  | EmptyString => [EmptyString]
  | String c rest =>
      if Ascii.eqb c sep then EmptyString :: split_on sep rest
      else
        match split_on sep rest with
        | first :: others => String c first :: others
        | [] => [String c EmptyString]
        end
  end.

Fixpoint occurs (sep : ascii) (s : string) : bool :=
  match s with
  | EmptyString => false
  | String c rest => Ascii.eqb c sep || occurs sep rest
  end.

(** A code that tries to add a parameter to the request. *)
Definition forged_code : string := "x&client_id=other".

(** A redirect that the provider answers a denied consent with. *)
Definition denied : URLSearchParams :=
  [ ("state", "stored"); ("error", "access_denied");
    ("session_token_code", "code") ].

(** A redirect that grants a code to the flow. *)
Definition granted (this : NintendoAccountSessionAuthorisation) : URLSearchParams :=
  [ ("session_token_code", "code"); ("state", auth_state this) ].

(** The random source that gives the bytes 0, 1, 2, ... *)
Definition counting : Rng :=
  {| tape := fun n => match Byte.of_N (N.of_nat n mod 256) with
                      | Some b => b
                      | None => Byte.x00
                      end;
     used := 0 |}.

End NaFlows.

(* ===================================================================== *)
(** * Part II: theorems *)
(* ===================================================================== *)

(** ** SHA-256 and base64url against published vectors *)

Example sha256_abc :
  Hex.hex (Sha256.digest (list_byte_of_string "abc"))
  = "ba7816bf8f01cfea414140de5dae2223b00361a396177a9cb410ff61f20015ad"%string.
Proof. vm_compute. reflexivity. Qed.

Example sha256_empty :
  Hex.hex (Sha256.digest [])
  = "e3b0c44298fc1c149afbf4c8996fb92427ae41e4649b934ca495991b7852b855"%string.
Proof. vm_compute. reflexivity. Qed.

Example sha256_two_blocks :
  Hex.hex (Sha256.digest (repeat "a"%byte 119))
  = "31eba51c313a5c08226adf18d4a359cfdfd8d2e816b13f4af952f7ea6584dcfb"%string.
Proof. vm_compute. reflexivity. Qed.

Example sha256_pad_boundary :
  Hex.hex (Sha256.digest (repeat "a"%byte 56))
  = "b35439a4ac6f0948b6d6f9e3c6af0f5f590ce20f1bde7090ef7970686ec6738a"%string.
Proof. vm_compute. reflexivity. Qed.

(** The verifier and challenge of RFC 7636, appendix B. *)
Example pkce_rfc7636_vector :
  Base64Url.encode
    (Sha256.digest (list_byte_of_string "dBjftJeZ4CVP-mB92K27uhbUJU1p1r_wW1gFWFOEjXk"))
  = "E9Melhoa2OwvFrEMTJguCHaoeK1t8URWbuGJSstw-cM"%string.
Proof. vm_compute. reflexivity. Qed.

(** ** base64url: URL-safe, of the expected length, and lossless *)
Section Base64UrlFacts.
Import Base64Url.
Local Open Scope N_scope.

Local Ltac Zify.zify_post_hook ::= Z.to_euclidean_division_equations.

Lemma list_ind3 {A} (P : list A -> Prop) :
  P [] -> (forall a, P [a]) -> (forall a b, P [a; b]) ->
  (forall a b c l, P l -> P (a :: b :: c :: l)) ->
  forall l, P l.
Proof.
  intros Hnil Hone Htwo Hstep. fix IH 1.
  intros [|a [|b [|c l]]];
    [apply Hnil | apply Hone | apply Htwo | apply Hstep, IH].
Qed.

Lemma sextet_url_safe n : url_safe_char (sextet n) = true.
Proof.
  unfold sextet.
  destruct (nth_in_or_default (N.to_nat n) alphabet "A"%char) as [Hin | ->];
    [| reflexivity].
  assert (Hall : forallb url_safe_char alphabet = true) by (vm_compute; reflexivity).
  rewrite forallb_forall in Hall. auto.
Qed.

Lemma unsextet_sextet n : n < 64 -> unsextet (sextet n) = Some n.
Proof.
  intros Hn.
  assert (Hall : forallb (fun k : nat =>
             match unsextet (sextet (N.of_nat k)) with
             | Some m => N.eqb m (N.of_nat k)
             | None => false
             end) (seq 0 64) = true) by (vm_compute; reflexivity).
  rewrite forallb_forall in Hall.
  specialize (Hall (N.to_nat n)). rewrite N2Nat.id in Hall.
  destruct (unsextet (sextet n)) as [m|].
  - f_equal. apply N.eqb_eq, Hall, in_seq. lia.
  - discriminate Hall. apply in_seq. lia.
Qed.

Lemma byte_of_N_to_N b : byte_of_N (Byte.to_N b) = b.
Proof.
  unfold byte_of_N. pose proof (Byte.to_N_bounded b).
  rewrite N.mod_small by lia. now rewrite Byte.of_to_N.
Qed.

Lemma byte_small b : Byte.to_N b < 256.
Proof. pose proof (Byte.to_N_bounded b). lia. Qed.

Theorem encode_url_safe bs : url_safe (encode bs) = true.
Proof.
  unfold url_safe.
  induction bs as [|a|a b|a b c l IH] using list_ind3; cbn [encode];
    cbn [list_ascii_of_string forallb]; rewrite ?sextet_url_safe; auto.
Qed.

Theorem decode_encode bs : decode (encode bs) = Some bs.
Proof.
  induction bs as [|a|a b|a b c l IH] using list_ind3; cbn [encode decode].
  - reflexivity.
  - pose proof (byte_small a).
    rewrite !unsextet_sextet by lia.
    replace (_ + _) with (Byte.to_N a) by lia.
    now rewrite byte_of_N_to_N.
  - pose proof (byte_small a). pose proof (byte_small b).
    rewrite !unsextet_sextet by lia.
    replace (Byte.to_N a / 4 * 4 + _) with (Byte.to_N a) by lia.
    replace (_ mod 16 * 16 + _) with (Byte.to_N b) by lia.
    now rewrite !byte_of_N_to_N.
  - pose proof (byte_small a). pose proof (byte_small b). pose proof (byte_small c).
    rewrite !unsextet_sextet by lia. rewrite IH.
    replace (Byte.to_N a / 4 * 4 + _) with (Byte.to_N a) by lia.
    replace (_ mod 16 * 16 + _) with (Byte.to_N b) by lia.
    replace (_ mod 4 * 64 + _) with (Byte.to_N c) by lia.
    now rewrite !byte_of_N_to_N.
Qed.

Theorem encode_length bs :
  N.of_nat (String.length (encode bs)) = (4 * N.of_nat (length bs) + 2) / 3.
Proof.
  induction bs as [|a|a b|a b c l IH] using list_ind3; cbn [encode String.length length];
    try reflexivity.
  rewrite !Nat2N.inj_succ, IH. lia.
Qed.

End Base64UrlFacts.

(** ** [generateAuthData] *)
Section GenerateAuthData.
Import Na.
Local Open Scope string_scope.

Lemma url_safe_char_unreserved c :
  Base64Url.url_safe_char c = true -> form_unreserved c = true.
Proof.
  destruct c as [[] [] [] [] [] [] [] []]; vm_compute; congruence.
Qed.

Lemma form_encode_url_safe s : Base64Url.url_safe s = true -> form_encode s = s.
Proof.
  unfold Base64Url.url_safe.
  induction s as [|c s IH]; cbn [list_ascii_of_string forallb form_encode]; [reflexivity|].
  intros [Hc Hs]%andb_true_iff.
  rewrite (url_safe_char_unreserved c Hc), IH; auto.
Qed.

(** The URL, with the state and the challenge standing in it as they are. *)
Lemma authorize_url_shape st r cid sc ch :
  Base64Url.url_safe st = true -> Base64Url.url_safe ch = true ->
  authorize_endpoint ++ toString (authorize_params st r cid sc ch)
  = authorize_endpoint ++ "state=" ++ st
      ++ "&redirect_uri=" ++ form_encode r
      ++ "&client_id=" ++ form_encode cid
      ++ "&scope=" ++ form_encode (scope_string sc)
      ++ "&response_type=session_token_code"
      ++ "&session_token_code_challenge=" ++ ch
      ++ "&session_token_code_challenge_method=S256"
      ++ "&theme=login_form".
Proof.
  intros Hst Hch. unfold authorize_params. cbn [toString].
  rewrite (form_encode_url_safe st Hst), (form_encode_url_safe ch Hch).
  f_equal.
Qed.

(** C5. [generateAuthData] draws 36 bytes for the state and then 32 for the
    verifier from the secure random source, and nothing else changes; state
    and verifier are the URL-safe base64 of those bytes (48 and 43 characters,
    from which the bytes can be read back); the challenge is
    base64url(sha256(verifier)); and the URL announces it with
    [session_token_code_challenge_method=S256]. *)
Theorem generateAuthData_pkce (g : Rng) (cid : string) (sc : Scope) (redirect : option string) :
  let d := fst (generateAuthData g cid sc redirect) in
  let g' := snd (generateAuthData g cid sc redirect) in
  let state_bytes := map (tape g) (seq (used g) 36) in
  let verifier_bytes := map (tape g) (seq (used g + 36) 32) in
  let r := match redirect with Some r => r | None => default_redirect_uri cid end in
  challenge d = Base64Url.encode (Sha256.digest (list_byte_of_string (verifier d)))
  /\ get "session_token_code_challenge_method"
       (authorize_params (state d) r cid sc (challenge d)) = Some "S256"
  /\ get "session_token_code_challenge"
       (authorize_params (state d) r cid sc (challenge d)) = Some (challenge d)
  /\ url d = authorize_endpoint ++ "state=" ++ state d
       ++ "&redirect_uri=" ++ form_encode r
       ++ "&client_id=" ++ form_encode cid
       ++ "&scope=" ++ form_encode (scope_string sc)
       ++ "&response_type=session_token_code"
       ++ "&session_token_code_challenge=" ++ challenge d
       ++ "&session_token_code_challenge_method=S256"
       ++ "&theme=login_form"
  /\ (state d = Base64Url.encode state_bytes
      /\ length state_bytes = 36%nat
      /\ Base64Url.decode (state d) = Some state_bytes
      /\ Base64Url.url_safe (state d) = true
      /\ String.length (state d) = 48%nat)
  /\ (verifier d = Base64Url.encode verifier_bytes
      /\ length verifier_bytes = 32%nat
      /\ Base64Url.decode (verifier d) = Some verifier_bytes
      /\ Base64Url.url_safe (verifier d) = true
      /\ String.length (verifier d) = 43%nat)
  /\ g' = {| tape := tape g; used := used g + 36 + 32 |}.
Proof.
  intros d g' state_bytes verifier_bytes r.
  assert (Hd : d = {| url := authorize_endpoint ++ toString
                        (authorize_params (Base64Url.encode state_bytes) r cid sc
                           (Base64Url.encode (Sha256.digest
                              (list_byte_of_string (Base64Url.encode verifier_bytes)))));
                      state := Base64Url.encode state_bytes;
                      verifier := Base64Url.encode verifier_bytes;
                      challenge := Base64Url.encode (Sha256.digest
                              (list_byte_of_string (Base64Url.encode verifier_bytes))) |})
    by reflexivity.
  assert (Hg : g' = {| tape := tape g; used := used g + 36 + 32 |}) by reflexivity.
  clearbody d g'. subst d.
  cbn [url state verifier challenge].
  repeat split; auto using decode_encode, encode_url_safe.
  apply authorize_url_shape; apply encode_url_safe.
Qed.

End GenerateAuthData.

(** ** [getSessionToken]: the state check *)
Section GetSessionToken.
Import Na.
Local Open Scope string_scope.

(** A flow as [create] makes it is pending, and its stored state and
    verifier are those [generateAuthData] drew. *)
Lemma create_pending g cid sc redirect :
  let flow := fst (create g cid sc redirect) in
  let r := match redirect with Some r => r | None => default_redirect_uri cid end in
  let d := fst (generateAuthData g cid (ScopeString (scope_string sc)) (Some r)) in
  result flow = None
  /\ auth_state flow = state d
  /\ auth_verifier flow = verifier d
  /\ authorise_url flow = url d.
Proof. repeat split. Qed.

Lemma getSessionToken_completed net this code st sent r :
  result this = Some r ->
  getSessionToken net this code st sent
  = throw this (Error "NintendoAccountSessionAuthorisation already completed") sent.
Proof. intros H. unfold getSessionToken. now rewrite H. Qed.

(** A query string is always checked, a missing [state] parameter included. *)
Lemma getSessionToken_query_checked net this qs st sent :
  result this = None ->
  differs_from (get "state" qs) (auth_state this) = true ->
  getSessionToken net this (CodeParams qs) st sent
  = throw this (TypeError "Invalid state") sent.
Proof. intros Hr Hd. unfold getSessionToken. now rewrite Hr, Hd. Qed.

(** The second argument of a raw pair is checked when it is given. *)
Lemma getSessionToken_pair_checked net this code st sent :
  result this = None ->
  (forall qs, code <> CodeParams qs) ->
  is_undefined st = false ->
  state_differs st (auth_state this) = true ->
  getSessionToken net this code st sent
  = throw this (TypeError "Invalid state") sent.
Proof.
  intros Hr Hc Hu Hd. unfold getSessionToken. rewrite Hr.
  destruct code as [c|qs|]; [| now destruct (Hc qs) |];
    unfold getSessionToken_tail; now rewrite Hu, Hd.
Qed.

(** C4, as stated, fails in two places.  A raw pair whose state argument is
    left out does not carry the stored state, yet the call goes on to the
    session token endpoint and succeeds; and on a flow that has completed, a
    pair with a wrong state fails with the already-completed error, not with
    the invalid-state one. *)
Lemma getSessionToken_state_not_always_rejected :
  (state_differs (callback_state (CodeString "code") StateUndefined) (auth_state pending_flow)
   = true
   /\ let o := getSessionToken granting pending_flow (CodeString "code") StateUndefined [] in
      settled o = inr {| session_token := "session";
                         session_token_code := "code";
                         session_token_response :=
                           {| resp_status := 200;
                              resp_json := SessionTokenJson "session" "code" |} |}
      /\ sent_after o = [session_token_request "code" "verifier" "71b963c1b7b6d119"])
  /\ (state_differs (callback_state (CodeString "code") (StateString "other"))
        (auth_state completed_flow) = true
      /\ settled (getSessionToken granting completed_flow (CodeString "code")
                    (StateString "other") [])
         = inl (Error "NintendoAccountSessionAuthorisation already completed")).
Proof. repeat split. Qed.

(** C4, amended.  Whenever the callback input carries a state (the [state]
    parameter of a query string, [null] when it has none; the second argument
    of a raw pair when it is given) and that state is not the stored one, the
    call fails before any request is made and leaves the flow as it was: with
    [TypeError: Invalid state] on a flow that has not completed, with the
    already-completed error on one that has. *)
Theorem getSessionToken_fails_closed net (this : NintendoAccountSessionAuthorisation)
    (code : CodeArg) (st : StateArg) (sent : Sent) :
  is_undefined (callback_state code st) = false ->
  state_differs (callback_state code st) (auth_state this) = true ->
  let o := getSessionToken net this code st sent in
  settled o = inl (match result this with
                   | None => TypeError "Invalid state"
                   | Some _ => Error "NintendoAccountSessionAuthorisation already completed"
                   end)
  /\ sent_after o = sent
  /\ this_after o = this.
Proof.
  intros Hu Hd.
  destruct (result this) as [r|] eqn:Hr.
  - rewrite (getSessionToken_completed _ _ _ _ _ r Hr). now repeat split.
  - destruct code as [c|qs|]; cbn [callback_state] in Hu, Hd.
    + rewrite getSessionToken_pair_checked by (auto; discriminate). now repeat split.
    + rewrite getSessionToken_query_checked; [now repeat split | assumption |].
      destruct (get "state" qs); auto.
    + rewrite getSessionToken_pair_checked by (auto; discriminate). now repeat split.
Qed.

(** A redirect whose query string carries a forged state. *)
Lemma getSessionToken_fails_closed_witness :
  let o := getSessionToken granting pending_flow
             (CodeParams [("session_token_code", "code"); ("state", "forged")])
             StateUndefined [] in
  settled o = inl (TypeError "Invalid state")
  /\ sent_after o = []
  /\ this_after o = pending_flow.
Proof.
  apply (getSessionToken_fails_closed granting pending_flow
           (CodeParams [("session_token_code", "code"); ("state", "forged")])
           StateUndefined []); reflexivity.
Defined.

End GetSessionToken.

(** ** The Coral client: every step is a transition *)
Section CoralTransitions.
Import Coral.
Local Open Scope string_scope.

(** After the renewal branch, [_renewToken] holds the promise the caller awaits. *)
Lemma renewal_branch_marker me w :
  _renewToken (api (renewal_branch me w)) = Some (target w).
Proof.
  unfold renewal_branch, renew, target, emit; cbn.
  destruct (_renewToken (api w)) eqn:H; cbn; auto.
Qed.

Lemma fetch_enter_renewal_branch me c w :
  autoRenewToken c = true ->
  fetch_enter me c (renewal_branch me w)
  = (emit (Awaits me (target w)) (renewal_branch me w), Suspend c (AwaitRenewToken (target w))).
Proof.
  intros Hc. unfold fetch_enter. now rewrite renewal_branch_marker, Hc.
Qed.

Lemma getWebServiceToken_enter_renewal_branch me id a w :
  getWebServiceToken_enter me id a (renewal_branch me w)
  = (emit (Awaits me (target w)) (renewal_branch me w),
     WebServiceTokenRenew id a (Some (target w))).
Proof.
  unfold getWebServiceToken_enter. now rewrite renewal_branch_marker.
Qed.

(** What [fetch_response] does: it finishes the call, or takes the renewal
    branch. *)
Lemma fetch_response_cases me c r w :
  (exists o, fetch_response me c r w = (w, Finish o))
  \/ (autoRenewToken c = true /\ attempt c = 0%Z /\ has_onTokenExpired (api w) = true
      /\ (exists response data, r = inr response /\ resp_status response = 200%Z
            /\ resp_json response = Some data /\ status data = TOKEN_EXPIRED)
      /\ fetch_response me c r w
         = (emit (Awaits me (target w)) (renewal_branch me w),
            Suspend (next_attempt c) (AwaitRenewToken (target w)))).
Proof.
  unfold fetch_response.
  destruct r as [e|response]; [eauto|].
  destruct (resp_status response =? 200)%Z eqn:Hs; cbn [negb]; [|eauto].
  destruct (resp_json response) as [data|] eqn:Hj; [|eauto].
  destruct (is_TOKEN_EXPIRED (Some (status data)) && autoRenewToken c
            && (attempt c =? 0)%Z && has_onTokenExpired (api w)) eqn:Hb.
  - right.
    apply andb_true_iff in Hb as [[[Hx Ha]%andb_true_iff Hz]%andb_true_iff Hcb].
    apply Z.eqb_eq in Hz, Hs.
    repeat split; auto.
    + exists response, data. repeat split; auto.
      cbn in Hx. now destruct (status data).
    + fold (renewal_branch me w). now apply fetch_enter_renewal_branch.
  - left. destruct (errorMessage data); [eauto|].
    destruct (is_OK (status data)); cbn [negb]; eauto.
Qed.

(** [step] makes no transition but those of [trans]. *)
Lemma step_trans w a w' : inner_calls w -> step w a = Some w' -> trans w w'.
Proof.
  intros Hinner Hstep.
  destruct a as [c|id a|me|me r|me r uuid|p s|p]; cbn [step] in Hstep.
  - (* fetch is called *)
    unfold fetch_enter, fetch_send in Hstep.
    destruct (_renewToken (api w)) as [p|] eqn:Hm;
      [destruct (autoRenewToken c) eqn:Hauto|]; cbn in Hstep; simplify_eq.
    + apply (trans_call w _ [Awaits _ p]). now constructor.
    + apply (trans_call w _ [Request _ c _]). constructor. auto.
    + apply (trans_call w _ [Request _ c _]). constructor. auto.
  - (* getWebServiceToken is called *)
    unfold getWebServiceToken_enter in Hstep.
    destruct (_renewToken (api w)) as [p|] eqn:Hm; cbn in Hstep; simplify_eq.
    + apply (trans_call w _ [Awaits _ p]). now constructor.
    + apply (trans_call w _ []). now constructor.
  - (* an awaited _renewToken has settled *)
    destruct (tasks w !! me) as [[c [p|] | id a [p|] | id a | id a c [p|] | o]|] eqn:Ht;
      try discriminate.
    + destruct (settled w p) as [[d|e]|] eqn:Hs; cbn in Hstep; simplify_eq.
      * apply (trans_move w me _ _ [Request _ c _] Ht). econstructor; eauto.
      * apply (trans_move w me _ _ [] Ht). econstructor; eauto.
    + destruct (settled w p) as [[d|e]|] eqn:Hs; cbn in Hstep; simplify_eq.
      * apply (trans_move w me _ _ [DeviceProof _ a _] Ht). econstructor; eauto.
      * apply (trans_move w me _ _ [] Ht). econstructor; eauto.
    + cbn in Hstep. simplify_eq.
      apply (trans_move w me _ _ [DeviceProof _ a _] Ht). constructor.
    + destruct (Hinner _ _ _ _ _ Ht) as (_ & _ & ?). discriminate.
  - (* a response has arrived *)
    destruct (tasks w !! me) as [[c [p|] | id a [p|] | id a | id a c [p|] | o]|] eqn:Ht;
      try discriminate.
    + destruct (fetch_response_cases me c r w) as [[o Ho] | (Hauto & Hatt & Hcb & _ & Ho)];
        rewrite Ho in Hstep; cbn in Hstep; simplify_eq.
      * apply (trans_move w me _ _ [] Ht). constructor.
      * apply (trans_expired w me _ _ Ht Hcb). now constructor.
    + destruct (Hinner _ _ _ _ _ Ht) as (Hauto & Hatt & _).
      destruct (fetch_response_cases me c r w) as [[o Ho] | (Hauto' & _)];
        [|congruence].
      rewrite Ho in Hstep. cbn [getWebServiceToken_called] in Hstep.
      destruct o as [res|err].
      * cbn in Hstep. simplify_eq. apply (trans_move w me _ _ [] Ht). constructor.
      * destruct (is_TOKEN_EXPIRED (error_status err) && (a =? 0)%Z
                  && has_onTokenExpired (api w)) eqn:Hb.
        -- apply andb_true_iff in Hb as [[_ Hz]%andb_true_iff Hcb].
           apply Z.eqb_eq in Hz. subst a.
           fold (renewal_branch me w) in Hstep.
           rewrite getWebServiceToken_enter_renewal_branch in Hstep.
           cbn in Hstep. simplify_eq.
           apply (trans_expired w me _ _ Ht Hcb). constructor.
        -- cbn in Hstep. simplify_eq. apply (trans_move w me _ _ [] Ht). constructor.
  - (* f has settled *)
    destruct (tasks w !! me) as [[c [p|] | id a [p|] | id a | id a c [p|] | o]|] eqn:Ht;
      try discriminate.
    destruct r as [e|data]; cbn [getWebServiceToken_f] in Hstep.
    + cbn in Hstep. simplify_eq. apply (trans_move w me _ _ [] Ht). constructor.
    + unfold fetch_enter, fetch_send in Hstep.
      destruct (_renewToken (api w)); cbn in Hstep; simplify_eq;
        apply (trans_move w me _ _ [Request _ _ _] Ht); now constructor.
  - (* the callback of a renewal has settled *)
    destruct (promises w !! p) as [[| |]|] eqn:Hp; simplify_eq.
    now apply trans_then.
  - (* the finally handler of a renewal runs *)
    destruct (promises w !! p) as [[|s|]|] eqn:Hp; simplify_eq.
    now apply trans_finally.
Qed.

End CoralTransitions.

(** ** The Coral client: the invariants of an execution *)
Section CoralInvariants.
Import Coral.

(** Lookups in the tables of tasks and promises after an update. *)
Lemma lookup_set_task (l : list Task) i t j old :
  l !! i = Some old ->
  <[i := t]> l !! j = if decide (i = j) then Some t else l !! j.
Proof.
  intros Hi. destruct (decide (i = j)) as [<-|Hne].
  - apply list_lookup_insert_eq. eapply lookup_lt_Some, Hi.
  - now apply list_lookup_insert_ne.
Qed.

Lemma lookup_spawn (l : list Task) t j :
  (l ++ [t]) !! j = if decide (j = length l) then Some t else l !! j.
Proof.
  destruct (decide (j = length l)) as [->|Hne].
  - rewrite lookup_app_r by lia. now rewrite Nat.sub_diag.
  - destruct (decide (j < length l)).
    + now apply lookup_app_l.
    + rewrite !lookup_ge_None_2; auto; rewrite ?length_app; cbn; lia.
Qed.

Lemma lookup_new_promise (l : list PromiseState) j :
  (l ++ [CallbackPending]) !! j
  = if decide (j = length l) then Some CallbackPending else l !! j.
Proof.
  destruct (decide (j = length l)) as [->|Hne].
  - rewrite lookup_app_r by lia. now rewrite Nat.sub_diag.
  - destruct (decide (j < length l)).
    + now apply lookup_app_l.
    + rewrite !lookup_ge_None_2; auto; rewrite ?length_app; cbn; lia.
Qed.

Lemma lookup_set_promise (l : list PromiseState) p st j old :
  l !! p = Some old ->
  <[p := st]> l !! j = if decide (p = j) then Some st else l !! j.
Proof.
  intros Hp. destruct (decide (p = j)) as [<-|Hne].
  - apply list_lookup_insert_eq. eapply lookup_lt_Some, Hp.
  - now apply list_lookup_insert_ne.
Qed.

(** The renewal branch joins the pending renewal, or starts one. *)
Lemma renewal_branch_cases me w :
  (exists p, _renewToken (api w) = Some p
             /\ renewal_branch me w = emit (Expired me (Some p)) w)
  \/ (_renewToken (api w) = None
      /\ renewal_branch me w
         = {| api := set_renewToken (api w) (Some (length (promises w)));
              promises := promises w ++ [CallbackPending];
              tasks := tasks w;
              log := Invoked (length (promises w)) (token (api w))
                     :: Expired me None :: log w |}).
Proof.
  unfold renewal_branch, renew. cbn.
  destruct (_renewToken (api w)) as [p|] eqn:Hm; [left; eauto | right; auto].
Qed.

(** At most one renewal is unsettled. *)
Lemma unsettled_marker w p q :
  marker_ok w -> unsettled w p -> unsettled w q -> p = q.
Proof.
  intros Hm Hp Hq. apply Hm in Hp, Hq. congruence.
Qed.

(** Each invariant is kept by every transition. *)
Lemma trans_marker_ok w w' : consistent w -> trans w w' -> marker_ok w'.
Proof.
  intros [_ Hm _ _ _] Ht. destruct Ht as [t evs _|i old t evs _ _|i old t _ _ _|p s Hp|p s Hp].
  - exact Hm.
  - exact Hm.
  - unfold marker_ok, unsettled. cbn.
    destruct (renewal_branch_cases i w) as [(p & Hp & ->)|[Hnone ->]]; cbn.
    + exact Hm.
    + intros p. rewrite lookup_new_promise.
      destruct (decide (p = length (promises w))) as [->|Hne].
      * split; eauto.
      * split.
        -- intros [=]. congruence.
        -- intros Hu. apply Hm in Hu. congruence.
  - assert (Hmp : _renewToken (api w) = Some p) by (apply Hm; now left).
    intros q. unfold unsettled. cbn.
    rewrite (lookup_set_promise _ _ _ _ _ Hp).
    assert (Hsame : _renewToken (match s with
                                 | Fulfilled (Some data) => setTokenWithSavedToken (api w) data
                                 | _ => api w
                                 end) = Some p) by (now destruct s as [[d|]|e]).
    rewrite Hsame. destruct (decide (p = q)) as [<-|Hne].
    + split; eauto.
    + split; [congruence|]. intros Hu. apply Hm in Hu. congruence.
  - assert (Hmp : _renewToken (api w) = Some p) by (apply Hm; right; eauto).
    intros q. unfold unsettled. cbn.
    rewrite (lookup_set_promise _ _ _ _ _ Hp).
    destruct (decide (p = q)) as [<-|Hne].
    + split; [discriminate|]. intros [[=]|[? [=]]].
    + split; [discriminate|]. intros Hu. apply Hm in Hu. congruence.
Qed.

Lemma trans_inner_calls w w' : consistent w -> trans w w' -> inner_calls w'.
Proof.
  intros [Hin _ _ _ _] Ht j id a c point.
  destruct Ht as [t evs Hmv|i old t evs Hi Hmv|i old t Hi _ Hex|p s Hp|p s Hp]; cbn.
  - rewrite lookup_spawn. destruct (decide _); [|apply Hin].
    intros [= ->]. inversion Hmv.
  - rewrite (lookup_set_task _ _ _ _ _ Hi). destruct (decide _); [|apply Hin].
    intros [= ->]. inversion Hmv; subst; auto.
  - replace (tasks (renewal_branch i w)) with (tasks w)
      by (destruct (renewal_branch_cases i w) as [(p & _ & ->)|[_ ->]]; reflexivity).
    rewrite (lookup_set_task _ _ _ _ _ Hi). destruct (decide _); [|apply Hin].
    intros [= ->]. inversion Hex.
  - apply Hin.
  - apply Hin.
Qed.

(** The events of a move are those of its caller. *)
Lemma move_events w i o t evs :
  move w i o t evs ->
  evs = []
  \/ (exists p, evs = [Awaits i p])
  \/ (exists c, evs = [Request i c (token (api w))])
  \/ (exists a, evs = [DeviceProof i a (token (api w))]).
Proof. destruct 1; eauto 6. Qed.

Lemma move_invoked w i o t evs l p tk :
  move w i o t evs -> Invoked p tk ∈ (evs ++ l)%list <-> Invoked p tk ∈ l.
Proof.
  intros Hmv. rewrite elem_of_app.
  destruct (move_events _ _ _ _ _ Hmv) as [->|[[q ->]|[[c ->]|[a ->]]]];
    rewrite ?elem_of_nil, ?list_elem_of_singleton; intuition congruence.
Qed.

Lemma move_cleared w i o t evs l p tk :
  move w i o t evs -> Cleared p tk ∈ (evs ++ l)%list <-> Cleared p tk ∈ l.
Proof.
  intros Hmv. rewrite elem_of_app.
  destruct (move_events _ _ _ _ _ Hmv) as [->|[[q ->]|[[c ->]|[a ->]]]];
    rewrite ?elem_of_nil, ?list_elem_of_singleton; intuition congruence.
Qed.

Lemma move_invocations w i o t evs l :
  move w i o t evs -> invocations (evs ++ l) = invocations l.
Proof.
  intros Hmv.
  destruct (move_events _ _ _ _ _ Hmv) as [->|[[q ->]|[[c ->]|[a ->]]]]; reflexivity.
Qed.

(** A transition that leaves the client, the promises and the events of the
    renewals alone keeps their invariant. *)
Lemma moved_renewals_ok w w' :
  renewals_ok w ->
  api w' = api w -> promises w' = promises w ->
  (forall p tk, Invoked p tk ∈ log w' <-> Invoked p tk ∈ log w) ->
  (forall p tk, Cleared p tk ∈ log w' <-> Cleared p tk ∈ log w) ->
  invocations (log w') = invocations (log w) ->
  renewals_ok w'.
Proof.
  intros [H1 H2 H3 H4 H5 H6 H7] Ha Hp Hi Hc Hn.
  split; rewrite ?Ha, ?Hp, ?Hn; auto.
  - intros p tk. rewrite Hi. apply H1.
  - intros p Hlt. destruct (H2 p Hlt) as [tk Htk]. exists tk. now apply Hi.
  - intros p tk. rewrite Hi. apply H4.
  - intros p tk e. rewrite Hi, Hc. apply H5.
  - intros p tk. rewrite Hc. apply H6.
  - intros p s Hs. destruct (H7 p s Hs) as [tk Htk]. exists tk. now apply Hc.
Qed.

Lemma trans_renewals_ok w w' : consistent w -> trans w w' -> renewals_ok w'.
Proof.
  intros [_ Hm Hr _ _] Ht.
  destruct Ht as [t evs Hmv|i old t evs Hi Hmv|i old t Hi _ Hex|q s Hq|q s Hq].
  - apply (moved_renewals_ok w); auto; cbn; intros;
      eauto using move_invoked, move_cleared, move_invocations.
  - apply (moved_renewals_ok w); auto; cbn; intros;
      eauto using move_invoked, move_cleared, move_invocations.
  - destruct (renewal_branch_cases i w) as [(p & Hp & Hw)|[Hnone Hw]].
    + apply (moved_renewals_ok w); auto; rewrite Hw; cbn; auto;
        intros; rewrite !elem_of_cons; intuition congruence.
    + destruct Hr as [H1 H2 H3 H4 H5 H6 H7].
      rewrite Hw. split; cbn.
      * intros p tk. rewrite !elem_of_cons, length_app. cbn.
        intros [[=]|[[= -> _]|[[=]|Hin]]]; [lia|]. apply H1 in Hin. lia.
      * intros p. rewrite length_app. cbn. intros Hlt.
        destruct (decide (p = length (promises w))) as [->|Hne].
        -- eexists. rewrite !elem_of_cons. eauto.
        -- destruct (H2 p) as [tk Htk]; [lia|]. exists tk.
           rewrite !elem_of_cons. auto.
      * rewrite length_app. cbn. lia.
      * intros p tk. rewrite !elem_of_cons, lookup_new_promise.
        intros [[=]|[[= -> ->]|[[=]|Hin]]]; [reflexivity|].
        destruct (decide _) as [->|Hne]; [apply H1 in Hin; lia|]. now apply H4.
      * intros p tk e. rewrite !elem_of_cons, lookup_new_promise.
        intros [[=]|[[= -> ->]|[[=]|Hin]]].
        -- destruct (decide _); [discriminate|]. intros Hf. apply lookup_lt_Some in Hf. lia.
        -- destruct (decide _); [discriminate|]. eauto.
      * intros p tk. rewrite !elem_of_cons, lookup_new_promise.
        intros [[=]|[[=]|[[=]|Hin]]]. destruct (H6 _ _ Hin) as [s Hs].
        destruct (decide _) as [->|]; [apply lookup_lt_Some in Hs; lia | eauto].
      * intros p s. rewrite lookup_new_promise.
        destruct (decide _); [discriminate|]. intros Hs.
        destruct (H7 _ _ Hs) as [tk Htk]. exists tk. rewrite !elem_of_cons. auto.
  - assert (Hmq : _renewToken (api w) = Some q) by (apply Hm; now left).
    assert (Hone : forall p, unsettled w p -> p = q)
      by (intros p Hu; apply Hm in Hu; congruence).
    destruct Hr as [H1 H2 H3 H4 H5 H6 H7]. split; cbn; rewrite ?length_insert; auto.
    + intros p tk Hin. rewrite (lookup_set_promise _ _ _ _ _ Hq).
      destruct (decide (q = p)) as [<-|Hne].
      * intros [[=]|[e [= ->]]]. cbn. apply (H4 q); auto.
      * intros Hu. destruct Hne. symmetry. apply Hone. destruct Hu as [|[e He]]; [now left|].
        right. eauto.
    + intros p tk e Hin. rewrite (lookup_set_promise _ _ _ _ _ Hq).
      destruct (decide _); [discriminate|]. eauto.
    + intros p tk Hin. rewrite (lookup_set_promise _ _ _ _ _ Hq).
      destruct (H6 _ _ Hin) as [s' Hs']. destruct (decide _) as [<-|]; [congruence|eauto].
    + intros p s'. rewrite (lookup_set_promise _ _ _ _ _ Hq).
      destruct (decide _); [discriminate|]. eauto.
  - assert (Hone : forall p, unsettled w p -> p = q).
    { intros p Hu. apply (unsettled_marker w); auto. right. eauto. }
    destruct Hr as [H1 H2 H3 H4 H5 H6 H7]. split; cbn; rewrite ?length_insert; auto.
    + intros p tk. rewrite elem_of_cons. intros [[=]|Hin]. eauto.
    + intros p Hlt. destruct (H2 p Hlt) as [tk Htk]. exists tk. rewrite elem_of_cons. auto.
    + intros p tk. rewrite elem_of_cons. intros [[=]|Hin].
      rewrite (lookup_set_promise _ _ _ _ _ Hq).
      destruct (decide (q = p)) as [<-|Hne].
      * intros [[=]|[e [=]]].
      * intros Hu. destruct Hne. symmetry. apply Hone. destruct Hu as [|[e He]]; [now left|].
        right. eauto.
    + intros p tk e. rewrite !elem_of_cons. intros [[=]|Hin].
      rewrite (lookup_set_promise _ _ _ _ _ Hq).
      destruct (decide (q = p)) as [<-|Hne].
      * intros [= ->]. left. f_equal. symmetry. apply (H4 q); eauto.
      * eauto.
    + intros p tk. rewrite elem_of_cons, (lookup_set_promise _ _ _ _ _ Hq).
      intros [[= -> ->]|Hin].
      * destruct (decide _); [eauto|congruence].
      * destruct (decide _); eauto.
    + intros p s'. rewrite (lookup_set_promise _ _ _ _ _ Hq).
      destruct (decide (q = p)) as [<-|Hne].
      * intros _. eexists. rewrite elem_of_cons. eauto.
      * intros Hs. destruct (H7 _ _ Hs) as [tk Htk]. exists tk. rewrite elem_of_cons. auto.
Qed.

Lemma await_outcome_mono st (A A' : Prop) (D D' : JsError -> Prop) :
  (A -> A') -> (forall e, D e -> D' e) ->
  await_outcome st A D -> await_outcome st A' D'.
Proof. destruct st as [[|s|[d|e]]|]; cbn; intuition auto. Qed.

Lemma move_awaits w i o t evs l j p :
  move w i o t evs ->
  Awaits j p ∈ (evs ++ l)%list <->
  (o = None /\ j = i /\ awaits t = Some p /\ _renewToken (api w) = Some p) \/ Awaits j p ∈ l.
Proof.
  intros Hmv. rewrite elem_of_app.
  destruct Hmv; rewrite ?elem_of_nil, ?list_elem_of_singleton; cbn;
    intuition (try congruence); simplify_eq; auto.
Qed.

Lemma move_has_expired w i o t evs l j :
  move w i o t evs -> has_expired j (evs ++ l) = has_expired j l.
Proof.
  intros Hmv.
  destruct (move_events _ _ _ _ _ Hmv) as [->|[[q ->]|[[c ->]|[a ->]]]]; reflexivity.
Qed.

Lemma renewal_branch_tasks i w : tasks (renewal_branch i w) = tasks w.
Proof. destruct (renewal_branch_cases i w) as [(p & _ & ->)|[_ ->]]; reflexivity. Qed.

Lemma trans_awaits_ok w w' : consistent w -> trans w w' -> awaits_ok w'.
Proof.
  intros [_ Hm Hr [A1 A2 A3] _] Ht.
  destruct Ht as [t evs Hmv|i old t evs Hi Hmv|i old t Hi _ Hex|q s Hq|q s Hq].
  - (* a call is made *)
    split; cbn.
    + intros j t' p. rewrite lookup_spawn, (move_awaits _ _ _ _ _ _ _ _ Hmv).
      destruct (decide _) as [->|]; [|eauto].
      intros [= <-] Hp. left. repeat split; auto.
      inversion Hmv; subst; cbn in Hp; congruence.
    + intros j p. rewrite (move_awaits _ _ _ _ _ _ _ _ Hmv).
      intros [(_ & -> & Hp & Hmp)|Hin].
      * assert (Hu : unsettled w p) by now apply Hm.
        assert (Haw : awaiting (spawn t (emits evs w)) (length (tasks w)) p).
        { exists t. cbn. rewrite lookup_spawn. destruct (decide _); [auto|congruence]. }
        destruct Hu as [->|[s ->]]; exact Haw.
      * apply A2 in Hin. revert Hin. apply await_outcome_mono.
        -- intros (t' & Ht' & Hp). exists t'. cbn. rewrite lookup_spawn.
           destruct (decide _) as [->|]; auto.
           apply lookup_lt_Some in Ht'. lia.
        -- intros e Ht'. rewrite lookup_spawn. destruct (decide _) as [->|]; auto.
           apply lookup_lt_Some in Ht'. lia.
    + intros j. rewrite (move_has_expired _ _ _ _ _ _ _ Hmv). intros He.
      destruct (A3 _ He) as [p Hp]. exists p. apply elem_of_app. auto.
  - (* a task moves *)
    split; cbn.
    + intros j t' p. rewrite (lookup_set_task _ _ _ _ _ Hi), (move_awaits _ _ _ _ _ _ _ _ Hmv).
      destruct (decide _) as [->|]; [|eauto].
      intros [= <-] Hp. inversion Hmv; subst; discriminate.
    + intros j p. rewrite (move_awaits _ _ _ _ _ _ _ _ Hmv).
      intros [([=] & _)|Hin].
      apply A2 in Hin. unfold awaiting in *. cbn.
      rewrite (lookup_set_task _ _ _ _ _ Hi).
      destruct (decide (i = j)) as [<-|]; [|exact Hin].
      rewrite Hi in Hin.
      destruct (promises w !! p) as [[|s|[d|e]]|] eqn:Hp; cbn in *; auto.
      * destruct Hin as (t' & [= <-] & Haw).
        inversion Hmv; subst; cbn in Haw; simplify_eq;
          unfold settled in *; rewrite Hp in *; discriminate.
      * destruct Hin as (t' & [= <-] & Haw).
        inversion Hmv; subst; cbn in Haw; simplify_eq;
          unfold settled in *; rewrite Hp in *; discriminate.
      * destruct Hin as [(t' & [= <-] & Haw)|[= ->]]; [|inversion Hmv].
        inversion Hmv; subst; cbn in Haw; simplify_eq;
          unfold settled in *; rewrite Hp in *; simplify_eq; auto.
    + intros j. rewrite (move_has_expired _ _ _ _ _ _ _ Hmv). intros He.
      destruct (A3 _ He) as [p Hp]. exists p. apply elem_of_app. auto.
  - (* a task takes the renewal branch *)
    assert (Hlog : forall e, e ∈ log w -> e ∈ log (renewal_branch i w)).
    { intros e He. destruct (renewal_branch_cases i w) as [(p & _ & ->)|[_ ->]];
        cbn; rewrite ?elem_of_cons; auto. }
    assert (Hnew : forall j p, Awaits j p ∈ log (renewal_branch i w) -> Awaits j p ∈ log w).
    { intros j p. destruct (renewal_branch_cases i w) as [(p' & _ & ->)|[_ ->]];
        cbn; rewrite ?elem_of_cons; intuition congruence. }
    assert (Hold : awaits old = None) by (inversion Hex; reflexivity).
    assert (Haw : awaits t = Some (target w)) by (inversion Hex; reflexivity).
    assert (Hlk : forall p st, promises w !! p = Some st ->
                               promises (renewal_branch i w) !! p = Some st).
    { intros p st Hp. destruct (renewal_branch_cases i w) as [(p' & _ & ->)|[_ ->]]; cbn; auto.
      rewrite lookup_new_promise. destruct (decide _) as [->|]; auto.
      apply lookup_lt_Some in Hp. lia. }
    split; cbn; rewrite ?renewal_branch_tasks.
    + intros j t' p. rewrite (lookup_set_task _ _ _ _ _ Hi), elem_of_cons.
      destruct (decide _) as [->|]; [|eauto].
      intros [= <-] Hp. left. congruence.
    + intros j p. rewrite elem_of_cons. intros [[= -> ->]|Hin].
      * assert (Haw' : awaiting (set_task i t (emit (Awaits i (target w))
                                   (renewal_branch i w))) i (target w)).
        { exists t. cbn. rewrite renewal_branch_tasks, (lookup_set_task _ _ _ _ _ Hi).
          destruct (decide _); [auto|congruence]. }
        unfold awaiting in Haw'. cbn in Haw'. rewrite renewal_branch_tasks in Haw'.
        unfold target in *.
        destruct (renewal_branch_cases i w) as [(p & Hp & ->)|[Hnone ->]]; cbn.
        -- rewrite Hp in *. assert (Hu : unsettled w p) by now apply Hm.
           destruct Hu as [->|[s ->]]; exact Haw'.
        -- rewrite Hnone in *. rewrite lookup_new_promise.
           destruct (decide _); [exact Haw'|congruence].
      * apply Hnew, A2 in Hin. unfold awaiting in *. cbn.
        rewrite renewal_branch_tasks, (lookup_set_task _ _ _ _ _ Hi).
        destruct (promises w !! p) as [st|] eqn:Hp; [|destruct Hin].
        rewrite (Hlk _ _ Hp).
        destruct (decide (i = j)) as [<-|]; [|exact Hin].
        rewrite Hi in Hin.
        destruct st as [|s|[d|e]]; cbn in *; auto.
        -- destruct Hin as (t' & [= <-] & ?). congruence.
        -- destruct Hin as (t' & [= <-] & ?). congruence.
        -- destruct Hin as [(t' & [= <-] & ?)|[= ->]]; [congruence|inversion Hex].
    + intros j.
      assert (Hcase : has_expired j (log (renewal_branch i w))
                      = (i =? j)%nat || has_expired j (log w)).
      { destruct (renewal_branch_cases i w) as [(p & _ & ->)|[_ ->]]; reflexivity. }
      rewrite Hcase. destruct (i =? j)%nat eqn:Hij.
      * apply Nat.eqb_eq in Hij as <-. intros _. exists (target w). apply elem_of_cons. auto.
      * cbn. intros He. destruct (A3 _ He) as [p Hp]. exists p. apply elem_of_cons. auto.
  - (* the then handler of a renewal *)
    split; cbn; auto.
    intros j p Hin. apply A2 in Hin. unfold awaiting in *. cbn.
    rewrite (lookup_set_promise _ _ _ _ _ Hq).
    destruct (decide (q = p)) as [<-|]; [|exact Hin].
    rewrite Hq in Hin. exact Hin.
  - (* the finally handler of a renewal *)
    split; cbn.
    + intros j t p Hj Hp. apply elem_of_cons. eauto.
    + intros j p. rewrite elem_of_cons. intros [[=]|Hin].
      apply A2 in Hin. unfold awaiting in *. cbn.
      rewrite (lookup_set_promise _ _ _ _ _ Hq).
      destruct (decide (q = p)) as [<-|]; [|exact Hin].
      rewrite Hq in Hin. destruct s as [d|e]; cbn in *; auto.
    + intros j He. destruct (A3 _ He) as [p Hp]. exists p. apply elem_of_cons. auto.
Qed.

Lemma foreign_history j evs l :
  Forall (foreign j) evs ->
  attempts_of j (evs ++ l) = attempts_of j l
  /\ proofs_of j (evs ++ l) = proofs_of j l
  /\ has_expired j (evs ++ l) = has_expired j l
  /\ (forall p, Awaits j p ∈ (evs ++ l)%list -> Awaits j p ∈ l).
Proof.
  induction 1 as [|e evs He _ (IH1 & IH2 & IH3 & IH4)]; [cbn; auto|].
  destruct e as [i c tk|i a tk|i m|q tk|i q|q tk]; cbn in *;
    repeat split; auto;
    try (rewrite (proj2 (Nat.eqb_neq _ _) He); now auto);
    intros p; rewrite elem_of_cons; intros [[=]|Hin]; auto; subst; congruence.
Qed.

Lemma history_ok_foreign t j evs l :
  Forall (foreign j) evs -> history_ok t j l -> history_ok t j (evs ++ l).
Proof.
  intros Hf. destruct (foreign_history j evs l Hf) as (H1 & H2 & H3 & H4).
  unfold history_ok. rewrite H1, H2, H3.
  destruct t as [[c [p|]|id a aw|id a|id a c pt|o]|]; auto.
  intros (? & ? & ? & Hno). repeat split; auto.
  intros p Hin. apply (Hno p). auto.
Qed.

Lemma move_foreign w i o t evs j : move w i o t evs -> i <> j -> Forall (foreign j) evs.
Proof.
  intros Hmv Hne.
  destruct (move_events _ _ _ _ _ Hmv) as [->|[[q ->]|[[c ->]|[a ->]]]];
    repeat constructor; auto.
Qed.

Lemma renewal_branch_log i w :
  exists evs, log (renewal_branch i w) = (evs ++ log w)%list
              /\ forall j, i <> j -> Forall (foreign j) evs.
Proof.
  destruct (renewal_branch_cases i w) as [(p & _ & ->)|[_ ->]].
  - exists [Expired i (Some p)]. split; [reflexivity|]. repeat constructor; auto.
  - exists [Invoked (length (promises w)) (token (api w)); Expired i None].
    split; [reflexivity|]. repeat constructor; auto.
Qed.

Lemma renewal_branch_history i w :
  attempts_of i (log (renewal_branch i w)) = attempts_of i (log w)
  /\ proofs_of i (log (renewal_branch i w)) = proofs_of i (log w)
  /\ has_expired i (log (renewal_branch i w)) = true.
Proof.
  destruct (renewal_branch_cases i w) as [(p & _ & ->)|[_ ->]]; cbn;
    now rewrite Nat.eqb_refl.
Qed.

Lemma trans_histories_ok w w' : consistent w -> trans w w' -> histories_ok w'.
Proof.
  intros [_ _ _ _ Hh] Ht j.
  destruct Ht as [t evs Hmv|i old t evs Hi Hmv|i old t Hi _ Hex|q s Hq|q s Hq]; cbn.
  - (* a call is made *)
    rewrite lookup_spawn. destruct (decide (j = length (tasks w))) as [->|Hne].
    + specialize (Hh (length (tasks w))).
      rewrite lookup_ge_None_2 in Hh by lia. destruct Hh as (Hr & Hp & He & Hno).
      unfold history_ok. inversion Hmv; subst; cbn;
        rewrite ?Nat.eqb_refl, ?Hr, ?Hp, ?He; auto.
    + apply history_ok_foreign; [|apply Hh].
      eapply move_foreign; eauto.
  - (* a task moves *)
    rewrite (lookup_set_task _ _ _ _ _ Hi). destruct (decide (i = j)) as [<-|Hne].
    + specialize (Hh i). rewrite Hi in Hh. unfold history_ok in *.
      inversion Hmv; subst; cbn in *; rewrite ?Nat.eqb_refl;
        repeat match goal with
               | H : _ /\ _ |- _ => destruct H
               | H : _ \/ _ |- _ => destruct H
               end;
        repeat match goal with
               | H : attempts_of _ _ = _ |- _ => rewrite H in *; clear H
               | H : proofs_of _ _ = _ |- _ => rewrite H in *; clear H
               | H : has_expired _ _ = _ |- _ => rewrite H in *; clear H
               | H : attempt _ = _ |- _ => rewrite H in *; clear H
               end; cbn; subst; auto 10.
    + apply history_ok_foreign; [|apply Hh].
      eapply move_foreign; eauto.
  - (* a task takes the renewal branch *)
    rewrite renewal_branch_tasks, (lookup_set_task _ _ _ _ _ Hi).
    destruct (decide (i = j)) as [<-|Hne].
    + specialize (Hh i). rewrite Hi in Hh. unfold history_ok in *. cbn.
      destruct (renewal_branch_history i w) as (-> & -> & ->).
      inversion Hex; subst; cbn in *;
        repeat match goal with
               | H : _ /\ _ |- _ => destruct H
               | H : _ \/ _ |- _ => destruct H
               end; try lia;
        repeat match goal with
               | H : attempts_of _ _ = _ |- _ => rewrite H in *; clear H
               | H : proofs_of _ _ = _ |- _ => rewrite H in *; clear H
               | H : attempt _ = _ |- _ => rewrite H in *; clear H
               end; cbn; auto 10.
    + destruct (renewal_branch_log i w) as (evs & -> & Hf).
      apply (history_ok_foreign _ _ (Awaits i (target w) :: evs)); [|apply Hh].
      constructor; [exact Hne|auto].
  - apply Hh.
  - apply (history_ok_foreign _ _ [Cleared q (token (api w))]); [|apply Hh].
    repeat constructor.
Qed.

(** The invariants hold of a client as constructed, and so of every world an
    execution reaches. *)
Lemma init_consistent tok cb : consistent (init tok cb).
Proof.
  split.
  - intros i id a c pt. cbn. now rewrite lookup_nil.
  - intros p. unfold unsettled. cbn. rewrite lookup_nil.
    split; [discriminate | intros [[=]|[s [=]]]].
  - split; cbn; auto;
      try (intros; exfalso; eapply not_elem_of_nil; eassumption);
      try (intros p Hp; lia); try (intros p s; now rewrite lookup_nil).
  - split; cbn; try discriminate;
      try (intros i t p; now rewrite lookup_nil);
      try (intros i p Hin; exfalso; eapply not_elem_of_nil; eassumption).
  - intros i. cbn. rewrite lookup_nil. cbn. repeat split; auto.
    intros p. apply not_elem_of_nil.
Qed.

Lemma trans_consistent w w' : consistent w -> trans w w' -> consistent w'.
Proof.
  intros Hc Ht. split;
    eauto using trans_inner_calls, trans_marker_ok, trans_renewals_ok,
                trans_awaits_ok, trans_histories_ok.
Qed.

Lemma step_consistent w a w' : consistent w -> step w a = Some w' -> consistent w'.
Proof.
  intros Hc Hs. eapply trans_consistent; eauto. eapply step_trans; eauto. apply Hc.
Qed.

Lemma run_cons a rest w w' :
  run (a :: rest) w = Some w' <-> exists w1, step w a = Some w1 /\ run rest w1 = Some w'.
Proof.
  cbn. destruct (step w a) as [w1|]; cbn; split.
  - eauto.
  - now intros (? & [= <-] & ?).
  - discriminate.
  - now intros (? & [=] & _).
Qed.

Lemma run_consistent schedule w w' :
  consistent w -> run schedule w = Some w' -> consistent w'.
Proof.
  revert w. induction schedule as [|a rest IH]; intros w Hc.
  - now intros [= <-].
  - intros (w1 & Hs & Hr)%run_cons. eauto using step_consistent.
Qed.

Lemma reachable_consistent tok cb schedule w :
  run schedule (init tok cb) = Some w -> consistent w.
Proof. apply run_consistent, init_consistent. Qed.

(** *** When the callers see their tokens expire together *)













End CoralInvariants.

(** ** The Coral client: the renewal of an expired token *)
Section CoralRenewal.
Import Coral.

(** *** The executions of the examples *)

(** A retried request that meets a token-expired envelope again: the call
    fails with the error of the envelope, and no third request is sent. *)
Example second_expiry_is_terminal :
  let w := after (retried ++ [ResponseArrives 0 (inr (envelope TOKEN_EXPIRED))]) in
  tasks w = [Done (Thrown (ErrorResponse "[znc] Unknown error" (envelope TOKEN_EXPIRED)
                             (inr {| status := TOKEN_EXPIRED; errorMessage := None;
                                     result := "result";
                                     correlationId := "correlation" |})))]
  /\ attempts_of 0 (log w) = [1; 0]%Z
  /\ invocations (log w) = 1.
Proof. repeat split. Qed.

(** The same on the device-proof path: two device proofs, two requests, one
    renewal, and the second failure is thrown. *)
Example web_service_token_second_failure :
  let w := after web_service_token_twice in
  tasks w = [Done (Thrown (ErrorResponse "[znc] Unknown error" (envelope TOKEN_EXPIRED)
                             (inr {| status := TOKEN_EXPIRED; errorMessage := None;
                                     result := "result";
                                     correlationId := "correlation" |})))]
  /\ proofs_of 0 (log w) = [1; 0]%Z
  /\ attempts_of 0 (log w) = [0; 0]%Z
  /\ invocations (log w) = 1.
Proof. repeat split. Qed.

(** Two callers and a renewal that fails: both fail with the reason of the
    renewal, nothing is retried, the marker is null and the token is the old
    one. *)
Example renewal_failure_reaches_both_callers :
  let w := after (failing ++ [FinallyRuns 0; RenewTokenSettles 1; RenewTokenSettles 0]) in
  tasks w = [Done (Thrown (OtherError "invalid_grant"));
             Done (Thrown (OtherError "invalid_grant"))]
  /\ api w = {| token := "T0"; onTokenExpired := Some Injected; _renewToken := None |}
  /\ retry_bearers (log w) = []
  /\ invocations (log w) = 1.
Proof. repeat split. Qed.

(** Two callers whose tokens expire together: one renewal, and both retry
    with its token. *)
Example together_one_renewal :
  let w := after together in
  expirations (log w) = [(1, Some 0); (0, None)]
  /\ invocations (log w) = 1
  /\ retry_bearers (log w) = ["T1"; "T1"]%string
  /\ token (api w) = "T1"%string.
Proof. repeat split. Qed.




(** C3.  When the callback of a renewal fails with [e]: the token is the one
    the callback was called with, before the [finally] handler runs and when
    it runs; that handler can run, and it sets [_renewToken] to null and
    leaves the token alone, so that a call made next sends the token of
    before; every caller that awaited the promise is still waiting or has
    failed with [e]; and a caller that waits fails with [e] when it resumes,
    without a request and without touching the client. *)
Theorem renewal_failure_atomic tok cb schedule w p e :
  run schedule (init tok cb) = Some w ->
  renewal_failed w p e ->
  exists before,
    Invoked p before ∈ log w
    /\ (promises w !! p = Some (ThenRan (Rejected e)) ->
        token (api w) = before
        /\ exists w', step w (FinallyRuns p) = Some w'
             /\ _renewToken (api w') = None
             /\ token (api w') = before
             /\ promises w' !! p = Some (FinallyRan (Rejected e))
             /\ forall c, exists w'',
                  step w' (CallFetch c) = Some w''
                  /\ log w'' = Request (length (tasks w')) c before :: log w')
    /\ (promises w !! p = Some (FinallyRan (Rejected e)) ->
        Cleared p before ∈ log w /\ _renewToken (api w) <> Some p)
    /\ (forall i, Awaits i p ∈ log w ->
          awaiting w i p \/ tasks w !! i = Some (Done (Thrown e)))
    /\ (forall i, awaiting w i p ->
          promises w !! p = Some (FinallyRan (Rejected e)) ->
          step w (RenewTokenSettles i) = Some (set_task i (Done (Thrown e)) w)
          /\ tasks (set_task i (Done (Thrown e)) w) !! i = Some (Done (Thrown e))).
Proof.
  intros Hrun Hfail.
  pose proof (reachable_consistent _ _ _ _ Hrun) as [Hin Hm Hr Ha _].
  assert (Hlt : p < length (promises w))
    by (destruct Hfail as [H|H]; apply lookup_lt_Some in H; exact H).
  destruct (invoked_all _ Hr _ Hlt) as [before Hbefore].
  exists before. split; [exact Hbefore|]. split; [|split; [|split]].
  - intros Hp. assert (Htok : token (api w) = before) by (apply (token_kept _ Hr p); eauto).
    split; [exact Htok|]. cbn. rewrite Hp. eexists. split; [reflexivity|]. cbn.
    repeat split; auto.
    + apply list_lookup_insert_eq. exact Hlt.
    + intros c. eexists. split; [reflexivity|]. cbn. now rewrite Htok.
  - intros Hp. split; [eapply cleared_kept; eauto|].
    intros Hmk. apply Hm in Hmk. destruct Hmk as [?|[? ?]]; congruence.
  - intros i Hi. apply (awaits_settled _ Ha) in Hi.
    destruct Hfail as [H|H]; rewrite H in Hi; cbn in Hi; auto.
  - intros i (t & Ht & Haw) Hp.
    assert (Hs : settled w p = Some (Rejected e)) by (unfold settled; now rewrite Hp).
    split.
    + cbn. rewrite Ht.
      destruct t as [c [q|]|id a [q|]|id a|id a c [q|]|o]; cbn in Haw; simplify_eq.
      * now rewrite Hs.
      * now rewrite Hs.
      * destruct (Hin _ _ _ _ _ Ht) as (_ & _ & [=]).
    + cbn. apply list_lookup_insert_eq. eapply lookup_lt_Some, Ht.
Qed.

(** The two callers of [failing], once the callback has failed. *)
Lemma renewal_failure_atomic_witness :
  run failing (init "T0" (Some Injected)) = Some (after failing)
  /\ renewal_failed (after failing) 0 (OtherError "invalid_grant")
  /\ exists before,
       Invoked 0 before ∈ log (after failing)
       /\ (promises (after failing) !! 0
           = Some (ThenRan (Rejected (OtherError "invalid_grant"))) ->
           token (api (after failing)) = before
           /\ exists w', step (after failing) (FinallyRuns 0) = Some w'
                /\ _renewToken (api w') = None
                /\ token (api w') = before
                /\ promises w' !! 0
                   = Some (FinallyRan (Rejected (OtherError "invalid_grant")))
                /\ forall c, exists w'',
                     step w' (CallFetch c) = Some w''
                     /\ log w'' = Request (length (tasks w')) c before :: log w')
       /\ (promises (after failing) !! 0
           = Some (FinallyRan (Rejected (OtherError "invalid_grant"))) ->
           Cleared 0 before ∈ log (after failing)
           /\ _renewToken (api (after failing)) <> Some 0)
       /\ (forall i, Awaits i 0 ∈ log (after failing) ->
             awaiting (after failing) i 0
             \/ tasks (after failing) !! i
                = Some (Done (Thrown (OtherError "invalid_grant"))))
       /\ (forall i, awaiting (after failing) i 0 ->
             promises (after failing) !! 0
             = Some (FinallyRan (Rejected (OtherError "invalid_grant"))) ->
             step (after failing) (RenewTokenSettles i)
             = Some (set_task i (Done (Thrown (OtherError "invalid_grant")))
                       (after failing))
             /\ tasks (set_task i (Done (Thrown (OtherError "invalid_grant")))
                         (after failing)) !! i
                = Some (Done (Thrown (OtherError "invalid_grant")))).
Proof.
  split; [reflexivity|]. split; [left; reflexivity|].
  apply (renewal_failure_atomic "T0" (Some Injected) failing (after failing) 0
           (OtherError "invalid_grant")); [reflexivity | left; reflexivity].
Defined.

(** *** At most one retry *)

(** [fetch_response] on a token-expired envelope: without the renewal branch
    it throws the error of the envelope, with it the call starts again. *)
Lemma fetch_response_expired me c response data w :
  token_expired response data ->
  autoRenewToken c && (attempt c =? 0)%Z && has_onTokenExpired (api w) = false ->
  fetch_response me c (inr response) w
  = (w, Finish (Thrown (envelope_error response data))).
Proof.
  intros (Hs & Hj & Hst) Hb. unfold fetch_response, envelope_error.
  rewrite Hs, Hj, Hst. cbn.
  destruct (autoRenewToken c), (attempt c =? 0)%Z, (has_onTokenExpired (api w));
    try discriminate; cbn; destruct (errorMessage data); reflexivity.
Qed.

Lemma fetch_response_renews me c response data w :
  token_expired response data ->
  autoRenewToken c = true -> attempt c = 0%Z -> has_onTokenExpired (api w) = true ->
  fetch_response me c (inr response) w
  = (emit (Awaits me (target w)) (renewal_branch me w),
     Suspend (next_attempt c) (AwaitRenewToken (target w))).
Proof.
  intros (Hs & Hj & Hst) Ha Hz Hcb. unfold fetch_response.
  rewrite Hs, Hj, Hst, Ha, Hz, Hcb. cbn.
  fold (renewal_branch me w). now apply fetch_enter_renewal_branch.
Qed.

Lemma envelope_error_status response data :
  error_status (envelope_error response data) = Some (status data).
Proof. unfold envelope_error. now destruct (errorMessage data). Qed.

(** C2.  A caller sends at most two requests, the second with the attempt
    counter at 1 after a first at 0, and [getWebServiceToken] computes at
    most two device proofs, with its counter at 0 and then at 1.  A call of
    [fetch] whose first request (counter 0) meets a token-expired envelope
    is called again with the counter at 1, and so is [getWebServiceToken]
    when its first call fails so and a callback is configured; once the
    retried request is out, whatever arrives settles the call, and a
    token-expired envelope settles it with the error of that envelope. *)
Theorem retried_at_most_once tok cb schedule w i :
  run schedule (init tok cb) = Some w ->
  (length (attempts_of i (log w)) <= 1
   \/ attempts_of i (log w) = [1; 0]%Z
   \/ (attempts_of i (log w) = [0; 0]%Z /\ proofs_of i (log w) = [1; 0]%Z))
  /\ (length (proofs_of i (log w)) <= 1 \/ proofs_of i (log w) = [1; 0]%Z)
  /\ (forall c response data,
        tasks w !! i = Some (Fetch c AwaitResponse) ->
        attempt c = 0%Z -> autoRenewToken c = true ->
        has_onTokenExpired (api w) = true ->
        token_expired response data ->
        step w (ResponseArrives i (inr response))
        = Some (set_task i (Fetch (next_attempt c) (AwaitRenewToken (target w)))
                  (emit (Awaits i (target w)) (renewal_branch i w)))
        /\ attempt (next_attempt c) = 1%Z)
  /\ (forall c,
        tasks w !! i = Some (Fetch c AwaitResponse) ->
        attempts_of i (log w) = [1; 0]%Z ->
        (forall r, exists o, step w (ResponseArrives i r) = Some (set_task i (Done o) w))
        /\ (forall response data,
              token_expired response data ->
              step w (ResponseArrives i (inr response))
              = Some (set_task i (Done (Thrown (envelope_error response data))) w)))
  /\ (forall id c response data,
        tasks w !! i = Some (WebServiceTokenCall id 0 c AwaitResponse) ->
        has_onTokenExpired (api w) = true ->
        token_expired response data ->
        step w (ResponseArrives i (inr response))
        = Some (set_task i (WebServiceTokenRenew id 1 (Some (target w)))
                  (emit (Awaits i (target w)) (renewal_branch i w))))
  /\ (forall id a c,
        tasks w !! i = Some (WebServiceTokenCall id a c AwaitResponse) ->
        proofs_of i (log w) = [1; 0]%Z ->
        (forall r, exists o, step w (ResponseArrives i r) = Some (set_task i (Done o) w))
        /\ (forall response data,
              token_expired response data ->
              step w (ResponseArrives i (inr response))
              = Some (set_task i (Done (Thrown (envelope_error response data))) w))).
Proof.
  intros Hrun.
  pose proof (reachable_consistent _ _ _ _ Hrun) as [Hin _ _ _ Hh].
  specialize (Hh i). unfold history_ok in Hh.
  split; [|split; [|split; [|split; [|split]]]].
  - destruct (tasks w !! i) as [[c [p|]|id a aw|id a|id a c pt|o]|];
      intuition (try congruence);
      repeat match goal with H : _ = _ |- _ => rewrite H end; cbn; auto.
  - destruct (tasks w !! i) as [[c [p|]|id a aw|id a|id a c pt|o]|];
      intuition (try congruence);
      repeat match goal with H : _ = _ |- _ => rewrite H end; cbn; auto; try lia.
  - intros c response data Ht Hz Ha Hcb Hexp. split; [|cbn; lia].
    cbn [step]. rewrite Ht. now rewrite (fetch_response_renews _ _ _ _ _ Hexp Ha Hz Hcb).
  - intros c Ht Hreq. rewrite Ht, Hreq in Hh.
    destruct Hh as (_ & [([=] & _)|(_ & Hatt & _)]).
    assert (Hz : (attempt c =? 0)%Z = false) by (rewrite Hatt; reflexivity).
    split.
    + intros r. cbn [step]. rewrite Ht.
      destruct (fetch_response_cases i c r w) as [[o ->]|(_ & Hz' & _)];
        [eauto | congruence].
    + intros response data Hexp. cbn [step]. rewrite Ht.
      rewrite (fetch_response_expired _ _ _ _ _ Hexp); [reflexivity|].
      rewrite Hz. now destruct (autoRenewToken c).
  - intros id c response data Ht Hcb Hexp.
    destruct (Hin _ _ _ _ _ Ht) as (Hauto & _).
    cbn [step]. rewrite Ht.
    rewrite (fetch_response_expired _ _ _ _ _ Hexp) by now rewrite Hauto.
    cbn. rewrite envelope_error_status, Hcb.
    destruct Hexp as (_ & _ & ->). cbn.
    fold (renewal_branch i w). now rewrite getWebServiceToken_enter_renewal_branch.
  - intros id a c Ht Hpr. rewrite Ht, Hpr in Hh.
    destruct (Hin _ _ _ _ _ Ht) as (Hauto & _).
    destruct Hh as [(_ & [=] & _)|(_ & _ & -> & _)].
    split.
    + intros r. cbn [step]. rewrite Ht.
      destruct (fetch_response_cases i c r w) as [[o ->]|(Hauto' & _)];
        [|congruence].
      cbn. destruct o as [res|err]; cbn; [eauto|].
      rewrite andb_false_r. cbn. eauto.
    + intros response data Hexp. cbn [step]. rewrite Ht.
      rewrite (fetch_response_expired _ _ _ _ _ Hexp) by now rewrite Hauto.
      cbn. now rewrite andb_false_r.
Qed.

(** The caller of [retried], whose retried request is out. *)
Lemma retried_at_most_once_witness :
  run retried (init "T0" (Some Injected)) = Some (after retried)
  /\ ((length (attempts_of 0 (log (after retried))) <= 1
   \/ attempts_of 0 (log (after retried)) = [1; 0]%Z
   \/ (attempts_of 0 (log (after retried)) = [0; 0]%Z /\ proofs_of 0 (log (after retried)) = [1; 0]%Z))
  /\ (length (proofs_of 0 (log (after retried))) <= 1 \/ proofs_of 0 (log (after retried)) = [1; 0]%Z)
  /\ (forall c response data,
        tasks (after retried) !! 0 = Some (Fetch c AwaitResponse) ->
        attempt c = 0%Z -> autoRenewToken c = true ->
        has_onTokenExpired (api (after retried)) = true ->
        token_expired response data ->
        step (after retried) (ResponseArrives 0 (inr response))
        = Some (set_task 0 (Fetch (next_attempt c) (AwaitRenewToken (target (after retried))))
                  (emit (Awaits 0 (target (after retried))) (renewal_branch 0 (after retried))))
        /\ attempt (next_attempt c) = 1%Z)
  /\ (forall c,
        tasks (after retried) !! 0 = Some (Fetch c AwaitResponse) ->
        attempts_of 0 (log (after retried)) = [1; 0]%Z ->
        (forall r, exists o, step (after retried) (ResponseArrives 0 r) = Some (set_task 0 (Done o) (after retried)))
        /\ (forall response data,
              token_expired response data ->
              step (after retried) (ResponseArrives 0 (inr response))
              = Some (set_task 0 (Done (Thrown (envelope_error response data))) (after retried))))
  /\ (forall id c response data,
        tasks (after retried) !! 0 = Some (WebServiceTokenCall id 0 c AwaitResponse) ->
        has_onTokenExpired (api (after retried)) = true ->
        token_expired response data ->
        step (after retried) (ResponseArrives 0 (inr response))
        = Some (set_task 0 (WebServiceTokenRenew id 1 (Some (target (after retried))))
                  (emit (Awaits 0 (target (after retried))) (renewal_branch 0 (after retried)))))
  /\ (forall id a c,
        tasks (after retried) !! 0 = Some (WebServiceTokenCall id a c AwaitResponse) ->
        proofs_of 0 (log (after retried)) = [1; 0]%Z ->
        (forall r, exists o, step (after retried) (ResponseArrives 0 r) = Some (set_task 0 (Done o) (after retried)))
        /\ (forall response data,
              token_expired response data ->
              step (after retried) (ResponseArrives 0 (inr response))
              = Some (set_task 0 (Done (Thrown (envelope_error response data))) (after retried))))).
Proof.
  split; [reflexivity|].
  apply (retried_at_most_once "T0" (Some Injected) retried (after retried) 0).
  reflexivity.
Defined.

End CoralRenewal.

(** ** The Coral client: more invariants of an execution *)
Section CoralExecutions.
Import Coral CoralHistory.

(** A property that every transition keeps holds of every world an
    execution reaches. *)
Lemma run_invariant (P : World -> Prop) tok cb :
  P (init tok cb) ->
  (forall w w', consistent w -> P w -> trans w w' -> P w') ->
  forall schedule w, run schedule (init tok cb) = Some w -> P w.
Proof.
  intros Hinit Hkeep schedule.
  assert (Hgen : forall w0, consistent w0 -> P w0 ->
                            forall w, run schedule w0 = Some w -> P w).
  { induction schedule as [|a rest IH]; intros w0 Hc HP w.
    - now intros [= <-].
    - intros (w1 & Hs & Hr)%run_cons. apply (IH w1); auto.
      + eauto using step_consistent.
      + eapply Hkeep; eauto. eapply step_trans; eauto. apply Hc. }
  intros w. apply Hgen; auto using init_consistent.
Qed.

(** X1.  In every execution at most one renewal is unsettled at a time, and
    [_renewToken] holds a promise exactly while that promise is unsettled:
    when it is null every renewal that was begun has been cleared. *)
Theorem one_renewal_in_flight tok cb schedule w :
  run schedule (init tok cb) = Some w ->
  (forall p, _renewToken (api w) = Some p <-> unsettled w p)
  /\ (forall p q, unsettled w p -> unsettled w q -> p = q)
  /\ (_renewToken (api w) = None ->
      forall p st, promises w !! p = Some st -> exists s, st = FinallyRan s).
Proof.
  intros Hrun. pose proof (reachable_consistent _ _ _ _ Hrun) as [_ Hm _ _ _].
  split; [exact Hm|]. split.
  - intros p q. now apply unsettled_marker.
  - intros Hnone p st Hp. destruct st as [|s|s]; [| |eauto].
    + assert (Hu : unsettled w p) by now left. apply Hm in Hu. congruence.
    + assert (Hu : unsettled w p) by (right; eauto). apply Hm in Hu. congruence.
Qed.

(** The two callers of [failing], while the callback has failed and the
    [finally] handler has not run. *)
Lemma one_renewal_in_flight_witness :
  run failing (init "T0" (Some Injected)) = Some (after failing)
  /\ ((forall p, _renewToken (api (after failing)) = Some p <-> unsettled (after failing) p)
      /\ (forall p q, unsettled (after failing) p -> unsettled (after failing) q -> p = q)
      /\ (_renewToken (api (after failing)) = None ->
          forall p st, promises (after failing) !! p = Some st ->
                       exists s, st = FinallyRan s)).
Proof.
  split; [reflexivity|].
  apply (one_renewal_in_flight "T0" (Some Injected) failing (after failing)).
  reflexivity.
Defined.

Lemma move_leaders w i o t evs l :
  move w i o t evs ->
  leaders (evs ++ l) = leaders l /\ expirations (evs ++ l) = expirations l.
Proof.
  intros Hmv.
  destruct (move_events _ _ _ _ _ Hmv) as [->|[[q ->]|[[c ->]|[a ->]]]]; auto.
Qed.

(** X2.  In every execution the callback has been called once for each
    caller that took the renewal branch and found [_renewToken] null, and
    never by one that found it set: such a caller awaits the promise it
    found. *)
Theorem callback_called_by_leaders tok cb schedule w :
  run schedule (init tok cb) = Some w ->
  invocations (log w) = leaders (log w)
  /\ length (promises w) = leaders (log w)
  /\ (forall i p, (i, Some p) ∈ expirations (log w) ->
        Awaits i p ∈ log w /\ p < length (promises w)).
Proof.
  intros Hrun.
  assert (HP : invocations (log w) = leaders (log w)
               /\ forall i p, (i, Some p) ∈ expirations (log w) -> Awaits i p ∈ log w).
  { revert schedule w Hrun. apply run_invariant.
    - split; [reflexivity|]. cbn. intros i p Hin. now apply not_elem_of_nil in Hin.
    - intros w w' Hc [Hn Hj] Ht.
      destruct Ht as [t evs Hmv|i old t evs Hi Hmv|i old t Hi _ Hex|q s Hq|q s Hq]; cbn.
      + destruct (move_leaders _ _ _ _ _ (log w) Hmv) as [-> ->].
        rewrite (move_invocations _ _ _ _ _ _ Hmv). split; [exact Hn|].
        intros j p Hin. apply elem_of_app. auto.
      + destruct (move_leaders _ _ _ _ _ (log w) Hmv) as [-> ->].
        rewrite (move_invocations _ _ _ _ _ _ Hmv). split; [exact Hn|].
        intros j p Hin. apply elem_of_app. auto.
      + unfold target.
        destruct (renewal_branch_cases i w) as [(p & Hp & ->)|[Hnone ->]]; cbn.
        * rewrite Hp. split; [exact Hn|]. intros j q.
          rewrite !elem_of_cons. intros [[= -> ->]|Hin]; auto.
        * rewrite Hnone. split; [now rewrite Hn|]. intros j q.
          rewrite !elem_of_cons. intros [[=]|Hin]; auto 6.
      + split; assumption.
      + split; [exact Hn|]. intros j p Hin. apply elem_of_cons. auto. }
  pose proof (reachable_consistent _ _ _ _ Hrun) as [_ _ Hr Ha _].
  destruct HP as [Hn Hj]. split; [exact Hn|]. split.
  - rewrite <- Hn. symmetry. apply (invoked_count _ Hr).
  - intros i p Hin. split; [auto|].
    apply Hj, (awaits_settled _ Ha) in Hin.
    destruct (promises w !! p) as [st|] eqn:Hp; [|destruct Hin].
    eapply lookup_lt_Some, Hp.
Qed.

(** The two callers of [late]: each found [_renewToken] null. *)
Lemma callback_called_by_leaders_witness :
  run late (init "T0" (Some Injected)) = Some (after late)
  /\ (invocations (log (after late)) = leaders (log (after late))
      /\ length (promises (after late)) = leaders (log (after late))
      /\ (forall i p, (i, Some p) ∈ expirations (log (after late)) ->
            Awaits i p ∈ log (after late) /\ p < length (promises (after late)))).
Proof.
  split; [reflexivity|].
  apply (callback_called_by_leaders "T0" (Some Injected) late (after late)).
  reflexivity.
Defined.

End CoralExecutions.

(** ** The Coral client: the tokens that are used *)
Section CoralTokens.
Import Coral CoralHistory.





(** A caller that has not taken the renewal branch has sent one request and
    computed one device proof at most. *)
Lemma unexpired_once tok cb schedule w i :
  run schedule (init tok cb) = Some w ->
  has_expired i (log w) = false ->
  length (attempts_of i (log w)) <= 1 /\ length (proofs_of i (log w)) <= 1.
Proof.
  revert schedule w. apply (run_invariant (fun w =>
    has_expired i (log w) = false ->
    length (attempts_of i (log w)) <= 1 /\ length (proofs_of i (log w)) <= 1)).
  - cbn. lia.
  - intros w w' Hc IH Ht He.
    pose proof (trans_histories_ok _ _ Hc Ht i) as Hh'.
    pose proof (the_histories _ Hc i) as Hh.
    unfold history_ok in Hh, Hh'. rewrite He in Hh'.
    destruct (tasks w' !! i) as [[c [p|]|id a aw|id a|id a c pt|o]|] eqn:Hi';
      try (intuition (try congruence);
           repeat match goal with H : _ = _ |- _ => rewrite H end; cbn; lia).
    (* the caller has settled: now, or before *)
    clear Hh'.
    destruct Ht as [t evs Hmv|j old t evs Hj Hmv|j old t Hj _ Hex|q s Hq|q s Hq];
      cbn in *.
    + rewrite lookup_spawn in Hi'. destruct (decide _) as [->|Hne].
      * inversion Hmv; subst; discriminate.
      * destruct (foreign_history i evs (log w)) as (-> & -> & Hx & _);
          [eapply move_foreign; eauto|]. apply IH. now rewrite <- Hx.
    + rewrite (lookup_set_task _ _ _ _ _ Hj) in Hi'.
      destruct (decide (j = i)) as [->|Hne].
      * rewrite Hj in Hh. rewrite (move_has_expired _ _ _ _ _ _ _ Hmv) in He.
        rewrite He in Hh.
        inversion Hmv; subst; try discriminate; cbn;
          intuition (try congruence);
          repeat match goal with H : _ = _ |- _ => rewrite H end; cbn; lia.
      * destruct (foreign_history i evs (log w)) as (-> & -> & Hx & _);
          [eapply move_foreign; eauto|]. apply IH. now rewrite <- Hx.
    + rewrite renewal_branch_tasks, (lookup_set_task _ _ _ _ _ Hj) in Hi'.
      destruct (decide (j = i)) as [->|Hne].
      * inversion Hex; subst; discriminate.
      * destruct (renewal_branch_log j w) as (evs & Hl & Hf). rewrite Hl in *.
        destruct (foreign_history i (Awaits j (target w) :: evs) (log w))
          as (Hx1 & Hx2 & Hx3 & _); [constructor; [exact Hne|auto]|].
        cbn in Hx1, Hx2, Hx3. rewrite Hx1, Hx2. apply IH. now rewrite <- Hx3.
    + auto.
    + auto.
Qed.

(** X4.  A client without a callback never renews: in every execution its
    token, its promises and [_renewToken] stay as constructed, no caller
    takes the renewal branch, and every caller sends one request and computes
    one device proof at most. *)
Theorem no_callback_no_renewal tok schedule w :
  run schedule (init tok None) = Some w ->
  api w = api (init tok None)
  /\ promises w = []
  /\ expirations (log w) = []
  /\ forall i, length (attempts_of i (log w)) <= 1 /\ length (proofs_of i (log w)) <= 1.
Proof.
  intros Hrun.
  assert (HP : api w = api (init tok None) /\ promises w = []
               /\ expirations (log w) = [] /\ forall i, has_expired i (log w) = false).
  { revert schedule w Hrun. apply run_invariant.
    - repeat split.
    - intros w w' Hc (Ha & Hp & He & Hx) Ht.
      destruct Ht as [t evs Hmv|i old t evs Hi Hmv|i old t Hi Hcb Hex|q s Hq|q s Hq]; cbn.
      + destruct (move_leaders _ _ _ _ _ (log w) Hmv) as [_ ->].
        repeat split; auto. intros j. now rewrite (move_has_expired _ _ _ _ _ _ _ Hmv).
      + destruct (move_leaders _ _ _ _ _ (log w) Hmv) as [_ ->].
        repeat split; auto. intros j. now rewrite (move_has_expired _ _ _ _ _ _ _ Hmv).
      + rewrite Ha in Hcb. discriminate.
      + rewrite Hp in Hq. discriminate.
      + rewrite Hp in Hq. discriminate. }
  destruct HP as (Ha & Hp & He & Hx). repeat split; auto;
    eapply unexpired_once; eauto.
Qed.

(** A caller of [fetch] and one of [getWebServiceToken], whose tokens expire. *)
Lemma no_callback_no_renewal_witness :
  run unattended (init "T0" None) = Some (after_from (init "T0" None) unattended)
  /\ (api (after_from (init "T0" None) unattended) = api (init "T0" None)
      /\ promises (after_from (init "T0" None) unattended) = []
      /\ expirations (log (after_from (init "T0" None) unattended)) = []
      /\ forall i,
           length (attempts_of i (log (after_from (init "T0" None) unattended))) <= 1
           /\ length (proofs_of i (log (after_from (init "T0" None) unattended))) <= 1).
Proof.
  split; [reflexivity|].
  apply (no_callback_no_renewal "T0" unattended). reflexivity.
Defined.

End CoralTokens.

(** ** The Coral client: callers that wait, and callers that do not *)
Section CoralCallers.
Import Coral CoralHistory.

(** X5.  A call of [fetch] with [_autoRenewToken] false (the one [getToken]
    makes for the renewal itself) never waits for a renewal and never starts
    one: it sends its request at once, also while [_renewToken] is set; in
    every execution it stands at the [await] of its response with that one
    request sent, and whatever arrives settles it and leaves the client as
    it was. *)
Theorem unrenewed_call_never_waits tok cb schedule w :
  run schedule (init tok cb) = Some w ->
  (forall c, autoRenewToken c = false ->
     step w (CallFetch c)
     = Some (spawn (Fetch c AwaitResponse)
               (emit (Request (length (tasks w)) c (token (api w))) w)))
  /\ (forall i c point,
        tasks w !! i = Some (Fetch c point) -> autoRenewToken c = false ->
        point = AwaitResponse
        /\ attempts_of i (log w) = [attempt c]
        /\ has_expired i (log w) = false
        /\ (forall p, Awaits i p ∉ log w)
        /\ forall r, exists o, step w (ResponseArrives i r) = Some (set_task i (Done o) w)).
Proof.
  intros Hrun. split.
  - intros c Hc. cbn. unfold fetch_enter. rewrite Hc.
    now destruct (_renewToken (api w)).
  - assert (HP : forall i c point,
               tasks w !! i = Some (Fetch c point) -> autoRenewToken c = false ->
               point = AwaitResponse /\ forall p, Awaits i p ∉ log w).
    { revert schedule w Hrun. apply (run_invariant (fun w => forall i c point,
               tasks w !! i = Some (Fetch c point) -> autoRenewToken c = false ->
               point = AwaitResponse /\ forall p, Awaits i p ∉ log w)).
      - intros i c pt. cbn. now rewrite lookup_nil.
      - intros w w' Hc IH Ht j c pt.
        destruct Ht as [t evs Hmv|i old t evs Hi Hmv|i old t Hi _ Hex|q s Hq|q s Hq]; cbn.
        + rewrite lookup_spawn. destruct (decide _) as [->|Hne].
          * intros [= ->] Hauto.
            pose proof (the_histories _ Hc (length (tasks w))) as Hh.
            rewrite lookup_ge_None_2 in Hh by lia. destruct Hh as (_ & _ & _ & Hno).
            inversion Hmv; subst; [congruence|]. split; [reflexivity|].
            intros p [[=]|Hin]%elem_of_cons. now apply (Hno p).
          * intros Hj Hauto. destruct (IH _ _ _ Hj Hauto) as [-> Hno].
            split; [reflexivity|]. intros p Hin.
            apply (move_awaits _ _ _ _ _ _ _ _ Hmv) in Hin as [(_ & -> & _)|Hin];
              [congruence | now apply (Hno p)].
        + rewrite (lookup_set_task _ _ _ _ _ Hi). destruct (decide _) as [<-|Hne].
          * intros [= ->] Hauto.
            inversion Hmv; subst.
            destruct (IH _ _ _ Hi Hauto) as [[=] _].
          * intros Hj Hauto. destruct (IH _ _ _ Hj Hauto) as [-> Hno].
            split; [reflexivity|]. intros p Hin.
            apply (move_awaits _ _ _ _ _ _ _ _ Hmv) in Hin as [([=] & _)|Hin].
            now apply (Hno p).
        + rewrite renewal_branch_tasks, (lookup_set_task _ _ _ _ _ Hi).
          destruct (decide _) as [<-|Hne].
          * intros [= ->] Hauto. inversion Hex; subst. cbn in Hauto. congruence.
          * intros Hj Hauto. destruct (IH _ _ _ Hj Hauto) as [-> Hno].
            split; [reflexivity|]. intros p [[= -> _]|Hin]%elem_of_cons; [congruence|].
            destruct (renewal_branch_cases i w) as [(p' & _ & Hw)|[_ Hw]];
              rewrite Hw in Hin; cbn in Hin;
              rewrite ?elem_of_cons in Hin; intuition (try congruence); eapply Hno; eauto.
        + apply IH.
        + intros Hj Hauto. destruct (IH _ _ _ Hj Hauto) as [-> Hno].
          split; [reflexivity|]. intros p [[=]|Hin]%elem_of_cons. now apply (Hno p). }
    intros i c pt Hi Hauto. destruct (HP _ _ _ Hi Hauto) as [-> Hno].
    pose proof (reachable_consistent _ _ _ _ Hrun) as [_ _ _ Ha Hh].
    specialize (Hh i). rewrite Hi in Hh. cbn in Hh.
    assert (He : has_expired i (log w) = false).
    { destruct (has_expired i (log w)) eqn:He; [|reflexivity].
      destruct (expired_awaits _ Ha _ He) as [p Hp]. now destruct (Hno p). }
    rewrite He in Hh. destruct Hh as (_ & [(Hr & _)|(_ & _ & [=])]).
    repeat split; auto.
    intros r. cbn [step]. rewrite Hi.
    destruct (fetch_response_cases i c r w) as [[o ->]|(Hauto' & _)]; [eauto|congruence].
Qed.

(** The call of [getToken], made while the renewal is pending. *)
Lemma unrenewed_call_never_waits_witness :
  run renewing (init "T0" (Some Injected)) = Some (after renewing)
  /\ ((forall c, autoRenewToken c = false ->
         step (after renewing) (CallFetch c)
         = Some (spawn (Fetch c AwaitResponse)
                   (emit (Request (length (tasks (after renewing))) c
                            (token (api (after renewing)))) (after renewing))))
      /\ (forall i c point,
            tasks (after renewing) !! i = Some (Fetch c point) -> autoRenewToken c = false ->
            point = AwaitResponse
            /\ attempts_of i (log (after renewing)) = [attempt c]
            /\ has_expired i (log (after renewing)) = false
            /\ (forall p, Awaits i p ∉ log (after renewing))
            /\ forall r, exists o,
                 step (after renewing) (ResponseArrives i r)
                 = Some (set_task i (Done o) (after renewing)))).
Proof.
  split; [reflexivity|].
  apply (unrenewed_call_never_waits "T0" (Some Injected) renewing (after renewing)).
  reflexivity.
Defined.

Lemma run_step a rest w w1 : step w a = Some w1 -> run (a :: rest) w = run rest w1.
Proof. intros Hs. cbn [run]. now rewrite Hs. Qed.

(** A caller that awaits a settled promise goes on. *)
Lemma resume_awaiting w i t p s :
  inner_calls w -> tasks w !! i = Some t -> awaits t = Some p ->
  settled w p = Some s ->
  exists w' t', step w (RenewTokenSettles i) = Some w'
                /\ tasks w' !! i = Some t' /\ awaits t' = None.
Proof.
  intros Hin Hi Haw Hs. cbn [step]. rewrite Hi.
  assert (Hlt : i < length (tasks w)) by (eapply lookup_lt_Some, Hi).
  destruct t as [c [q|]|id a [q|]|id a|id a c [q|]|o]; cbn in Haw; simplify_eq.
  - rewrite Hs. cbn. destruct s as [d|e]; cbn;
      eexists _, _; (split; [reflexivity|]); cbn;
      (split; [apply list_lookup_insert_eq; exact Hlt | reflexivity]).
  - rewrite Hs. cbn. destruct s as [d|e]; cbn;
      eexists _, _; (split; [reflexivity|]); cbn;
      (split; [apply list_lookup_insert_eq; exact Hlt | reflexivity]).
  - destruct (Hin _ _ _ _ _ Hi) as (_ & _ & [=]).
Qed.

(** X6.  No caller waits on a renewal that cannot settle: in every execution
    a caller that awaits [_renewToken] awaits a promise that the client
    holds, and once the environment has settled the callback (with whatever
    outcome) the [finally] handler can run and the caller resumes, to send
    its request or to fail. *)
Theorem waiting_caller_resumes tok cb schedule w i t p s :
  run schedule (init tok cb) = Some w ->
  tasks w !! i = Some t -> awaits t = Some p ->
  p < length (promises w)
  /\ exists w' t', run (settling w i p s) w = Some w'
                   /\ tasks w' !! i = Some t' /\ awaits t' = None.
Proof.
  intros Hrun Hi Haw.
  pose proof (reachable_consistent _ _ _ _ Hrun) as [Hin _ _ Ha _].
  pose proof (awaits_settled _ Ha _ _ (awaiting_logged _ Ha _ _ _ Hi Haw)) as Hst.
  destruct (promises w !! p) as [st|] eqn:Hp; [|destruct Hst]. clear Hst.
  assert (Hlt : p < length (promises w)) by (eapply lookup_lt_Some, Hp).
  split; [exact Hlt|]. unfold settling. rewrite Hp.
  assert (Hfin : forall w1 s1, tasks w1 = tasks w ->
                   promises w1 !! p = Some (FinallyRan s1) ->
                   exists w' t', run [RenewTokenSettles i] w1 = Some w'
                                 /\ tasks w' !! i = Some t' /\ awaits t' = None).
  { intros w1 s1 Ht1 Hp1.
    destruct (resume_awaiting w1 i t p s1) as (w' & t' & Hs & Ht' & Haw'); auto.
    - intros j id a c pt. rewrite Ht1. apply Hin.
    - now rewrite Ht1.
    - unfold settled. now rewrite Hp1.
    - exists w', t'. split; [apply run_cons; exists w'; split; [exact Hs|reflexivity]|auto]. }
  assert (Hthen : forall w1 s1, tasks w1 = tasks w ->
                    promises w1 !! p = Some (ThenRan s1) ->
                    exists w' t', run [FinallyRuns p; RenewTokenSettles i] w1 = Some w'
                                  /\ tasks w' !! i = Some t' /\ awaits t' = None).
  { intros w1 s1 Ht1 Hp1.
    pose (w2 := {| api := set_renewToken (api w1) None;
                   promises := <[p := FinallyRan s1]> (promises w1);
                   tasks := tasks w1;
                   log := Cleared p (token (api w1)) :: log w1 |}).
    assert (Hstep : step w1 (FinallyRuns p) = Some w2) by (cbn [step]; now rewrite Hp1).
    destruct (Hfin w2 s1) as (w' & t' & Hr & Ht' & Haw'); [exact Ht1| |].
    - cbn. apply list_lookup_insert_eq. eapply lookup_lt_Some, Hp1.
    - exists w', t'. split; [|auto]. now rewrite (run_step _ _ _ _ Hstep). }
  destruct st as [|s1|s1].
  - pose (w2 := {| api := match s with
                          | Fulfilled (Some data) => setTokenWithSavedToken (api w) data
                          | _ => api w
                          end;
                   promises := <[p := ThenRan s]> (promises w);
                   tasks := tasks w;
                   log := log w |}).
    assert (Hstep : step w (CallbackSettles p s) = Some w2) by (cbn [step]; now rewrite Hp).
    destruct (Hthen w2 s) as (w' & t' & Hr & Ht' & Haw'); [reflexivity| |].
    + cbn. apply list_lookup_insert_eq. exact Hlt.
    + exists w', t'. split; [|auto]. now rewrite (run_step _ _ _ _ Hstep).
  - now apply (Hthen w s1).
  - now apply (Hfin w s1).
Qed.

(** Caller 1 of [failing], which joined the renewal of caller 0. *)
Lemma waiting_caller_resumes_witness :
  run failing (init "T0" (Some Injected)) = Some (after failing)
  /\ tasks (after failing) !! 1
     = Some (Fetch (next_attempt get_friends) (AwaitRenewToken 0))
  /\ awaits (Fetch (next_attempt get_friends) (AwaitRenewToken 0)) = Some 0
  /\ (0 < length (promises (after failing))
      /\ exists w' t',
           run (settling (after failing) 1 0 (Fulfilled None)) (after failing) = Some w'
           /\ tasks w' !! 1 = Some t' /\ awaits t' = None).
Proof.
  split; [reflexivity|]. split; [reflexivity|]. split; [reflexivity|].
  apply (waiting_caller_resumes "T0" (Some Injected) failing (after failing) 1
           (Fetch (next_attempt get_friends) (AwaitRenewToken 0)) 0 (Fulfilled None));
    reflexivity.
Defined.

End CoralCallers.

(** ** The Coral client: what a call returns *)
Section CoralResults.
Import Coral CoralHistory.

(** What [fetch_response] returns it has built from a response of status
    200 with an [OK] envelope that has no [errorMessage]. *)
Lemma fetch_response_genuine me c r w w' res :
  fetch_response me c r w = (w', Finish (Returned res)) -> genuine res.
Proof.
  unfold fetch_response.
  destruct r as [e|response]; [discriminate|].
  destruct (resp_status response =? 200)%Z eqn:Hs; cbn [negb]; [|discriminate].
  destruct (resp_json response) as [data|] eqn:Hj; [|discriminate].
  destruct (is_TOKEN_EXPIRED (Some (status data)) && autoRenewToken c
            && (attempt c =? 0)%Z && has_onTokenExpired (api w)) eqn:Hb.
  - fold (renewal_branch me w).
    apply andb_true_iff in Hb as [[[_ Ha]%andb_true_iff _]%andb_true_iff _].
    rewrite fetch_enter_renewal_branch; [discriminate|].
    exact Ha.
  - destruct (errorMessage data) eqn:Hm; [discriminate|].
    destruct (is_OK (status data)) eqn:Hok; cbn [negb]; [|discriminate].
    intros [= <- <-]. apply Z.eqb_eq in Hs.
    repeat split; cbn; auto. now destruct (status data).
Qed.

Lemma fetch_enter_suspends me c w : exists w' pt, fetch_enter me c w = (w', Suspend c pt).
Proof.
  unfold fetch_enter, fetch_send.
  destruct (_renewToken (api w)); [destruct (autoRenewToken c)|]; eauto.
Qed.

Lemma fetch_renewed_no_result me c s w w' res :
  fetch_renewed me c s w <> (w', Finish (Returned res)).
Proof. destruct s; cbn; unfold fetch_send; congruence. Qed.

Lemma getWebServiceToken_enter_waits me id a w w' o :
  getWebServiceToken_enter me id a w <> (w', Done o).
Proof. unfold getWebServiceToken_enter. destruct (_renewToken (api w)); congruence. Qed.

(** [getWebServiceToken] returns what the call it awaited returned. *)
Lemma getWebServiceToken_called_result me id a w n w' res :
  getWebServiceToken_called me id a (w, n) = (w', Done (Returned res)) ->
  n = Finish (Returned res).
Proof.
  cbn. destruct n as [c pt|[r|err]]; [discriminate| |].
  - now intros [= _ ->].
  - destruct (_ && _ && _); [|discriminate].
    intros H. now apply getWebServiceToken_enter_waits in H.
Qed.

Lemma fetch_task_result r w' res :
  fetch_task r = (w', Done (Returned res)) -> r = (w', Finish (Returned res)).
Proof. destruct r as [w n]. cbn. destruct n; now intros [= -> ->]. Qed.

Lemma fetch_task_tasks r : tasks (fetch_task r).1 = tasks r.1.
Proof. destruct r as [w [c pt|o]]; reflexivity. Qed.

Lemma fetch_enter_tasks me c w : tasks (fetch_enter me c w).1 = tasks w.
Proof.
  unfold fetch_enter, fetch_send.
  destruct (_renewToken (api w)); [destruct (autoRenewToken c)|]; reflexivity.
Qed.

Lemma fetch_renewed_tasks me c s w : tasks (fetch_renewed me c s w).1 = tasks w.
Proof. destruct s; reflexivity. Qed.

Lemma fetch_response_tasks me c r w : tasks (fetch_response me c r w).1 = tasks w.
Proof.
  destruct (fetch_response_cases me c r w) as [[o ->]|(_ & _ & _ & _ & ->)];
    cbn; auto using renewal_branch_tasks.
Qed.

Lemma getWebServiceToken_enter_tasks me id a w :
  tasks (getWebServiceToken_enter me id a w).1 = tasks w.
Proof. unfold getWebServiceToken_enter. now destruct (_renewToken (api w)). Qed.

Lemma getWebServiceToken_called_tasks me id a r :
  tasks (getWebServiceToken_called me id a r).1 = tasks r.1.
Proof.
  destruct r as [w1 n]. cbn. destruct n as [c pt|[r|err]]; cbn; auto.
  destruct (_ && _ && _); cbn; auto.
  fold (renewal_branch me w1). rewrite getWebServiceToken_enter_renewal_branch. cbn.
  now rewrite renewal_branch_tasks.
Qed.

Lemma getWebServiceToken_renewed_tasks me id a s w :
  tasks (getWebServiceToken_renewed me id a s w).1 = tasks w.
Proof. destruct s; reflexivity. Qed.

(** The result of a step: a task that has returned had returned before, or
    is the one that moved. *)
Lemma resumed_result w me old (r : World * Task) w' i res :
  tasks w !! me = Some old -> tasks r.1 = tasks w ->
  resume me r = Some w' ->
  tasks w' !! i = Some (Done (Returned res)) ->
  tasks w !! i = Some (Done (Returned res)) \/ r.2 = Done (Returned res).
Proof.
  destruct r as [w1 t]. cbn. intros Hme Ht1 [= <-]. cbn.
  rewrite Ht1, (lookup_set_task _ _ _ _ _ Hme).
  destruct (decide _); [intros [= ->]|]; auto.
Qed.

Lemma step_genuine w act w' :
  (forall i res, tasks w !! i = Some (Done (Returned res)) -> genuine res) ->
  step w act = Some w' ->
  forall i res, tasks w' !! i = Some (Done (Returned res)) -> genuine res.
Proof.
  intros IH Hstep i res Hi.
  destruct act as [c|id a|me|me r|me r uuid|p s|p]; cbn [step] in Hstep.
  - destruct (fetch_enter_suspends (length (tasks w)) c w) as (w1 & pt & He).
    pose proof (fetch_enter_tasks (length (tasks w)) c w) as Ht1.
    rewrite He in Hstep, Ht1. cbn in Hstep, Ht1. simplify_eq.
    cbn in Hi. rewrite Ht1, lookup_spawn in Hi.
    destruct (decide _); [discriminate | eauto].
  - destruct (getWebServiceToken_enter (length (tasks w)) id a w) as [w1 t] eqn:He.
    pose proof (getWebServiceToken_enter_tasks (length (tasks w)) id a w) as Ht1.
    rewrite He in Ht1. cbn in Ht1. simplify_eq.
    cbn in Hi. rewrite Ht1, lookup_spawn in Hi.
    destruct (decide _); [|eauto]. simplify_eq.
    now apply getWebServiceToken_enter_waits in He.
  - destruct (tasks w !! me) as [[c [p|] | id a [p|] | id a | id a c [p|] | o]|] eqn:Ht;
      try discriminate.
    + destruct (settled w p) as [s|]; [|discriminate]. cbn [mbind option_bind] in Hstep.
      destruct (resumed_result _ _ _ _ _ _ _ Ht
                  ltac:(rewrite fetch_task_tasks; apply fetch_renewed_tasks) Hstep Hi)
        as [Hold|Hnew]; [eauto|].
      destruct (fetch_task _) as [w1 t] eqn:Hf. cbn in Hnew. subst t.
      apply fetch_task_result in Hf. now apply fetch_renewed_no_result in Hf.
    + destruct (settled w p) as [s|]; [|discriminate]. cbn [mbind option_bind] in Hstep.
      destruct (resumed_result _ _ _ _ _ _ _ Ht
                  (getWebServiceToken_renewed_tasks _ _ _ _ _) Hstep Hi)
        as [Hold|Hnew]; [eauto|].
      destruct s; discriminate.
    + destruct (resumed_result _ _ _ _ _ _ _ Ht
                  (getWebServiceToken_renewed_tasks _ _ _ _ _) Hstep Hi)
        as [Hold|Hnew]; [eauto|discriminate].
    + destruct (settled w p) as [s|]; [|discriminate]. cbn [mbind option_bind] in Hstep.
      destruct (resumed_result _ _ _ _ _ _ _ Ht
                  ltac:(rewrite getWebServiceToken_called_tasks; apply fetch_renewed_tasks)
                  Hstep Hi) as [Hold|Hnew]; [eauto|].
      destruct (fetch_renewed me c s w) as [w1 n] eqn:Hn.
      destruct (getWebServiceToken_called me id a (w1, n)) as [w2 t] eqn:Hc.
      cbn in Hnew. subst t. apply getWebServiceToken_called_result in Hc. subst n.
      now apply fetch_renewed_no_result in Hn.
  - destruct (tasks w !! me) as [[c [p|] | id a [p|] | id a | id a c [p|] | o]|] eqn:Ht;
      try discriminate.
    + destruct (resumed_result _ _ _ _ _ _ _ Ht
                  ltac:(rewrite fetch_task_tasks; apply fetch_response_tasks) Hstep Hi)
        as [Hold|Hnew]; [eauto|].
      destruct (fetch_task _) as [w1 t] eqn:Hf. cbn in Hnew. subst t.
      apply fetch_task_result in Hf. eapply fetch_response_genuine; eauto.
    + destruct (resumed_result _ _ _ _ _ _ _ Ht
                  ltac:(rewrite getWebServiceToken_called_tasks; apply fetch_response_tasks)
                  Hstep Hi) as [Hold|Hnew]; [eauto|].
      destruct (fetch_response me c r w) as [w1 n] eqn:Hn.
      destruct (getWebServiceToken_called me id a (w1, n)) as [w2 t] eqn:Hc.
      cbn in Hnew. subst t. apply getWebServiceToken_called_result in Hc. subst n.
      eapply fetch_response_genuine; eauto.
  - destruct (tasks w !! me) as [[c [p|] | id a [p|] | id a | id a c [p|] | o]|] eqn:Ht;
      try discriminate.
    assert (Ht1 : tasks (getWebServiceToken_f me id a r uuid w).1 = tasks w).
    { destruct r as [e|data]; cbn [getWebServiceToken_f]; [reflexivity|].
      rewrite getWebServiceToken_called_tasks. apply fetch_enter_tasks. }
    destruct (resumed_result _ _ _ _ _ _ _ Ht Ht1 Hstep Hi) as [Hold|Hnew]; [eauto|].
    destruct r as [e|data]; cbn [getWebServiceToken_f] in Hnew; [discriminate|].
    set (c := call _ _ _ _) in Hnew.
    destruct (fetch_enter_suspends me c w) as (w1 & pt & He).
    rewrite He in Hnew. discriminate.
  - destruct (promises w !! p) as [[| |]|]; simplify_eq. eauto.
  - destruct (promises w !! p) as [[|s|]|]; simplify_eq. eauto.
Qed.

(** X7.  In every execution a call returns a result only for a response of
    status 200 whose envelope has the status [OK] and no [errorMessage], and
    the result is the [result] of that envelope with the response and the
    correlation id beside it: an error envelope is never returned as a
    result. *)
Theorem results_are_genuine tok cb schedule w i res :
  run schedule (init tok cb) = Some w ->
  tasks w !! i = Some (Done (Returned res)) ->
  genuine res.
Proof.
  intros Hrun. revert i res.
  assert (Hgen : forall w0,
            (forall i res, tasks w0 !! i = Some (Done (Returned res)) -> genuine res) ->
            run schedule w0 = Some w ->
            forall i res, tasks w !! i = Some (Done (Returned res)) -> genuine res).
  { clear Hrun. induction schedule as [|a rest IH]; intros w0 H0.
    - now intros [= <-].
    - intros (w1 & Hs & Hr)%run_cons. apply (IH w1); eauto using step_genuine. }
  apply (Hgen (init tok cb)); [|exact Hrun].
  intros i res Hx. cbn in Hx. first [discriminate | now rewrite lookup_nil in Hx].
Qed.

Lemma results_are_genuine_witness :
  run answered (init "T0" (Some Injected)) = Some (after answered)
  /\ (exists res, tasks (after answered) !! 0 = Some (Done (Returned res)))
  /\ forall res, tasks (after answered) !! 0 = Some (Done (Returned res)) -> genuine res.
Proof.
  split; [reflexivity|]. split; [eexists; reflexivity|].
  intros res. apply (results_are_genuine "T0" (Some Injected) answered). reflexivity.
Defined.

End CoralResults.

(** ** The Coral client: what a retry sends *)
Section CoralRetries.
Import Coral CoralHistory.

Lemma attempts_of_calls i l : attempts_of i l = map attempt (calls_of i l).
Proof.
  induction l as [|[j c tk|j a tk|j m|q tk|j q|q tk] l IH]; cbn; auto.
  destruct (j =? i)%nat; cbn; congruence.
Qed.

Lemma calls_of_nil i l : attempts_of i l = [] -> calls_of i l = [].
Proof. rewrite attempts_of_calls. now destruct (calls_of i l). Qed.

Lemma foreign_calls j evs l : Forall (foreign j) evs -> calls_of j (evs ++ l) = calls_of j l.
Proof.
  induction 1 as [|e evs He _ IH]; [reflexivity|].
  destruct e as [i c tk|i a tk|i m|q tk|i q|q tk]; cbn in *; auto.
  now rewrite (proj2 (Nat.eqb_neq _ _) He).
Qed.

Lemma renewal_branch_calls i j w :
  calls_of j (log (renewal_branch i w)) = calls_of j (log w).
Proof. destruct (renewal_branch_cases i w) as [(p & _ & ->)|[_ ->]]; reflexivity. Qed.

Lemma requests_ok_keep w w' :
  consistent w ->
  (forall i, proofs_of i (log w) = [] -> requests_ok (tasks w !! i) (calls_of i (log w))) ->
  trans w w' ->
  forall i, proofs_of i (log w') = [] -> requests_ok (tasks w' !! i) (calls_of i (log w')).
Proof.
  intros [_ _ _ _ Hh] IH Ht j.
  destruct Ht as [t evs Hmv|i old t evs Hi Hmv|i old t Hi _ Hex|q s Hq|q s Hq]; cbn;
    [| | |apply IH|apply IH].
  - (* a call is made *)
    rewrite lookup_spawn. destruct (decide _) as [->|Hne].
    + pose proof (Hh (length (tasks w))) as Hnew.
      rewrite (lookup_ge_None_2 (tasks w)) in Hnew by lia.
      destruct Hnew as (Hreq%calls_of_nil & _).
      inversion Hmv; subst; cbn; rewrite ?Nat.eqb_refl, ?Hreq; auto.
    + destruct (foreign_history j evs (log w)) as (_ & -> & _);
        [eapply move_foreign; eauto|].
      rewrite foreign_calls by (eapply move_foreign; eauto). apply IH.
  - (* a caller goes on *)
    rewrite (lookup_set_task _ _ _ _ _ Hi). destruct (decide _) as [<-|Hne].
    + pose proof (Hh i) as Hold. pose proof (IH i) as IHi. rewrite Hi in Hold, IHi.
      inversion Hmv; subst; cbn in *; rewrite ?Nat.eqb_refl; try discriminate; intros Hp;
        try (specialize (IHi Hp)); auto; try contradiction;
        try (destruct IHi as [->|(c0 & Hc & ->)]; now eauto 7);
        try (rewrite IHi; now auto).
    + destruct (foreign_history j evs (log w)) as (_ & -> & _);
        [eapply move_foreign; eauto|].
      rewrite foreign_calls by (eapply move_foreign; eauto). apply IH.
  - (* a caller takes the renewal branch *)
    rewrite renewal_branch_calls, renewal_branch_tasks.
    assert (Hpr : proofs_of j (log (renewal_branch i w)) = proofs_of j (log w)).
    { destruct (renewal_branch_cases i w) as [(p & _ & ->)|[_ ->]]; reflexivity. }
    rewrite Hpr. intros Hp. specialize (IH j Hp).
    rewrite (lookup_set_task _ _ _ _ _ Hi). destruct (decide _) as [<-|Hne]; [|exact IH].
    rewrite Hi in IH. destruct Hex as [c p Hauto Hatt|id c p]; cbn in *; [|contradiction].
    destruct IH as [->|(c0 & (-> & H0 & _) & _)]; [right; exists c; now repeat split|].
    cbn in Hatt. lia.
Qed.

(** X8.  A caller of [fetch] sends at most two requests, and the second is
    the first call again, with the same URL, method, body and headers and
    the attempt counter 1: a retry never sends another request than the one
    that met the expired token. *)
Theorem retry_repeats_request tok cb schedule w i :
  run schedule (init tok cb) = Some w ->
  proofs_of i (log w) = [] ->
  calls_of i (log w) = []
  \/ exists c0, calls_of i (log w) = [c0]
       \/ calls_of i (log w) = [next_attempt c0; c0]
          /\ attempt c0 = 0%Z /\ autoRenewToken c0 = true.
Proof.
  intros Hrun Hp.
  assert (HP : forall j, proofs_of j (log w) = [] ->
                         requests_ok (tasks w !! j) (calls_of j (log w))).
  { apply (run_invariant
             (fun w => forall j, proofs_of j (log w) = [] ->
                                 requests_ok (tasks w !! j) (calls_of j (log w)))
             tok cb) with schedule; [|intros; eapply requests_ok_keep; eauto|exact Hrun].
    intros j _. reflexivity. }
  specialize (HP i Hp).
  destruct (tasks w !! i) as [[c [p|]|id a aw|id a|id a c pt|o]|]; cbn in HP;
    auto; try contradiction.
  - destruct HP as [->|(c0 & _ & ->)]; eauto.
  - destruct HP as [->|(c0 & (-> & ? & ?) & ->)]; eauto 6.
  - destruct HP as [->|(c0 & [->|(c & (-> & ? & ?) & ->)])]; eauto 6.
Qed.

Lemma retry_repeats_request_witness :
  run answered (init "T0" (Some Injected)) = Some (after answered)
  /\ proofs_of 0 (log (after answered)) = []
  /\ calls_of 0 (log (after answered)) = [next_attempt get_friends; get_friends]
  /\ (calls_of 0 (log (after answered)) = []
      \/ exists c0, calls_of 0 (log (after answered)) = [c0]
           \/ calls_of 0 (log (after answered)) = [next_attempt c0; c0]
              /\ attempt c0 = 0%Z /\ autoRenewToken c0 = true).
Proof.
  split; [reflexivity|]. split; [reflexivity|]. split; [reflexivity|].
  apply (retry_repeats_request "T0" (Some Injected) answered (after answered) 0);
    reflexivity.
Defined.

End CoralRetries.

(** ** Friend codes *)
Section FriendCodes.
Import Coral FriendCode.

(** A string matches a pattern when it has the length of the pattern and
    each of its characters is in the class at its place. *)
Lemma test_spec pattern s :
  test pattern s = true
  <-> String.length s = length pattern
      /\ forall i a c, pattern !! i = Some a -> String.get i s = Some c -> accepts a c = true.
Proof.
  revert s. induction pattern as [|a pattern IH]; intros [|c s]; cbn.
  - split; [intros _; split; [reflexivity|]; now intros i a c [=] | reflexivity].
  - split; [discriminate | now intros [[=] _]].
  - split; [discriminate | now intros [[=] _]].
  - rewrite andb_true_iff, IH. split.
    + intros (Hc & Hlen & Hall). split; [now rewrite Hlen|].
      intros [|i] b d; cbn; [now intros [= <-] [= <-] | apply Hall].
    + intros (Hlen & Hall). split; [apply (Hall 0 a c); reflexivity|].
      split; [now injection Hlen | intros i b d; apply (Hall (S i))].
Qed.

Lemma get_lt i s c : String.get i s = Some c -> i < String.length s.
Proof.
  revert i. induction s as [|d s IH]; intros [|i]; cbn; try discriminate; try lia.
  intros H%IH. lia.
Qed.

(** X9.  [getUserByFriendCode] makes a call exactly when the friend code is
    twelve digits in groups of four with a hyphen after the fourth and the
    eighth, and the hash, when one is given and not empty, is ten letters
    or digits; any other input fails before a request is made.  An empty
    hash counts as none; the call carries the friend code as it was given
    and goes to the hash endpoint exactly when a hash is given. *)
Theorem getUserByFriendCode_validates (friend_code : string) (hash : option string)
    (uuid : string) :
  let well_formed :=
    String.length friend_code = 14
    /\ (forall i c, String.get i friend_code = Some c ->
          if decide (i = 4 \/ i = 9) then c = "-"%char else digit c = true)
    /\ (forall h, given hash = Some h ->
          String.length h = 10 /\ forall i c, String.get i h = Some c -> alnum c = true) in
  (well_formed ->
   exists c, getUserByFriendCode friend_code hash uuid = inr c
     /\ autoRenewToken c = true /\ attempt c = 0%Z /\ method c = "POST"%string
     /\ match given hash with
        | Some h =>
            url c = "/v3/Friend/GetUserByFriendCodeHash"%string
            /\ parameter_of c
               = [("friendCode", JString friend_code); ("friendCodeHash", JString h)]%string
        | None =>
            url c = "/v3/Friend/GetUserByFriendCode"%string
            /\ parameter_of c = [("friendCode", JString friend_code)]%string
        end)
  /\ (~ well_formed ->
      exists message, getUserByFriendCode friend_code hash uuid = inl (Error message)).
Proof.
  cbn zeta.
  assert (Hcode : test FRIEND_CODE friend_code = true
                  <-> String.length friend_code = 14
                      /\ forall i c, String.get i friend_code = Some c ->
                           if decide (i = 4 \/ i = 9) then c = "-"%char else digit c = true).
  { rewrite test_spec. split; intros [Hlen Hall]; (split; [exact Hlen|]).
    - intros i c Hc.
      pose proof (get_lt _ _ _ Hc) as Hi. rewrite Hlen in Hi. cbn in Hi.
      do 14 (destruct i as [|i];
             [match type of Hc with
              | String.get ?n _ = _ => specialize (Hall n _ c (eq_refl (Some _)) Hc)
              end; cbn in Hall; try exact Hall; now apply Ascii.eqb_eq in Hall|]).
      lia.
    - intros i a c Ha Hc. specialize (Hall i c Hc).
      do 14 (destruct i as [|i];
             [cbn in Ha; injection Ha as <-; cbn in Hall |- *;
              try exact Hall; now apply Ascii.eqb_eq|]).
      discriminate. }
  assert (Hhash : forall h, test FRIEND_CODE_HASH h = true
                  <-> String.length h = 10
                      /\ forall i c, String.get i h = Some c -> alnum c = true).
  { intros h. rewrite test_spec. split; intros [Hlen Hall]; (split; [exact Hlen|]).
    - intros i c Hc.
      pose proof (get_lt _ _ _ Hc) as Hi. rewrite Hlen in Hi. cbn in Hi.
      do 10 (destruct i as [|i];
             [match type of Hc with
              | String.get ?n _ = _ => exact (Hall n _ c (eq_refl (Some _)) Hc)
              end|]).
      lia.
    - intros i a c Ha Hc. specialize (Hall i c Hc).
      do 10 (destruct i as [|i]; [cbn in Ha; injection Ha as <-; exact Hall|]).
      discriminate. }
  unfold getUserByFriendCode. split.
  - intros (Hlen & Hall & Hh).
    rewrite (proj2 Hcode (conj Hlen Hall)). cbn [negb].
    destruct hash as [h|]; cbn [given] in *; [|eexists; now repeat split].
    destruct (truthy h); cbn [andb]; [|eexists; now repeat split].
    rewrite (proj2 (Hhash h) (Hh h eq_refl)). eexists; now repeat split.
  - intros Hno. case_eq (test FRIEND_CODE friend_code); intros Ht; cbn [negb]; [|eauto].
    destruct hash as [h|]; cbn [given] in *.
    + destruct (truthy h); cbn [andb].
      * case_eq (test FRIEND_CODE_HASH h); intros Hth; cbn [negb]; [|eauto].
        destruct Hno. apply Hcode in Ht as [Hlen Hall].
        split; [exact Hlen|]. split; [exact Hall|].
        intros h' [= <-]. now apply Hhash.
      * destruct Hno. apply Hcode in Ht as [Hlen Hall].
        split; [exact Hlen|]. split; [exact Hall|]. discriminate.
    + destruct Hno. apply Hcode in Ht as [Hlen Hall].
      split; [exact Hlen|]. split; [exact Hall|]. discriminate.
Qed.

Lemma getUserByFriendCode_validates_witness :
  (exists c, getUserByFriendCode sample_code (Some sample_hash) sample_uuid = inr c
     /\ autoRenewToken c = true /\ attempt c = 0%Z /\ method c = "POST"%string
     /\ url c = "/v3/Friend/GetUserByFriendCodeHash"%string
     /\ parameter_of c
        = [("friendCode"%string, JString sample_code);
           ("friendCodeHash"%string, JString sample_hash)])
  /\ getUserByFriendCode sample_code (Some EmptyString) sample_uuid
     = inr (call "/v3/Friend/GetUserByFriendCode"
              [("friendCode"%string, JString sample_code)] sample_uuid true).
Proof.
  split; [|reflexivity].
  apply (getUserByFriendCode_validates sample_code (Some sample_hash) sample_uuid).
  split; [reflexivity|]. split.
  - intros i c Hc. pose proof (get_lt _ _ _ Hc) as Hi. cbn in Hi.
    do 14 (destruct i as [|i]; [injection Hc as <-; reflexivity|]). lia.
  - intros h [= <-]. split; [reflexivity|].
    intros i c Hc. pose proof (get_lt _ _ _ Hc) as Hi. cbn in Hi.
    do 10 (destruct i as [|i]; [injection Hc as <-; reflexivity|]). lia.
Defined.

End FriendCodes.

(** ** The authorisation flow: what reaches the session token endpoint *)
Section AuthorisationFlows.
Import Na NaFlows.

Lemma differs_from_false x stored : differs_from x stored = false <-> x = Some stored.
Proof.
  destruct x as [s|]; cbn; [|split; discriminate].
  rewrite negb_false_iff, String.eqb_eq. split; congruence.
Qed.

Lemma state_differs_false x stored :
  state_differs x stored = false <-> x = StateString stored.
Proof.
  destruct x as [| |s]; cbn; try (split; discriminate).
  rewrite negb_false_iff, String.eqb_eq. split; congruence.
Qed.

Lemma getNintendoAccountSessionToken_sent net c v cid sent :
  snd (getNintendoAccountSessionToken net c v cid sent)
  = session_token_request c v cid :: sent.
Proof.
  unfold getNintendoAccountSessionToken.
  destruct (negb _); [reflexivity|]. now destruct (resp_json _).
Qed.

(** The lines after the [instanceof] block either throw and leave
    everything as it was, or record the arguments and make the request. *)
Lemma getSessionToken_tail_cases net this outer code st sent :
  let o := getSessionToken_tail net this outer code st sent in
  (sent_after o = sent /\ this_after o = this /\ exists e, settled o = inl e)
  \/ ((st = StateUndefined \/ st = StateString (auth_state this))
      /\ exists c, code = Some c /\ c <> EmptyString
           /\ this_after o = set_result this {| result_state := outer; result_code := c |}
           /\ sent_after o = session_token_request c (auth_verifier this) (client_id this)
                             :: sent
           /\ settled o
              = fst (getNintendoAccountSessionToken net c (auth_verifier this)
                       (client_id this) sent)).
Proof.
  unfold getSessionToken_tail.
  destruct (negb (is_undefined st) && state_differs st (auth_state this)) eqn:Hst;
    [left; cbn; eauto|].
  assert (Hok : st = StateUndefined \/ st = StateString (auth_state this)).
  { apply andb_false_iff in Hst as [Hu%negb_false_iff|Hd%state_differs_false]; auto.
    destruct st; try discriminate; auto. }
  destruct code as [[|ch c]|]; [left; cbn; eauto| |left; cbn; eauto].
  right. split; [exact Hok|]. exists (String ch c).
  pose proof (getNintendoAccountSessionToken_sent net (String ch c)
                (auth_verifier this) (client_id this) sent) as Hs.
  cbn [auth_verifier client_id set_result].
  destruct (getNintendoAccountSessionToken _ _ _ _ _) as [r sent']. cbn in *.
  now repeat split.
Qed.

Lemma getSessionToken_cases net this code st sent :
  let o := getSessionToken net this code st sent in
  (sent_after o = sent /\ this_after o = this /\ exists e, settled o = inl e)
  \/ (result this = None
      /\ match code with
         | CodeParams qs => get "state" qs = Some (auth_state this) /\ has "error" qs = false
         | _ => st = StateUndefined \/ st = StateString (auth_state this)
         end
      /\ exists c, callback_code code = Some c /\ c <> EmptyString
           /\ this_after o = set_result this {| result_state := st; result_code := c |}
           /\ sent_after o = session_token_request c (auth_verifier this) (client_id this)
                             :: sent
           /\ settled o
              = fst (getNintendoAccountSessionToken net c (auth_verifier this)
                       (client_id this) sent)).
Proof.
  unfold getSessionToken. destruct (result this) as [r|] eqn:Hr; [left; cbn; eauto|].
  destruct code as [c|qs|].
  - destruct (getSessionToken_tail_cases net this st (Some c) st sent)
      as [?|(Hst & c' & [= <-] & H)]; [now left|right; eauto 7].
  - destruct (differs_from (get "state" qs) (auth_state this)) eqn:Hd; [left; cbn; eauto|].
    apply differs_from_false in Hd.
    destruct (has "error" qs) eqn:He; [left; cbn; eauto|].
    destruct (getSessionToken_tail_cases net this st (get "session_token_code" qs)
                StateUndefined sent) as [?|(_ & c' & Hc & H)]; [now left|right; eauto 7].
  - destruct (getSessionToken_tail_cases net this st None st sent)
      as [?|(_ & c' & [=] & _)]; now left.
Qed.

(** X10.  Whatever callbacks a flow is given, one after the other, at most
    one request is made to the session token endpoint; it carries the
    verifier and the client id of the flow and a code that is not empty, and
    it is made only while the flow has no result. *)
Theorem one_exchange_per_flow (l : list Callback) (this : NintendoAccountSessionAuthorisation)
    (sent : Sent) :
  callbacks l this sent = (this, sent)
  \/ exists c st,
       c <> EmptyString /\ result this = None
       /\ callbacks l this sent
          = (set_result this {| result_state := st; result_code := c |},
             session_token_request c (auth_verifier this) (client_id this) :: sent).
Proof.
  revert this sent. induction l as [|cb l IH]; intros this sent; [now left|].
  cbn [callbacks].
  destruct (getSessionToken_cases (answers cb) this (code_arg cb) (state_arg cb) sent)
    as [(-> & -> & _)|(Hr & _ & c & _ & Hc & -> & -> & _)]; [apply IH|].
  right. exists c, (state_arg cb). split; [exact Hc|]. split; [exact Hr|].
  destruct (IH (set_result this {| result_state := state_arg cb; result_code := c |})
              (session_token_request c (auth_verifier this) (client_id this) :: sent))
    as [->|(c' & st' & _ & [=] & _)]; reflexivity.
Qed.

(** X11.  A request is made only for an input that passed every check: the
    flow had no result; a query string carried the stored state and no
    [error] parameter, a raw pair the stored state or none at all; and the
    code was a string that is not empty.  The flow then records that code
    with the second argument of the call as it was given, which for a query
    string is not the state the query string carried. *)
Theorem getSessionToken_request_checked net (this : NintendoAccountSessionAuthorisation)
    (code : CodeArg) (st : StateArg) (sent : Sent) :
  let o := getSessionToken net this code st sent in
  sent_after o <> sent ->
  result this = None
  /\ match code with
     | CodeParams qs => get "state" qs = Some (auth_state this) /\ has "error" qs = false
     | _ => st = StateUndefined \/ st = StateString (auth_state this)
     end
  /\ exists c, callback_code code = Some c /\ c <> EmptyString
       /\ sent_after o = session_token_request c (auth_verifier this) (client_id this) :: sent
       /\ result (this_after o) = Some {| result_state := st; result_code := c |}.
Proof.
  intros o Hsent. subst o.
  destruct (getSessionToken_cases net this code st sent)
    as [(Hs & _)|(Hr & Hin & c & Hc & Hne & Ht & Hs & _)]; [contradiction|].
  split; [exact Hr|]. split; [exact Hin|]. exists c. rewrite Ht. now repeat split.
Qed.

Lemma getSessionToken_request_checked_witness :
  let o := getSessionToken granting pending_flow (CodeParams (granted pending_flow))
             (StateString "ignored") [] in
  sent_after o <> []
  /\ (result pending_flow = None
      /\ (get "state" (granted pending_flow) = Some (auth_state pending_flow)
          /\ has "error" (granted pending_flow) = false)
      /\ exists c, callback_code (CodeParams (granted pending_flow)) = Some c
           /\ c <> EmptyString
           /\ sent_after o
              = [session_token_request c (auth_verifier pending_flow)
                   (client_id pending_flow)]
           /\ result (this_after o)
              = Some {| result_state := StateString "ignored"; result_code := c |}).
Proof.
  split; [discriminate|].
  apply (getSessionToken_request_checked granting pending_flow
           (CodeParams (granted pending_flow)) (StateString "ignored") []).
  discriminate.
Defined.

(** X12.  A redirect that carries the stored state and an [error] parameter
    is a refusal, whatever else it carries: the call fails with an
    authorisation error whose code is the value of the first [error]
    parameter and whose message is the [error_description], or the code
    without one; no request is made and the flow is left without a result,
    so that it can still be completed. *)
Theorem getSessionToken_refused net (this : NintendoAccountSessionAuthorisation)
    (qs : URLSearchParams) (st : StateArg) (sent : Sent) (e : string) :
  result this = None ->
  get "state" qs = Some (auth_state this) ->
  get "error" qs = Some e ->
  let o := getSessionToken net this (CodeParams qs) st sent in
  settled o = inl (NintendoAccountSessionAuthorisationError e
                     match get "error_description" qs with Some m => m | None => e end)
  /\ sent_after o = sent
  /\ this_after o = this
  /\ forall net' c, c <> EmptyString ->
       sent_after (getSessionToken net' (this_after o) (CodeString c) StateUndefined sent)
       = session_token_request c (auth_verifier this) (client_id this) :: sent.
Proof.
  intros Hr Hst He. cbn zeta.
  assert (Ho : getSessionToken net this (CodeParams qs) st sent
               = throw this
                   (NintendoAccountSessionAuthorisationError e
                      match get "error_description" qs with Some m => m | None => e end)
                   sent).
  { unfold getSessionToken. rewrite Hr, (proj2 (differs_from_false _ _) Hst).
    unfold has, fromSearchParams. now rewrite He. }
  rewrite Ho. cbn [settled sent_after this_after throw].
  split; [reflexivity|]. split; [reflexivity|]. split; [reflexivity|].
  intros net' c Hc.
  destruct (getSessionToken_cases net' this (CodeString c) StateUndefined sent)
    as [(_ & _ & err & Herr)|(_ & _ & c' & [= <-] & _ & _ & Hs & _)]; [|exact Hs].
  unfold getSessionToken in Herr. rewrite Hr in Herr.
  unfold getSessionToken_tail in Herr. cbn in Herr.
  destruct c as [|ch c]; [contradiction|].
  pose proof (getNintendoAccountSessionToken_sent net' (String ch c)
                (auth_verifier this) (client_id this) sent) as Hs.
  unfold getSessionToken, getSessionToken_tail. rewrite Hr. cbn.
  destruct (getNintendoAccountSessionToken _ _ _ _ _) as [r sent']. exact Hs.
Qed.

Lemma getSessionToken_refused_witness :
  let o := getSessionToken granting pending_flow (CodeParams denied) StateUndefined [] in
  settled o = inl (NintendoAccountSessionAuthorisationError "access_denied" "access_denied")
  /\ sent_after o = []
  /\ this_after o = pending_flow
  /\ forall net' c, c <> EmptyString ->
       sent_after (getSessionToken net' (this_after o) (CodeString c) StateUndefined [])
       = [session_token_request c (auth_verifier pending_flow) (client_id pending_flow)].
Proof.
  apply (getSessionToken_refused granting pending_flow denied StateUndefined []
           "access_denied"); reflexivity.
Defined.

(** X13.  The flow that [create] makes and the redirect that answers it are
    bound by PKCE from end to end: the state the redirect has to carry is
    the [state] parameter of the URL the user was sent to, and the verifier
    of the request that exchanges the code is the string whose SHA-256
    digest, in base64url, is the challenge of that URL. *)
Theorem create_callback_pkce (g : Rng) (cid : string) (sc : Scope) (redirect : option string)
    net (qs : URLSearchParams) (st : StateArg) (sent : Sent) :
  let flow := fst (create g cid sc redirect) in
  let r := match redirect with Some r => r | None => default_redirect_uri cid end in
  let o := getSessionToken net flow (CodeParams qs) st sent in
  sent_after o <> sent ->
  exists c v,
    sent_after o = session_token_request c v cid :: sent
    /\ get "session_token_code" qs = Some c
    /\ get "state" qs = Some (auth_state flow)
    /\ authorise_url flow
       = (authorize_endpoint
          ++ toString (authorize_params (auth_state flow) r cid
                         (ScopeString (scope_string sc))
                         (Base64Url.encode (Sha256.digest (list_byte_of_string v)))))%string.
Proof.
  intros flow r o Hsent. subst o.
  destruct (getSessionToken_cases net flow (CodeParams qs) st sent)
    as [(Hs & _)|(_ & [Hst _] & c & Hc & _ & _ & Hs & _)]; [contradiction|].
  exists c, (auth_verifier flow). repeat split; auto.
Qed.

Lemma create_callback_pkce_witness :
  let flow := fst (create counting "71b963c1b7b6d119" (ScopeArray ["openid"; "user"]%string)
                     None) in
  let o := getSessionToken granting flow (CodeParams (granted flow)) StateUndefined [] in
  sent_after o <> []
  /\ exists c v,
       sent_after o = [session_token_request c v "71b963c1b7b6d119"]
       /\ get "session_token_code" (granted flow) = Some c
       /\ get "state" (granted flow) = Some (auth_state flow)
       /\ authorise_url flow
          = (authorize_endpoint
             ++ toString (authorize_params (auth_state flow)
                            (default_redirect_uri "71b963c1b7b6d119") "71b963c1b7b6d119"
                            (ScopeString (scope_string (ScopeArray ["openid"; "user"]%string)))
                            (Base64Url.encode (Sha256.digest (list_byte_of_string v)))))%string.
Proof.
  assert (Hsent : sent_after
                    (getSessionToken granting
                       (fst (create counting "71b963c1b7b6d119"
                               (ScopeArray ["openid"; "user"]%string) None))
                       (CodeParams
                          (granted (fst (create counting "71b963c1b7b6d119"
                                           (ScopeArray ["openid"; "user"]%string) None))))
                       StateUndefined []) <> []) by (vm_compute; discriminate).
  split; [exact Hsent|].
  exact (create_callback_pkce counting "71b963c1b7b6d119"
           (ScopeArray ["openid"; "user"]%string) None granting _ StateUndefined [] Hsent).
Defined.

Lemma split_on_free sep s : occurs sep s = false -> split_on sep s = [s].
Proof.
  induction s as [|c s IH]; cbn; [reflexivity|].
  intros [Hc Hs]%orb_false_iff. now rewrite Hc, (IH Hs).
Qed.

Lemma split_on_app sep a b :
  occurs sep a = false -> split_on sep (a ++ String sep b) = a :: split_on sep b.
Proof.
  induction a as [|c a IH]; cbn; [now rewrite Ascii.eqb_refl|].
  intros [Hc Ha]%orb_false_iff. now rewrite Hc, (IH Ha).
Qed.

Lemma occurs_app sep a b : occurs sep (a ++ b) = occurs sep a || occurs sep b.
Proof. induction a as [|c a IH]; cbn; [reflexivity|]. now rewrite IH, orb_assoc. Qed.

Lemma append_assoc (a b c : string) : ((a ++ b) ++ c = a ++ b ++ c)%string.
Proof. induction a as [|x a IH]; cbn; [reflexivity | now rewrite IH]. Qed.

Lemma hex_upper_plain n : hex_upper n <> "&"%char /\ hex_upper n <> "="%char.
Proof.
  unfold hex_upper. generalize (N.to_nat n) as m. intros m.
  do 16 (destruct m as [|m]; [split; discriminate|]).
  cbn. destruct m; split; discriminate.
Qed.

Lemma form_encode_plain s :
  occurs "&" (form_encode s) = false /\ occurs "=" (form_encode s) = false.
Proof.
  induction s as [|c s [IH1 IH2]]; cbn [form_encode]; [split; reflexivity|].
  destruct (form_unreserved c) eqn:Hu.
  - cbn [occurs]. rewrite IH1, IH2.
    destruct c as [[] [] [] [] [] [] [] []]; try discriminate Hu; split; reflexivity.
  - destruct (Ascii.eqb c " "); cbn [occurs]; rewrite ?IH1, ?IH2; [split; reflexivity|].
    destruct (hex_upper_plain (N_of_ascii c / 16)) as [Ha1 Ha2].
    destruct (hex_upper_plain (N_of_ascii c mod 16)) as [Hb1 Hb2].
    apply Ascii.eqb_neq in Ha1, Ha2, Hb1, Hb2.
    rewrite Ha1, Ha2, Hb1, Hb2. split; reflexivity.
Qed.

(** X14.  A serialised query string reads back as the fields it was made
    of: split at [&] and then at [=], it gives the encoded name and value
    of each parameter, in order, and nothing else.  No name or value,
    whatever characters it holds, adds or ends a parameter of the authorise
    URL or of the body of the session token request. *)
Theorem toString_fields (qs : URLSearchParams) :
  qs <> [] ->
  map (split_on "=") (split_on "&" (toString qs))
  = map (fun p => [form_encode (fst p); form_encode (snd p)]) qs.
Proof.
  assert (Hpair : forall k v,
            occurs "&" (form_encode k ++ String "=" (form_encode v)) = false
            /\ split_on "=" (form_encode k ++ String "=" (form_encode v))
               = [form_encode k; form_encode v]).
  { intros k v. destruct (form_encode_plain k) as [Hk1 Hk2].
    destruct (form_encode_plain v) as [Hv1 Hv2]. split.
    - rewrite occurs_app. cbn. now rewrite Hk1, Hv1.
    - rewrite split_on_app by exact Hk2. now rewrite split_on_free. }
  induction qs as [|[k v] qs IH]; [congruence|]. intros _.
  destruct qs as [|p qs].
  - cbn [toString map fst snd]. destruct (Hpair k v) as [H1 H2].
    change (form_encode k ++ "=" ++ form_encode v)%string
      with (form_encode k ++ String "=" (form_encode v))%string.
    rewrite split_on_free by exact H1. cbn [map]. now rewrite H2.
  - change (toString ((k, v) :: p :: qs))
      with (form_encode k ++ "=" ++ form_encode v ++ "&" ++ toString (p :: qs))%string.
    destruct (Hpair k v) as [H1 H2].
    replace (form_encode k ++ "=" ++ form_encode v ++ "&" ++ toString (p :: qs))%string
      with ((form_encode k ++ String "=" (form_encode v))
            ++ String "&" (toString (p :: qs)))%string.
    + rewrite split_on_app by exact H1. cbn [map fst snd]. rewrite H2.
      f_equal. apply IH. discriminate.
    + now rewrite append_assoc.
Qed.

(** The body of the session token request for a code that holds an [&]
    and an [=]. *)
Lemma toString_fields_witness :
  map (split_on "=")
    (split_on "&" (req_body (session_token_request forged_code "verifier" "client")))
  = [ ["client_id"; "client"]; ["session_token_code"; "x%26client_id%3Dother"];
      ["session_token_code_verifier"; "verifier"] ]%string.
Proof.
  exact (toString_fields
           [ ("client_id", "client"); ("session_token_code", forged_code);
             ("session_token_code_verifier", "verifier") ]%string
           ltac:(discriminate)).
Defined.

End AuthorisationFlows.

(** ** Logging in and renewing *)
Section LoggingIn.
Import Login.

(** How the credential is read in a result. *)
Variable webApiServerCredential : string -> Coral.Credential.

Lemma bind_inr {A B} (m : M A) (k : A -> M B) trace b trace' :
  bind m k trace = (inr b, trace') ->
  exists a t, m trace = (inr a, t) /\ k a t = (inr b, trace').
Proof. unfold bind. destruct (m trace) as [[e|a] t]; [discriminate | eauto]. Qed.

Lemma await_inr {A} e (r : JsError + A) trace a trace' :
  await e r trace = (inr a, trace') -> r = inr a /\ trace' = e :: trace.
Proof. unfold await. now intros [= -> <-]. Qed.

(** For a call made with [_autoRenewToken = false], [fetch] as the event
    loop runs it settles as [fetch_unrenewed] says, whatever the state of
    the client. *)
Lemma fetch_response_unrenewed me c response w :
  Coral.autoRenewToken c = false ->
  Coral.fetch_response me c (inr response) w
  = (w, Coral.Finish (fetch_unrenewed response)).
Proof.
  intros Hc. unfold Coral.fetch_response, fetch_unrenewed.
  destruct (negb _); [reflexivity|].
  destruct (Coral.resp_json response) as [data|]; [|reflexivity].
  rewrite Hc, andb_false_r. cbn [andb].
  destruct (Coral.errorMessage data); [reflexivity|].
  now destruct (negb _).
Qed.

Lemma fetch_unrenewed_returned response result :
  fetch_unrenewed response = Coral.Returned result ->
  CoralHistory.genuine result /\ Coral.ResponseSymbol result = response.
Proof.
  unfold fetch_unrenewed, CoralHistory.genuine.
  destruct (negb (Coral.resp_status response =? 200)%Z) eqn:Hs; [discriminate|].
  apply negb_false_iff, Z.eqb_eq in Hs.
  destruct (Coral.resp_json response) as [data|] eqn:Hj; [|discriminate].
  destruct (Coral.errorMessage data) eqn:He; [discriminate|].
  destruct (Coral.status data) eqn:Hst; cbn; try discriminate.
  intros [= <-]. cbn. now repeat split.
Qed.

Lemma getNintendoAccountToken_inr env tok cid trace t trace' :
  getNintendoAccountToken env tok cid trace = (inr t, trace') ->
  trace' = Fetched (token_request tok cid) :: trace
  /\ exists response,
       token_endpoint env (token_request tok cid) = inr response
       /\ resp_status response = 200%Z /\ resp_json response = Some (TokenOk t).
Proof.
  unfold getNintendoAccountToken.
  intros (response & t1 & [Hr ->]%await_inr & H)%bind_inr.
  destruct (negb (resp_status response =? 200)%Z) eqn:Hs; [discriminate|].
  apply negb_false_iff, Z.eqb_eq in Hs.
  apply bind_inr in H as (j & t2 & Hj & H). unfold json in Hj.
  destruct (resp_json response) as [j'|] eqn:Hjson; [|discriminate].
  injection Hj as -> <-.
  destruct j as [t'|error d|code detail]; try discriminate.
  injection H as -> <-. eauto 6.
Qed.

Lemma getNintendoAccountToken_trace env tok cid trace :
  snd (getNintendoAccountToken env tok cid trace)
  = Fetched (token_request tok cid) :: trace.
Proof.
  unfold getNintendoAccountToken, bind, await.
  destruct (token_endpoint env _) as [e|response]; [reflexivity|].
  destruct (negb _); [reflexivity|]. unfold json.
  destruct (resp_json response) as [[t|error d|code detail]|]; reflexivity.
Qed.

Lemma getNintendoAccountUser_inr env t trace u trace' :
  getNintendoAccountUser env t trace = (inr u, trace') ->
  trace' = Fetched (user_request t) :: trace
  /\ exists response,
       user_endpoint env (user_request t) = inr response
       /\ resp_status response = 200%Z /\ resp_json response = Some (UserOk u).
Proof.
  unfold getNintendoAccountUser.
  intros (response & t1 & [Hr ->]%await_inr & H)%bind_inr.
  destruct (negb (resp_status response =? 200)%Z) eqn:Hs; [discriminate|].
  apply negb_false_iff, Z.eqb_eq in Hs.
  apply bind_inr in H as (j & t2 & Hj & H). unfold json in Hj.
  destruct (resp_json response) as [j'|] eqn:Hjson; [|discriminate].
  injection Hj as -> <-.
  destruct j as [u'|code detail]; try discriminate.
  injection H as -> <-. eauto 6.
Qed.

Lemma call_unrenewed_inr env this url parameter trace result trace' :
  call_unrenewed env this url parameter trace = (inr result, trace') ->
  let c := Coral.call url parameter (uuidgen env) false in
  trace' = Called c (token this) (znca_version this) (znca_useragent this) :: trace
  /\ coral_endpoint env c (token this) = inr (Coral.ResponseSymbol result)
  /\ CoralHistory.genuine result.
Proof.
  unfold call_unrenewed.
  intros (response & t1 & [Hr ->]%await_inr & H)%bind_inr.
  destruct (fetch_unrenewed response) as [res|e] eqn:Hf; [|discriminate].
  injection H as -> <-. apply fetch_unrenewed_returned in Hf as [Hg <-].
  cbn zeta. split; [reflexivity|]. split; assumption.
Qed.

Lemma login_config_of_success env session_token ua trace data trace' :
  loginWithSessionToken webApiServerCredential env session_token ua trace
  = (inr data, trace') ->
  exists config,
    remote_config env = Some config
    /\ data_znca_version data = config_znca_version config
    /\ data_znca_useragent data = login_useragent config.
Proof.
  unfold loginWithSessionToken. destruct (remote_config env) as [config|]; [|discriminate].
  intros (nat & t1 & _ & H)%bind_inr.
  apply bind_inr in H as (u & t2 & _ & H).
  apply bind_inr in H as (fd & t3 & _ & H).
  apply bind_inr in H as (response & t4 & _ & H).
  destruct (negb _); [discriminate|].
  destruct (Coral.resp_json response) as [envelope|]; [|discriminate].
  destruct (Coral.errorMessage envelope); [discriminate|].
  destruct (negb _); [discriminate|].
  injection H as <- <-. eauto.
Qed.

(** X15.  [loginWithSessionToken] succeeds only when the remote
    configuration allows Coral and the token endpoint, the user endpoint,
    the device proof and the login endpoint succeeded, in that order and
    each once.  The device proof is computed over the id token that is sent
    to the login endpoint, with the version of the remote configuration;
    the birthday, country and language sent are those of the profile just
    fetched; and the credential returned is the one in the [result] of an
    envelope of status [OK] without [errorMessage]. *)
Theorem loginWithSessionToken_success env (session_token : string) (ua : option string)
    (trace : list Effect) (data : CoralAuthData) (trace' : list Effect) :
  loginWithSessionToken webApiServerCredential env session_token ua trace
  = (inr data, trace') ->
  exists config granted profile response envelope,
    let options := {| platform := ZNCA_PLATFORM;
                      version := config_znca_version config;
                      useragent_option := ua |} in
    let request :=
      login_request config
        (AccountLoginParameter (nintendoAccountToken data) (user data) (fdata data)) in
    remote_config env = Some config
    /\ token_endpoint env (token_request session_token ZNCA_CLIENT_ID) = inr granted
    /\ resp_status granted = 200%Z
    /\ resp_json granted = Some (TokenOk (nintendoAccountToken data))
    /\ user_endpoint env (user_request (nintendoAccountToken data)) = inr profile
    /\ resp_status profile = 200%Z
    /\ resp_json profile = Some (UserOk (user data))
    /\ trace' = (Fetched request
                 :: Proved (id_token (nintendoAccountToken data)) CORAL options
                 :: Fetched (user_request (nintendoAccountToken data))
                 :: Fetched (token_request session_token ZNCA_CLIENT_ID) :: trace)
    /\ f env (id_token (nintendoAccountToken data)) CORAL options = inr (fdata data)
    /\ login_endpoint env request = inr response
    /\ Coral.resp_status response = 200%Z
    /\ Coral.resp_json response = Some envelope
    /\ Coral.status envelope = Coral.OK
    /\ Coral.errorMessage envelope = None
    /\ credential data = webApiServerCredential (Coral.result envelope)
    /\ data_znca_version data = config_znca_version config
    /\ data_znca_useragent data = login_useragent config.
Proof.
  unfold loginWithSessionToken. destruct (remote_config env) as [config|]; [|discriminate].
  intros (nat & t1 & [-> (granted & Hg1 & Hg2 & Hg3)]%getNintendoAccountToken_inr & H)%bind_inr.
  apply bind_inr in H as (u & t2 & [-> (profile & Hu1 & Hu2 & Hu3)]%getNintendoAccountUser_inr & H).
  apply bind_inr in H as (fd & t3 & [Hf ->]%await_inr & H).
  apply bind_inr in H as (response & t4 & [Hl ->]%await_inr & H).
  destruct (negb (Coral.resp_status response =? 200)%Z) eqn:Hs; [discriminate|].
  apply negb_false_iff, Z.eqb_eq in Hs.
  destruct (Coral.resp_json response) as [envelope|] eqn:Hj; [|discriminate].
  destruct (Coral.errorMessage envelope) eqn:He; [discriminate|].
  destruct (Coral.status envelope) eqn:Hst; cbn in H; try discriminate.
  injection H as <- <-. exists config, granted, profile, response, envelope. cbn.
  now repeat split.
Qed.

Lemma getToken_effects env this session_token u trace :
  exists effects,
    snd (getToken webApiServerCredential env this session_token u trace)
    = (effects ++ trace)%list
    /\ length effects <= 3
    /\ Forall (renewal_effect this session_token) effects.
Proof.
  unfold getToken, bind at 1.
  pose proof (getNintendoAccountToken_trace env session_token ZNCA_CLIENT_ID trace) as Ht.
  destruct (getNintendoAccountToken env session_token ZNCA_CLIENT_ID trace) as [[e|nat] t1];
    cbn in Ht; subst t1.
  - exists [Fetched (token_request session_token ZNCA_CLIENT_ID)].
    split; [reflexivity|]. split; [cbn; lia|]. now repeat constructor.
  - unfold bind at 1, await.
    destruct (f env (id_token nat) CORAL _) as [e|fd].
    + eexists [Proved _ _ _; Fetched _]. split; [reflexivity|]. split; [cbn; lia|].
      now repeat constructor.
    + unfold bind, call_unrenewed, bind, await.
      eexists [Called _ _ _ _; Proved _ _ _; Fetched _]. split; [|split; [cbn; lia|]].
      * destruct (coral_endpoint env _ _) as [e|response]; [reflexivity|].
        destruct (fetch_unrenewed response); reflexivity.
      * now repeat constructor.
Qed.

(** X16.  [getToken] does not fetch the profile: whatever the environment
    answers, it makes at most the request of the Nintendo Account token
    endpoint, one device proof for Coral with the version of the client,
    and one call of [/v3/Account/GetToken], which is made without renewal
    (so that it does not wait for a renewal that is pending, and does not
    begin one) and with the token the client holds. *)
Theorem getToken_effects_bounded env (this : CoralApi) (session_token : string)
    (u : NintendoAccountUser) (trace : list Effect) :
  exists effects,
    snd (getToken webApiServerCredential env this session_token u trace)
    = (effects ++ trace)%list
    /\ length effects <= 3
    /\ (forall request, Fetched request ∈ effects ->
          request = token_request session_token ZNCA_CLIENT_ID)
    /\ (forall t h o, Proved t h o ∈ effects ->
          h = CORAL /\ version o = znca_version this)
    /\ (forall c b v a, Called c b v a ∈ effects ->
          Coral.url c = "/v3/Account/GetToken"%string /\ Coral.autoRenewToken c = false
          /\ b = token this).
Proof.
  destruct (getToken_effects env this session_token u trace) as (effects & Hs & Hlen & Hall).
  exists effects. rewrite Forall_forall in Hall.
  split; [exact Hs|]. split; [exact Hlen|]. split; [|split].
  - intros request Hin. now apply Hall in Hin.
  - intros t h o Hin. now apply Hall in Hin.
  - intros c b v a Hin. apply Hall in Hin. cbn in Hin. tauto.
Qed.

(** X17.  [renewToken] replaces the token of the client only when
    [getToken] succeeded, and then by the access token of the credential in
    the [result] of an envelope of status [OK] that the token endpoint of
    Coral sent in answer to a call made with the old token; when any step
    fails the client is as it was.  The user agent and the versions of the
    client are never changed. *)
Theorem renewToken_atomic env (this : CoralApi) (session_token : string)
    (u : NintendoAccountUser) (trace : list Effect) :
  let this' := fst (renewToken webApiServerCredential env this session_token u trace) in
  let r := fst (snd (renewToken webApiServerCredential env this session_token u trace)) in
  useragent this' = useragent this
  /\ znca_version this' = znca_version this
  /\ znca_useragent this' = znca_useragent this
  /\ match r with
     | inl _ => this' = this
     | inr data =>
         token this' = Coral.accessToken (partial_credential data)
         /\ exists response envelope,
              coral_endpoint env
                (Coral.call "/v3/Account/GetToken"
                   (AccountTokenParameter u (partial_f data)
                      (partial_nintendoAccountToken data))
                   (uuidgen env) false)
                (token this) = inr response
              /\ Coral.resp_status response = 200%Z
              /\ Coral.resp_json response = Some envelope
              /\ Coral.status envelope = Coral.OK
              /\ Coral.errorMessage envelope = None
              /\ partial_credential data = webApiServerCredential (Coral.result envelope)
     end.
Proof.
  unfold renewToken.
  destruct (getToken webApiServerCredential env this session_token u trace)
    as [[e|data] t] eqn:Hg; cbn; [now repeat split|].
  split; [reflexivity|]. split; [reflexivity|]. split; [reflexivity|].
  split; [reflexivity|].
  unfold getToken in Hg.
  apply bind_inr in Hg as (nat & t1 & _ & H).
  apply bind_inr in H as (fd & t2 & _ & H).
  apply bind_inr in H as (result & t3 & (_ & Hc & Hgen)%call_unrenewed_inr & H).
  injection H as <- <-. cbn.
  destruct Hgen as (H1 & H2 & H3 & H4 & H5 & _).
  exists (Coral.ResponseSymbol result), (Coral.ResponseDataSymbol result).
  rewrite H5. now repeat split.
Qed.

(** X18.  The client that [createWithSessionToken] makes holds the access
    token of the credential that the login returned, and the version and
    the user agent of the remote configuration the login ran with, not those
    built in; the device proofs it computes later for [getToken] are for
    that same version. *)
Theorem createWithSessionToken_client env (session_token : string) (ua : option string)
    (trace : list Effect) (nso : CoralApi) (data : CoralAuthData) (trace' : list Effect) :
  createWithSessionToken webApiServerCredential env session_token ua trace
  = (inr (nso, data), trace') ->
  loginWithSessionToken webApiServerCredential env session_token ua trace
  = (inr data, trace')
  /\ token nso = Coral.accessToken (credential data)
  /\ useragent nso = ua
  /\ (exists config, remote_config env = Some config
        /\ znca_version nso = config_znca_version config
        /\ znca_useragent nso = login_useragent config
        /\ forall env' tok u trace0 t h o,
             Proved t h o
               ∈ snd (getToken webApiServerCredential env' nso tok u trace0) ->
             Proved t h o ∈ trace0 \/ version o = config_znca_version config).
Proof.
  unfold createWithSessionToken.
  intros (d & t1 & Hl & [= <- <- <-])%bind_inr.
  split; [exact Hl|]. split; [reflexivity|]. split; [reflexivity|].
  apply login_config_of_success in Hl as (config & Hc & Hv & Hu).
  exists config. cbn. split; [exact Hc|]. split; [exact Hv|]. split; [exact Hu|].
  intros env' tok u trace0 t h o Hin.
  destruct (getToken_effects env' (createWithSavedToken d ua) tok u trace0)
    as (effects & Hs & _ & Hall).
  rewrite Hs in Hin. apply elem_of_app in Hin as [Hin|Hin]; [right|now left].
  rewrite Forall_forall in Hall. apply Hall in Hin as [_ Hver]. cbn in Hver. congruence.
Qed.

Lemma getNintendoAccountUser_trace env t trace :
  snd (getNintendoAccountUser env t trace) = Fetched (user_request t) :: trace.
Proof.
  unfold getNintendoAccountUser, bind, await.
  destruct (user_endpoint env _) as [e|response]; [reflexivity|].
  destruct (negb _); [reflexivity|]. unfold json.
  destruct (resp_json response) as [[u|code detail]|]; reflexivity.
Qed.

(** X19.  Without [coral] in the remote configuration a login fails at
    once, with the error that says so and before any request.  With it, a
    login makes four steps at most (the token request, the user request,
    the device proof for Coral with the version of the remote
    configuration, the login request) and no call through a client: a login
    never sends a Coral token and never begins a renewal. *)
Theorem loginWithSessionToken_effects env (session_token : string) (ua : option string)
    (trace : list Effect) :
  let r := loginWithSessionToken webApiServerCredential env session_token ua trace in
  (remote_config env = None ->
   r = (inl (Error "Remote configuration prevents Coral authentication"), trace))
  /\ exists effects,
       snd r = (effects ++ trace)%list
       /\ length effects <= 4
       /\ Forall (login_effect env session_token) effects.
Proof.
  cbn zeta. unfold loginWithSessionToken.
  destruct (remote_config env) as [config|] eqn:Hc.
  - split; [discriminate|]. unfold bind at 1.
    pose proof (getNintendoAccountToken_trace env session_token ZNCA_CLIENT_ID trace) as Ht.
    destruct (getNintendoAccountToken env session_token ZNCA_CLIENT_ID trace)
      as [[e|nat] t1]; cbn in Ht; subst t1.
    { exists [Fetched (token_request session_token ZNCA_CLIENT_ID)].
      split; [reflexivity|]. split; [cbn; lia|].
      repeat (apply List.Forall_cons; [cbn; eauto 7|]); apply List.Forall_nil. }
    unfold bind at 1.
    pose proof (getNintendoAccountUser_trace env nat
                  (Fetched (token_request session_token ZNCA_CLIENT_ID) :: trace)) as Hu.
    destruct (getNintendoAccountUser env nat _) as [[e|u] t2]; cbn in Hu; subst t2.
    { exists [Fetched (user_request nat);
              Fetched (token_request session_token ZNCA_CLIENT_ID)].
      split; [reflexivity|]. split; [cbn; lia|].
      repeat (apply List.Forall_cons; [cbn; eauto 7|]); apply List.Forall_nil. }
    unfold bind at 1, await at 1.
    destruct (f env (id_token nat) CORAL _) as [e|fd].
    { exists [Proved (id_token nat) CORAL
                {| platform := ZNCA_PLATFORM; version := config_znca_version config;
                   useragent_option := ua |};
              Fetched (user_request nat);
              Fetched (token_request session_token ZNCA_CLIENT_ID)].
      split; [reflexivity|]. split; [cbn; lia|].
      repeat (apply List.Forall_cons; [cbn; eauto 7|]); apply List.Forall_nil. }
    unfold bind, await.
    exists [Fetched (login_request config (AccountLoginParameter nat u fd));
            Proved (id_token nat) CORAL
              {| platform := ZNCA_PLATFORM; version := config_znca_version config;
                 useragent_option := ua |};
            Fetched (user_request nat);
            Fetched (token_request session_token ZNCA_CLIENT_ID)].
    split; [|split; [cbn; lia|repeat (apply List.Forall_cons; [cbn; eauto 7|]); apply List.Forall_nil]].
    destruct (login_endpoint env _) as [e|response]; [reflexivity|].
    destruct (negb _); [reflexivity|].
    destruct (Coral.resp_json response) as [data|]; [|reflexivity].
    destruct (Coral.errorMessage data); [reflexivity|].
    destruct (negb _); reflexivity.
  - split; [reflexivity|]. exists []. split; [reflexivity|]. split; [cbn; lia|constructor].
Qed.

End LoggingIn.

(** A login in the environment in which every step succeeds. *)
Lemma loginWithSessionToken_success_witness :
  exists data trace',
    Login.loginWithSessionToken Login.credential_of Login.welcoming "session" None []
    = (inr data, trace')
    /\ exists config envelope,
         Login.remote_config Login.welcoming = Some config
         /\ Coral.status envelope = Coral.OK
         /\ Login.credential data = Login.credential_of (Coral.result envelope)
         /\ Login.data_znca_version data = Login.config_znca_version config.
Proof.
  eexists. eexists. split; [cbv; reflexivity|].
  destruct (loginWithSessionToken_success Login.credential_of Login.welcoming
              "session" None [] _ _ eq_refl)
    as (config & granted & profile & response & envelope & Hc & _ & _ & _ & _ & _ & _
        & _ & _ & _ & _ & _ & Hst & _ & Hcr & Hv & _).
  exists config, envelope. split; [exact Hc|]. split; [exact Hst|].
  split; [exact Hcr | exact Hv].
Defined.

Lemma createWithSessionToken_client_witness :
  exists nso data trace',
    Login.createWithSessionToken Login.credential_of Login.welcoming "session" None []
    = (inr (nso, data), trace')
    /\ Login.token nso = Coral.accessToken (Login.credential data)
    /\ Login.useragent nso = None.
Proof.
  eexists. eexists. eexists. split; [cbv; reflexivity|].
  destruct (createWithSessionToken_client Login.credential_of Login.welcoming
              "session" None [] _ _ _ eq_refl) as (_ & Ht & Hu & _).
  split; [exact Ht | exact Hu].
Defined.

(** A login where the remote configuration has no [coral]. *)
Lemma loginWithSessionToken_effects_witness :
  Login.loginWithSessionToken Login.credential_of (Login.gated Login.welcoming)
    "session" None []
  = (inl (Login.Error "Remote configuration prevents Coral authentication"), []).
Proof.
  exact (proj1 (loginWithSessionToken_effects Login.credential_of
                  (Login.gated Login.welcoming) "session" None []) eq_refl).
Defined.
